(** * Order-ingestion bot: parser, event deduplicator and sheet synchroniser

    A shallow embedding of [ai-parser.js], [slack-handler.js],
    [google-sheets.js] and [config-manager.js], followed by the properties
    of the specification that the first three files decide and by further
    properties of the four.

    Conventions of the embedding:
    - a JavaScript string is the list of its UTF-16 code units ([N]);
      Korean literals of the source are written out as code units, with the
      word in a comment;
    - a JavaScript number is a [num]: an integer-valued double, a
      non-integral double, an infinity or NaN (negative zero is identified
      with zero; nothing in the files tells them apart);
    - [null] returned by [fastParse] is [None];
    - exceptions are the [Throw] outcome of a small state-and-error monad;
      console output and calls to external services are recorded in the
      state, so that what a function did can be stated as well as what it
      returned;
    - the external collaborators (extraction service, [JSON.parse], the
      spreadsheet back end, the clock) are fields of environment records. *)

From Stdlib Require Import Ascii String.
From Stdlib Require Import List NArith ZArith Bool Lia.
Import ListNotations.

(* ================================================================== *)
(** * JavaScript built-ins used by the sources *)
(* ================================================================== *)

Module JS.

(** UTF-16 code units and strings. *)
Definition jsstring := list N.

Fixpoint eqs (a b : jsstring) : bool :=
  match a, b with
  | [], [] => true
  | x :: a', y :: b' => N.eqb x y && eqs a' b'
  | _, _ => false
  end.

(** Embeds an ASCII literal of the source (every byte is its own code
    unit). *)
Fixpoint lit (s : String.string) : jsstring :=
  match s with
  | String.EmptyString => []
  | String.String c r => Ascii.N_of_ascii c :: lit r
  end.

Arguments lit s%_string.

(** WhiteSpace and LineTerminator code points of ECMAScript: what
    [String.prototype.trim], the regular expression class [\s] and
    [parseInt] all skip. *)
Definition isWhiteSpace (c : N) : bool :=
  existsb (N.eqb c)
    [9; 10; 11; 12; 13; 32; 160; 5760; 8232; 8233; 8239; 8287; 12288; 65279]%N
  || (N.leb 8192 c && N.leb c 8202).

Fixpoint trimStart (s : jsstring) : jsstring :=
  match s with
  | [] => []
  | c :: r => if isWhiteSpace c then trimStart r else s
  end.

Fixpoint trimEnd (s : jsstring) : jsstring :=
  match s with
  | [] => []
  | c :: r =>
      match trimEnd r with
      | [] => if isWhiteSpace c then [] else [c]
      | r' => c :: r'
      end
  end.

(** [s.trim()] *)
Definition trim (s : jsstring) : jsstring := trimEnd (trimStart s).

(** [s.split(/\s+/)]: the pieces between maximal runs of white space; a
    run at either end of [s] leaves an empty piece there, and the empty
    string splits into one empty piece. *)
Fixpoint split_ws (s : jsstring) : list jsstring :=
  match s with
  | [] => [[]]
  | c :: r =>
      if isWhiteSpace c then
        match r with
        | c' :: _ => if isWhiteSpace c' then split_ws r else [] :: split_ws r
        | [] => [] :: split_ws r
        end
      else
        match split_ws r with
        | t :: ts => (c :: t) :: ts
        | [] => [[c]]
        end
  end.

Fixpoint startsWith (s pre : jsstring) : bool :=
  match pre, s with
  | [], _ => true
  | p :: pre', c :: s' => N.eqb p c && startsWith s' pre'
  | _ :: _, [] => false
  end.

(** [s.includes(sub)] on strings: [sub] occurs somewhere in [s]. *)
Fixpoint includes (s sub : jsstring) : bool :=
  startsWith s sub ||
  match s with
  | [] => false
  | _ :: r => includes r sub
  end.

(** [arr.includes(x)] on an array of strings. *)
Definition arrayIncludes (arr : list jsstring) (x : jsstring) : bool :=
  existsb (eqs x) arr.

(** Numbers.  [Int z] is the double whose value is the integer [z];
    [Frac m k] is the non-integral double [m / 2^k] with [m] odd. *)
Inductive num :=
| NaN
| Inf (negative : bool)
| Int (z : Z)
| Frac (m : Z) (k : positive).

Definition isNaN (n : num) : bool :=
  match n with NaN => true | _ => false end.

(** The double nearest to an integer (round to nearest, ties to even),
    as [parseInt] returns it.  Integers below [2^53] in magnitude are
    exact; beyond twenty significant digits ECMAScript lets an engine
    approximate, and the correctly rounded value is taken here. *)
Definition roundToDouble (z : Z) : num :=
  let a := Z.abs z in
  if (a <? 2 ^ 53)%Z then Int z
  else
    let sh := (Z.log2 a - 52)%Z in
    let q := Z.shiftr a sh in
    let r := (a mod 2 ^ sh)%Z in
    let half := (2 ^ (sh - 1))%Z in
    let q' := if (half <? r)%Z || ((r =? half)%Z && Z.odd q)
              then (q + 1)%Z else q in
    let m := (q' * 2 ^ sh)%Z in
    if (2 ^ 1024 <=? m)%Z then Inf (z <? 0)%Z else Int (Z.sgn z * m).

(** Value of a code unit as a digit in the given radix. *)
Definition digitVal (radix : Z) (c : N) : option Z :=
  let v :=
    if (N.leb 48 c && N.leb c 57) then Some (Z.of_N c - 48)%Z
    else if (N.leb 97 c && N.leb c 122) then Some (Z.of_N c - 87)%Z
    else if (N.leb 65 c && N.leb c 90) then Some (Z.of_N c - 55)%Z
    else None in
  match v with
  | Some d => if (d <? radix)%Z then Some d else None
  | None => None
  end.

(** Longest prefix of digits, read left to right; [None] when the prefix
    is empty. *)
Fixpoint readDigits (radix : Z) (s : jsstring) (acc : option Z) : option Z :=
  match s with
  | [] => acc
  | c :: r =>
      match digitVal radix c with
      | Some d =>
          readDigits radix r
            (Some (radix * match acc with Some a => a | None => 0 end + d)%Z)
      | None => acc
      end
  end.

(** An optional sign in front of the digits. *)
Definition splitSign (s : jsstring) : Z * jsstring :=
  match s with
  | 45%N :: r => ((-1)%Z, r)
  | 43%N :: r => (1%Z, r)
  | _ => (1%Z, s)
  end.

(** An optional [0x] or [0X] selects radix 16. *)
Definition splitRadix (s : jsstring) : Z * jsstring :=
  match s with
  | 48%N :: 120%N :: r => (16%Z, r)
  | 48%N :: 88%N :: r => (16%Z, r)
  | _ => (10%Z, s)
  end.

(** [parseInt(s)] with no radix argument: leading white space, an optional
    sign, an optional [0x]/[0X] prefix, then the longest run of digits;
    whatever follows is ignored; no digit at all gives NaN. *)
Definition parseInt (s : jsstring) : num :=
  let '(sign, s2) := splitSign (trimStart s) in
  let '(radix, s3) := splitRadix s2 in
  match readDigits radix s3 None with
  | None => NaN
  | Some v => roundToDouble (sign * v)
  end.

(** Decimal rendering of a natural number, for array indices used as
    property keys. *)
Fixpoint uintChars (d : Decimal.uint) : jsstring :=
  match d with
  | Decimal.Nil => []
  | Decimal.D0 r => 48%N :: uintChars r
  | Decimal.D1 r => 49%N :: uintChars r
  | Decimal.D2 r => 50%N :: uintChars r
  | Decimal.D3 r => 51%N :: uintChars r
  | Decimal.D4 r => 52%N :: uintChars r
  | Decimal.D5 r => 53%N :: uintChars r
  | Decimal.D6 r => 54%N :: uintChars r
  | Decimal.D7 r => 55%N :: uintChars r
  | Decimal.D8 r => 56%N :: uintChars r
  | Decimal.D9 r => 57%N :: uintChars r
  end.

Definition indexKey (i : nat) : jsstring := uintChars (N.to_uint (N.of_nat i)).

#[local] Set Warnings "-register-all".

(** Values that [JSON.parse] can return, plus [undefined]. An object is the
    list of its own properties in property order. *)
Inductive jsval :=
| VUndefined
| VNull
| VBool (b : bool)
| VNum (n : num)
| VStr (s : jsstring)
| VArr (items : list jsval)
| VObj (props : list (jsstring * jsval)).

(** ToBoolean *)
Definition truthy (v : jsval) : bool :=
  match v with
  | VUndefined | VNull => false
  | VBool b => b
  | VNum NaN => false
  | VNum (Int z) => negb (z =? 0)%Z
  | VNum _ => true
  | VStr s => match s with [] => false | _ => true end
  | VArr _ | VObj _ => true
  end.

Fixpoint lookup (k : jsstring) (props : list (jsstring * jsval)) : option jsval :=
  match props with
  | [] => None
  | (k', v) :: r => if eqs k k' then Some v else lookup k r
  end.

(** Assigning a property: an existing key keeps its place, a new key goes
    last. *)
Fixpoint setProp (k : jsstring) (v : jsval) (props : list (jsstring * jsval))
  : list (jsstring * jsval) :=
  match props with
  | [] => [(k, v)]
  | (k', v') :: r => if eqs k k' then (k, v) :: r else (k', v') :: setProp k v r
  end.

Fixpoint indexed {A} (i : nat) (l : list A) : list (jsstring * A) :=
  match l with
  | [] => []
  | x :: r => (indexKey i, x) :: indexed (S i) r
  end.

(** Own enumerable properties copied by object spread [{...v}]. *)
Definition spread (v : jsval) : list (jsstring * jsval) :=
  match v with
  | VObj props => props
  | VArr items => indexed 0 items
  | VStr s => indexed 0 (map (fun c => VStr [c]) s)
  | _ => []
  end.

(** What the caller of a function observes of it: a value or an exception. *)
Inductive outcome (E A : Type) :=
| Ok (a : A)
| Throw (e : E).
Arguments Ok {E A} a.
Arguments Throw {E A} e.

End JS.

(* ================================================================== *)
(** * ai-parser.js *)
(* ================================================================== *)

Module AiParser.
Import JS.

(** The objects [fastParse] builds: [{ company, product, count, ts: null }]. *)
Record OrderLine := {
  company : jsstring;
  product : jsstring;
  count : num;
  ts : option jsstring
}.

Definition KEUNGEO : jsstring := [53360; 44144]%N.   (* '큰거' *)
Definition NOKSAEK : jsstring := [45433; 49353]%N.   (* '녹색' *)
Definition PARANG : jsstring := [54028; 46993]%N.    (* '파랑' *)

(** [mapping] of [normalizeProduct], in the order [Object.entries] walks
    it. *)
Definition mapping : list (jsstring * list jsstring) :=
  [ (KEUNGEO,
      [ [44540; 44144];            (* '근거' *)
        [53360; 44144];            (* '큰거' *)
        [53360; 44163];            (* '큰것' *)
        [53356; 44144];            (* '크거' *)
        [53372; 44144];            (* '큼거' *)
        [53360];                   (* '큰' *)
        [45824] ]);                (* '대' *)
    (NOKSAEK,
      [ [45433; 49353];            (* '녹색' *)
        [45433; 49465];            (* '녹섹' *)
        [45432; 49353];            (* '노색' *)
        [45573; 49353];            (* '눅색' *)
        [45433; 49353; 49353];     (* '녹색색' *)
        [52488; 47197];            (* '초록' *)
        [52488; 47197; 49353];     (* '초록색' *)
        [44536; 47536] ]);         (* '그린' *)
    (PARANG,
      [ [54028; 46993];            (* '파랑' *)
        [54028; 46993; 49353];     (* '파랑색' *)
        [54028; 46976];            (* '파란' *)
        [54028; 46972];            (* '파라' *)
        [54140; 47105];            (* '퍼렁' *)
        [54028; 46993; 51060];     (* '파랑이' *)
        [54028; 46993; 49353];     (* '파랑색' *)
        [48660; 47336] ]) ]%N.     (* '블루' *)

(** [normalizeProduct(product)] on a string. *)
Definition normalizeProduct (product : jsstring) : jsstring :=
  match product with
  | [] => product                                  (* if (!product) *)
  | _ :: _ =>
      let trimmedProduct := trim product in
      match
        find (fun entry =>
                arrayIncludes (snd entry) trimmedProduct
                || includes trimmedProduct (fst entry))
             mapping
      with
      | Some (key, _) => key
      | None => product
      end
  end.

(** [normalizeProduct(item.product)] on whatever value the extraction
    service put there: a falsy value is returned as it is, a non-empty
    string is normalized, and any other truthy value has no [trim] method,
    so the call raises a TypeError ([None]). *)
Definition normalizeProductAny (v : jsval) : option jsval :=
  if negb (truthy v) then Some v
  else match v with
       | VStr s => Some (VStr (normalizeProduct s))
       | _ => None
       end.

(** The loop of [fastParse] over [parts[1..]], two tokens at a time.
    [parts[i + 1]] past the end is [undefined], which [parseInt] reads as
    the string "undefined". *)
Fixpoint pairLoop (company : jsstring) (rest : list jsstring)
         (results : list OrderLine) : option (list OrderLine) :=
  match rest with
  | [] => Some results
  | product :: after =>
      let countStr := match after with c :: _ => c | [] => lit "undefined" end in
      let count := parseInt countStr in
      if truthy (VStr product) && negb (isNaN count) then
        let results' :=
          results ++ [ {| company := company;
                          product := normalizeProduct product;
                          count := count;
                          ts := None |} ] in
        match after with
        | _ :: after' => pairLoop company after' results'
        | [] => Some results'
        end
      else None
  end.

(** [fastParse(text)]; [None] is the [null] of the source. *)
Definition fastParse (text : jsstring) : option (list OrderLine) :=
  let parts := split_ws (trim text) in
  if (length parts <? 3)%nat then None
  else
    match parts with
    | [] => None
    | company :: rest =>
        match pairLoop company rest [] with
        | None => None
        | Some results =>
            if (0 <? length results)%nat then Some results else None
        end
    end.

Inductive error :=
| MissingApiKey        (* Error("Gemini API 키가 설정되지 않았습니다.") *)
| ServiceFailure       (* generateContent / response.text() rejected *)
| SyntaxError          (* JSON.parse *)
| TypeError.

Inductive event :=
| ConsoleLog (line : jsstring)
| ConsoleError (e : error)
| GenerateContent (text : jsstring).   (* a call to the extraction service *)

(** Configuration and collaborators of the parser. *)
Record env := {
  (** What [configManager.getConfig()] returns: the settings object, or
      whatever other JSON value the settings file holds. *)
  config : jsval;
  (** Text of the service's answer to the prompt built around a message;
      [None] when the call or [response.text()] fails. *)
  generateContent : jsstring -> option jsstring;
  (** [JSON.parse]; [None] is its SyntaxError. *)
  JSON_parse : jsstring -> option jsval
}.

(** [config.GEMINI_API_KEY]: [undefined] when the settings have no such
    property, a TypeError when the settings are [null]. *)
Definition GEMINI_API_KEY (e : env) : outcome error jsval :=
  match config e with
  | VUndefined | VNull => Throw TypeError
  | VObj props =>
      Ok (match lookup (lit "GEMINI_API_KEY") props with
          | Some v => v
          | None => VUndefined
          end)
  | _ => Ok VUndefined
  end.

Definition getBestModel (e : env) : jsstring := lit "gemini-1.5-flash".

(** [.replace(/```json|```/g, "")]; [skip] counts the code units of the
    current match still to drop. *)
Fixpoint stripFences (s : jsstring) (skip : nat) : jsstring :=
  match s with
  | [] => []
  | c :: r =>
      match skip with
      | S k => stripFences r k
      | O =>
          if startsWith s (lit "```json") then stripFences r 6
          else if startsWith s (lit "```") then stripFences r 2
          else c :: stripFences r 0
      end
  end.

(** [item.product]: reading a property of [null] or [undefined] raises a
    TypeError ([None]); a value without the property gives [undefined]. *)
Definition getProduct (item : jsval) : option jsval :=
  match item with
  | VUndefined | VNull => None
  | VObj props =>
      match lookup (lit "product") props with
      | Some v => Some v
      | None => Some VUndefined
      end
  | _ => Some VUndefined
  end.

(** [item => ({ ...item, product: normalizeProduct(item.product) })] *)
Definition mapItem (item : jsval) : option jsval :=
  match getProduct item with
  | None => None
  | Some p =>
      match normalizeProductAny p with
      | None => None
      | Some p' => Some (VObj (setProp (lit "product") p' (spread item)))
      end
  end.

Fixpoint mapItems (items : list jsval) : option (list jsval) :=
  match items with
  | [] => Some []
  | item :: r =>
      match mapItem item with
      | None => None
      | Some o =>
          match mapItems r with
          | None => None
          | Some os => Some (o :: os)
          end
      end
  end.

(** Body of the [try] block of [aiParse]. *)
Definition aiAttempt (e : env) (text : jsstring)
  : outcome error (list jsval) :=
  match generateContent e text with
  | None => Throw ServiceFailure
  | Some raw =>
      let jsonText := trim (stripFences raw 0) in
      match JSON_parse e jsonText with
      | None => Throw SyntaxError
      | Some (VArr items) =>
          match mapItems items with
          | Some r => Ok r
          | None => Throw TypeError
          end
      | Some _ => Throw TypeError        (* parsed.map is not a function *)
      end
  end.

(** [aiParse(text)]: outcome and what it did. *)
Definition aiParse (e : env) (text : jsstring)
  : outcome error (list jsval) * list event :=
  match GEMINI_API_KEY e with
  | Throw err => (Throw err, [])
  | Ok key =>
      if negb (truthy key) then (Throw MissingApiKey, [])
      else
        match aiAttempt e text with
        | Ok r => (Ok r, [GenerateContent text])
        | Throw err => (Ok [], [GenerateContent text; ConsoleError err])
        end
  end.

Definition lineObject (l : OrderLine) : jsval :=
  VObj [ (lit "company", VStr (company l));
         (lit "product", VStr (product l));
         (lit "count", VNum (count l));
         (lit "ts", match ts l with Some t => VStr t | None => VNull end) ].

Definition MSG_FAST : jsstring := lit "fast path".
Definition MSG_AI : jsstring := lit "calling Gemini".

(** [parseMessage(text)] *)
Definition parseMessage (e : env) (text : jsstring)
  : outcome error (list jsval) * list event :=
  match fastParse text with
  | Some quickResult => (Ok (map lineObject quickResult), [ConsoleLog MSG_FAST])
  | None =>
      let '(r, evs) := aiParse e text in
      (r, ConsoleLog MSG_AI :: evs)
  end.

End AiParser.

(* ================================================================== *)
(** * slack-handler.js: the cache of processed identities *)
(* ================================================================== *)

Module SlackHandler.
Import JS.

Definition CACHE_SIZE : nat := 100.

(** [processedEvents], a [Set] of strings: its members in insertion order,
    each once. *)
Definition idset := list jsstring.

Definition has (s : idset) (x : jsstring) : bool := existsb (eqs x) s.
Definition add (s : idset) (x : jsstring) : idset :=
  if has s x then s else s ++ [x].
Definition delete (s : idset) (x : jsstring) : idset :=
  filter (fun y => negb (eqs x y)) s.
Definition size (s : idset) : nat := length s.

(** The fields of the request body that [shouldSkipEvent] reads;
    [event_time] is in seconds. *)
Record body := {
  event_id : option jsstring;
  event_time : option Z
}.

(** [shouldSkipEvent(body)] at wall-clock time [nowMs] ([Date.now()]):
    the answer and the cache afterwards. *)
Definition shouldSkipEvent (nowMs : Z) (b : option body) (s : idset)
  : bool * idset :=
  match b with
  | None => (false, s)
  | Some b =>
      match event_id b with
      | None | Some [] => (false, s)
      | Some id =>
          if has s id then (true, s)
          else
            let currentTime := (nowMs / 1000)%Z in
            let tooOld :=
              match event_time b with
              | Some t => negb (t =? 0)%Z && (60 <? currentTime - t)%Z
              | None => false
              end in
            if tooOld then (true, s)
            else
              let s1 := add s id in
              let s2 :=
                if (CACHE_SIZE <? size s1)%nat then
                  match s1 with
                  | firstItem :: _ => delete s1 firstItem
                  | [] => s1
                  end
                else s1 in
              (false, s2)
      end
  end.

(** The duplicate check at the head of the [approve_order] handler:
    whether the handler goes on, and the cache afterwards. *)
Definition approveOrderCheck (trigger_id : jsstring) (s : idset)
  : bool * idset :=
  if has s trigger_id then (false, s)
  else (true, add s trigger_id).

(** What reaches the cache: a message or message-changed/deleted event
    (both handlers go through [shouldSkipEvent]) or a click on the approve
    button. *)
Inductive input :=
| MessageEvent (nowMs : Z) (b : option body)
| ApproveClick (trigger_id : jsstring).

Definition step (s : idset) (i : input) : idset :=
  match i with
  | MessageEvent nowMs b => snd (shouldSkipEvent nowMs b s)
  | ApproveClick t => snd (approveOrderCheck t s)
  end.

Definition run (inputs : list input) : idset := fold_left step inputs [].

End SlackHandler.

(* ================================================================== *)
(** * google-sheets.js *)
(* ================================================================== *)

Module GoogleSheets.
Import JS.

(** A cell as [values.get] returns it with UNFORMATTED_VALUE. *)
Inductive cell :=
| CStr (s : jsstring)
| CNum (n : num)
| CBool (b : bool).

(** A tab of the spreadsheet: [rows] is what [values.get] on [A:Z] returns
    for it. *)
Record sheet := {
  sheetId : Z;
  title : jsstring;
  rows : list (list cell)
}.

Inductive error :=
| CredentialError            (* thrown by getSheetsClient: the Error made for
                                a key that is not set, or the error met
                                while reading a key that is set *)
| ApiError (code : Z)        (* a rejected request, with its HTTP status *)
| TypeError
| NoPermission               (* the three errors ensureSheetExists makes *)
| NotFound
| SheetError (cause : error).

Inductive request :=
| SpreadsheetsGet
| ValuesGet (name : jsstring)
| AddSheet (name : jsstring)
| ValuesUpdateHeader (name : jsstring)
| ValuesAppend (name : jsstring) (values : list jsval)
| DeleteDimension (id : Z) (startIndex : nat).

Inductive logline :=
| Info (msg : jsstring)
| Warn (e : error)
| Error (e : error).

Record world := {
  sheets : list sheet;
  calls : list request;       (* requests sent so far, oldest first *)
  console : list logline
}.

(** [config.GOOGLE_SERVICE_ACCOUNT_KEY] as [getSheetsClient()] finds it:
    not set (or not to be read, the settings being [null]); set but
    unusable (it is not JSON, or it lacks [client_email] or
    [private_key]); or usable. *)
Inductive keyState :=
| KeyAbsent
| KeyUnusable
| KeyUsable.

(** Configuration and back end. *)
Record env := {
  serviceAccountKey : keyState;
  (** a request the back end rejects although it is well formed (network,
      quota, permission), given the spreadsheet and the requests so far,
      with the HTTP status it reports *)
  fault : list sheet -> list request -> request -> option Z;
  (** identifier the back end gives to a new tab *)
  freshSheetId : list sheet -> Z;
  (** how the back end stores a value written with USER_ENTERED *)
  userEntered : jsval -> cell;
  (** [new Date().toLocaleString(...)], by the number of requests sent *)
  now : nat -> jsstring;
  (** [String(n)] for a number *)
  numberToString : num -> jsstring
}.

(** whether [getSheetsClient()] finds usable credentials *)
Definition credentials (e : env) : bool :=
  match serviceAccountKey e with
  | KeyUsable => true
  | _ => false
  end.

Definition M (A : Type) : Type := world -> outcome error A * world.

Definition ret {A} (a : A) : M A := fun w => (Ok a, w).
Definition throw {A} (e : error) : M A := fun w => (Throw e, w).
Definition bind {A B} (m : M A) (k : A -> M B) : M B :=
  fun w =>
    match m w with
    | (Ok a, w') => k a w'
    | (Throw e, w') => (Throw e, w')
    end.
Definition catch {A} (m : M A) (handler : error -> M A) : M A :=
  fun w =>
    match m w with
    | (Ok a, w') => (Ok a, w')
    | (Throw e, w') => handler e w'
    end.

Declare Scope js_scope.
Delimit Scope js_scope with js.
Notation "x <- m ;; k" := (bind m (fun x => k))
  (at level 61, m at next level, right associativity) : js_scope.
Notation "m ;; k" := (bind m (fun _ => k))
  (at level 61, right associativity) : js_scope.
Local Open Scope js_scope.

Fixpoint forEach {A} (l : list A) (f : A -> M unit) : M unit :=
  match l with
  | [] => ret tt
  | x :: r => f x ;; forEach r f
  end.

Definition log (l : logline) : M unit :=
  fun w => (Ok tt, {| sheets := sheets w; calls := calls w;
                      console := console w ++ [l] |}).

(** Sends a request: it is recorded, then either rejected by a fault or
    served. *)
Definition send {A} (e : env) (r : request)
           (serve : list sheet -> outcome error A * list sheet) : M A :=
  fun w =>
    let calls' := calls w ++ [r] in
    match fault e (sheets w) (calls w) r with
    | Some code =>
        (Throw (ApiError code),
         {| sheets := sheets w; calls := calls'; console := console w |})
    | None =>
        let '(o, ss) := serve (sheets w) in
        (o, {| sheets := ss; calls := calls'; console := console w |})
    end.

(** ** The back end *)

Definition hasTitle (name : jsstring) (s : sheet) : bool := eqs (title s) name.

Fixpoint updateFirst (p : sheet -> bool) (f : sheet -> sheet) (ss : list sheet)
  : option (list sheet) :=
  match ss with
  | [] => None
  | s :: r =>
      if p s then Some (f s :: r)
      else match updateFirst p f r with
           | Some r' => Some (s :: r')
           | None => None
           end
  end.

Definition withRows (s : sheet) (rs : list (list cell)) : sheet :=
  {| sheetId := sheetId s; title := title s; rows := rs |}.

Fixpoint removeAt {A} (i : nat) (l : list A) : list A :=
  match l, i with
  | [], _ => []
  | _ :: r, O => r
  | x :: r, S j => x :: removeAt j r
  end.

Definition HEADER : list cell :=
  [ CStr [50629; 52404; 47749];                 (* '업체명' *)
    CStr [51228; 54408; 47749];                 (* '제품명' *)
    CStr [44079; 49688];                        (* '갯수' *)
    CStr (lit "Slack_TS");
    CStr [45216; 51676];                        (* '날짜' *)
    CStr [48708; 44256] ]%N.                    (* '비고' *)

(** [spreadsheets.get]: identifier and title of every tab, in order. *)
Definition spreadsheets_get (e : env) : M (list (Z * jsstring)) :=
  send e SpreadsheetsGet
       (fun ss => (Ok (map (fun s => (sheetId s, title s)) ss), ss)).

(** [spreadsheets.values.get] on [name!A:Z]; the response has no [values]
    ([None]) when the tab is empty. *)
Definition values_get (e : env) (name : jsstring)
  : M (option (list (list cell))) :=
  send e (ValuesGet name)
       (fun ss =>
          match find (hasTitle name) ss with
          | Some s =>
              (Ok (match rows s with [] => None | rs => Some rs end), ss)
          | None => (Throw (ApiError 400), ss)
          end).

(** [batchUpdate] with [addSheet]: a new, empty tab at the end. *)
Definition addSheet (e : env) (name : jsstring) : M unit :=
  send e (AddSheet name)
       (fun ss =>
          if existsb (hasTitle name) ss then (Throw (ApiError 400), ss)
          else (Ok tt, ss ++ [ {| sheetId := freshSheetId e ss;
                                  title := name; rows := [] |} ])).

(** [values.update] of the header at [name!A1]: overwrites the first six
    cells of the first row. *)
Definition values_update_header (e : env) (name : jsstring) : M unit :=
  send e (ValuesUpdateHeader name)
       (fun ss =>
          match updateFirst (hasTitle name)
                  (fun s => withRows s
                     ((HEADER ++ skipn 6 (hd [] (rows s))) :: tl (rows s))) ss
          with
          | Some ss' => (Ok tt, ss')
          | None => (Throw (ApiError 400), ss)
          end).

(** [values.append] on [name!A:A]: one more row below the last one. *)
Definition values_append (e : env) (name : jsstring) (values : list jsval)
  : M unit :=
  send e (ValuesAppend name values)
       (fun ss =>
          match updateFirst (hasTitle name)
                  (fun s => withRows s (rows s ++ [map (userEntered e) values]))
                  ss
          with
          | Some ss' => (Ok tt, ss')
          | None => (Throw (ApiError 400), ss)
          end).

(** [batchUpdate] with [deleteDimension] of rows [i, i+1) of a tab. *)
Definition deleteDimension (e : env) (id : Z) (i : nat) : M unit :=
  send e (DeleteDimension id i)
       (fun ss =>
          match updateFirst (fun s => (sheetId s =? id)%Z)
                  (fun s => withRows s (removeAt i (rows s))) ss
          with
          | Some ss' => (Ok tt, ss')
          | None => (Throw (ApiError 400), ss)
          end).

(** ** The functions of the file

    Console lines are recorded by a short tag naming the statement that
    prints them. *)

(** An element of [dataList]: [{ company, product, count, ts }]. *)
Record item := {
  company : jsstring;
  product : jsstring;
  count : num;
  ts : jsstring
}.

(** [getSheetsClient()]: throws when the service-account key is missing or
    unusable.  A key that is not set is refused before the [try], and
    nothing is printed; what goes wrong with a key that is set happens
    inside the [try], whose [catch] prints the error and throws it again. *)
Definition getSheetsClient (e : env) : M unit :=
  match serviceAccountKey e with
  | KeyAbsent => throw CredentialError
  | KeyUnusable => log (Error CredentialError) ;; throw CredentialError
  | KeyUsable => log (Info (lit "authenticated"))
  end.

(** [ensureSheetExists(spreadsheetId, sheetName)] *)
Definition ensureSheetExists (e : env) (sheetName : jsstring) : M unit :=
  log (Info (lit "checking sheet")) ;;
  getSheetsClient e ;;
  catch
    (spreadsheet <- spreadsheets_get e ;;
     let sheetExists :=
       existsb (fun s => eqs (snd s) sheetName) spreadsheet in
     if negb sheetExists then
       log (Info (lit "creating tab")) ;;
       addSheet e sheetName ;;
       log (Info (lit "tab created")) ;;
       values_update_header e sheetName ;;
       log (Info (lit "header written"))
     else ret tt)
    (fun error =>
       log (Error error) ;;
       match error with
       | ApiError 403 => throw NoPermission
       | ApiError 404 => throw NotFound
       | _ => throw (SheetError error)
       end).

(** The row [appendData] writes for an item. *)
Definition rowValues (it : item) (now : jsstring) : list jsval :=
  [ VStr (company it); VStr (product it); VNum (count it);
    VStr (39%N :: ts it); VStr now ].

(** Body of the [for (const item of dataList)] loop of [appendData]. *)
Definition appendItem (e : env) (firstSheetName : jsstring) (it : item)
  : M unit :=
  now <- (fun w => (Ok (now e (length (calls w))), w)) ;;
  let row := rowValues it now in
  log (Info (lit "recording")) ;;
  catch
    (values_append e firstSheetName row ;;
     log (Info (lit "master row written")))
    (fun error => log (Warn error)) ;;
  catch
    (ensureSheetExists e (company it) ;;
     values_append e (company it) row ;;
     log (Info (lit "company row written")))
    (fun error => log (Error error) ;; throw error).

(** [appendData(spreadsheetId, dataList)] *)
Definition appendData (e : env) (dataList : list item) : M unit :=
  getSheetsClient e ;;
  catch
    (spreadsheet <- spreadsheets_get e ;;
     firstSheetName <-
       match spreadsheet with
       | s :: _ => ret (snd s)
       | [] => throw TypeError          (* sheets[0] is undefined *)
       end ;;
     log (Info (lit "master sheet found")) ;;
     forEach dataList (appendItem e firstSheetName))
    (fun error => log (Error error) ;; throw error).

(** [String(cell)] *)
Definition cellString (e : env) (c : cell) : jsstring :=
  match c with
  | CStr s => s
  | CNum n => numberToString e n
  | CBool true => lit "true"
  | CBool false => lit "false"
  end.

(** [String(cell).replace(/'/g, "").trim() === targetTs] *)
Definition cellMatches (e : env) (targetTs : jsstring) (c : cell) : bool :=
  eqs (trim (filter (fun ch => negb (N.eqb ch 39)) (cellString e c))) targetTs.

Fixpoint findIndex {A} (p : A -> bool) (l : list A) : option nat :=
  match l with
  | [] => None
  | x :: r =>
      if p x then Some O
      else match findIndex p r with
           | Some i => Some (S i)
           | None => None
           end
  end.

Definition cellTruthy (c : cell) : bool :=
  match c with
  | CStr s => truthy (VStr s)
  | CNum n => truthy (VNum n)
  | CBool b => b
  end.

(** [remarks && String(remarks).trim() !== ""] with
    [remarks = currentRow[5]] *)
Definition isProtected (e : env) (currentRow : list cell) : bool :=
  match nth_error currentRow 5 with
  | Some remarks =>
      cellTruthy remarks && negb (eqs (trim (cellString e remarks)) [])
  | None => false
  end.

(** The loop [for (let i = rows.length - 1; i >= 0; i--)] of [deleteData],
    entered with [n = rows.length]: indices [n-1] down to [0] of the rows
    read at the start. *)
Fixpoint scanRows (e : env) (targetTs : jsstring) (id : Z)
         (rows : list (list cell)) (n : nat) : M unit :=
  match n with
  | O => ret tt
  | S i =>
      let currentRow := nth i rows [] in
      match findIndex (cellMatches e targetTs) currentRow with
      | Some matchIndex =>
          if isProtected e currentRow then
            log (Info (lit "protected row skipped")) ;;
            scanRows e targetTs id rows i
          else
            log (Info (lit "row found")) ;;
            deleteDimension e id i ;;
            scanRows e targetTs id rows i
      | None => scanRows e targetTs id rows i
      end
  end.

(** [deleteData(spreadsheetId, ts)] *)
Definition deleteData (e : env) (ts : jsstring) : M unit :=
  getSheetsClient e ;;
  spreadsheet <- spreadsheets_get e ;;
  log (Info (lit "delete search")) ;;
  let targetTs := trim ts in
  forEach spreadsheet
    (fun sheet =>
       response <- values_get e (snd sheet) ;;
       match response with
       | None => ret tt
       | Some rows => scanRows e targetTs (fst sheet) rows (length rows)
       end).

(** [updateData(spreadsheetId, ts, newDataList)] *)
Definition updateData (e : env) (ts : jsstring) (newDataList : list item)
  : M unit :=
  log (Info (lit "update request")) ;;
  deleteData e ts ;;
  appendData e newDataList.

End GoogleSheets.

(* ================================================================== *)
(** * config-manager.js *)
(* ================================================================== *)

Module ConfigManager.
Import JS.

(** The state is the settings file [config.json] (absent, or its text) and
    the console. The file system and the JSON codec are fields of the
    environment: whether an existing file can be read and written, what
    [JSON.parse] makes of a text, and the text [JSON.stringify(_, null, 2)]
    gives for an object. A write that fails is taken to fail on opening the
    file, which leaves the file as it was. *)

Inductive error :=
| ReadError            (* fs.readFileSync *)
| WriteError           (* fs.writeFileSync *)
| SyntaxError          (* JSON.parse *)
| TypeError.

Inductive logline :=
| LogError (e : error)
| LogInfo (line : jsstring).

Record world := {
  file : option jsstring;
  console : list logline
}.

Record env := {
  readable : bool;
  writable : bool;
  (** [JSON.parse]; [None] is its SyntaxError. *)
  JSON_parse : jsstring -> option jsval;
  JSON_stringify : list (jsstring * jsval) -> jsstring;
  (** [String(n)] for a number. *)
  numberToString : num -> jsstring
}.

Definition say (l : logline) (w : world) : world :=
  {| file := file w; console := console w ++ [l] |}.

(** [getConfig()] *)
Definition getConfig (e : env) (w : world) : jsval * world :=
  match file w with
  | Some data =>
      if readable e then
        match JSON_parse e data with
        | Some v => (v, w)
        | None => (VObj [], say (LogError SyntaxError) w)
        end
      else (VObj [], say (LogError ReadError) w)
  | None => (VObj [], w)
  end.

(** The number a run of decimal digits denotes, if [s] is one. *)
Fixpoint decimalValue (s : jsstring) (acc : N) : option N :=
  match s with
  | [] => Some acc
  | c :: r =>
      if (N.leb 48 c && N.leb c 57)%bool
      then decimalValue r (10 * acc + (c - 48))%N
      else None
  end.

(** A key that is an array index: the canonical numeral, without leading
    zero, of an integer from 0 to [2^32 - 2]. *)
Definition arrayIndex (k : jsstring) : option N :=
  match k with
  | [] => None
  | [48%N] => Some 0%N
  | 48%N :: _ => None
  | _ =>
      match decimalValue k 0 with
      | Some n => if (n <? 4294967295)%N then Some n else None
      | None => None
      end
  end.

(** The order of the own properties of an object: array indices first, in
    ascending order, then the other keys in the order in which they were
    added.  [precedes k k'] says that a new key [k] goes in front of a
    present key [k']. *)
Definition precedes (k k' : jsstring) : bool :=
  match arrayIndex k, arrayIndex k' with
  | Some i, Some j => (i <? j)%N
  | Some _, None => true
  | None, _ => false
  end.

Fixpoint insertKey (k : jsstring) (v : jsval) (props : list (jsstring * jsval))
  : list (jsstring * jsval) :=
  match props with
  | [] => [(k, v)]
  | (k', v') :: r =>
      if precedes k k' then (k, v) :: props else (k', v') :: insertKey k v r
  end.

(** Defining a property on an object under construction: a key already
    there keeps its place and takes the new value, a new key takes its
    place in the order of own properties. *)
Definition defineProp (k : jsstring) (v : jsval)
           (props : list (jsstring * jsval)) : list (jsstring * jsval) :=
  match lookup k props with
  | Some _ => setProp k v props
  | None => insertKey k v props
  end.

Definition assign (props : list (jsstring * jsval)) (kv : jsstring * jsval)
  : list (jsstring * jsval) :=
  defineProp (fst kv) (snd kv) props.

(** The object literal [{ ...a, ...b }]. *)
Definition merge (a b : jsval) : list (jsstring * jsval) :=
  fold_left assign (spread a ++ spread b) [].

(** [saveConfig(newConfig)] *)
Definition saveConfig (e : env) (newConfig : jsval) (w : world)
  : bool * world :=
  let '(currentConfig, w1) := getConfig e w in
  let mergedConfig := merge currentConfig newConfig in
  if writable e then
    (true,
     say (LogInfo (lit "saved"))
         {| file := Some (JSON_stringify e mergedConfig);
            console := console w1 |})
  else (false, say (LogError WriteError) w1).

(** [String(v)]. An array is its elements joined by commas, [null] and
    [undefined] elements counting as empty; an object is
    [[object Object]], unless an own property named [toString] hides the
    inherited method, and then the conversion is a TypeError ([None]). *)
Fixpoint toString (ns : num -> jsstring) (v : jsval) : option jsstring :=
  match v with
  | VUndefined => Some (lit "undefined")
  | VNull => Some (lit "null")
  | VBool true => Some (lit "true")
  | VBool false => Some (lit "false")
  | VNum n => Some (ns n)
  | VStr s => Some s
  | VArr items =>
      (fix join (l : list jsval) : option jsstring :=
         match l with
         | [] => Some []
         | x :: r =>
             match
               match x with
               | VUndefined | VNull => Some []
               | _ => toString ns x
               end, join r
             with
             | Some a, Some b =>
                 Some (match r with [] => a | _ :: _ => a ++ 44%N :: b end)
             | _, _ => None
             end
         end) items
  | VObj props =>
      match lookup (lit "toString") props with
      | Some _ => None
      | None => Some (lit "[object Object]")
      end
  end.

Definition requiredFields : list jsstring :=
  [ lit "SLACK_SIGNING_SECRET";
    lit "SLACK_BOT_TOKEN";
    lit "GOOGLE_SERVICE_ACCOUNT_KEY";
    lit "GEMINI_API_KEY";
    lit "SELECTED_SHEET_ID" ].

(** [config[field]], for a [field] that is neither an index, nor [length],
    nor the name of an inherited property; the five required fields are
    such. *)
Definition getField (config : jsval) (field : jsstring)
  : outcome error jsval :=
  match config with
  | VUndefined | VNull => Throw TypeError
  | VObj props =>
      Ok (match lookup field props with Some v => v | None => VUndefined end)
  | _ => Ok VUndefined
  end.

(** [config[field] && String(config[field]).trim() !== ''], as a
    condition. *)
Definition fieldSet (e : env) (config : jsval) (field : jsstring)
  : outcome error bool :=
  match getField config field with
  | Throw err => Throw err
  | Ok v =>
      if truthy v then
        match toString (numberToString e) v with
        | Some s => Ok (negb (eqs (trim s) []))
        | None => Throw TypeError
        end
      else Ok false
  end.

(** [Array.prototype.every] with a callback that may throw. *)
Fixpoint every {A} (p : A -> outcome error bool) (l : list A)
  : outcome error bool :=
  match l with
  | [] => Ok true
  | x :: r =>
      match p x with
      | Ok true => every p r
      | Ok false => Ok false
      | Throw err => Throw err
      end
  end.

(** [isConfigured()] *)
Definition isConfigured (e : env) (w : world) : outcome error bool * world :=
  let '(config, w1) := getConfig e w in
  (every (fieldSet e config) requiredFields, w1).

End ConfigManager.

(* ================================================================== *)
(** * Vocabulary of the statements *)
(* ================================================================== *)

Module Vocabulary.
Import JS AiParser.

(** The code units of [s] up to its first white space. *)
Fixpoint takeToken (s : jsstring) : jsstring :=
  match s with
  | [] => []
  | c :: r => if isWhiteSpace c then [] else c :: takeToken r
  end.

(** First white-space-separated token of a text. *)
Definition firstToken (text : jsstring) : jsstring := takeToken (trimStart text).

(** The token sequence [p1 c1 p2 c2 ...] of a list of (product, count)
    pairs. *)
Fixpoint flatten (pairs : list (jsstring * jsstring)) : list jsstring :=
  match pairs with
  | [] => []
  | (p, c) :: r => p :: c :: flatten r
  end.

(** Tokens written one after the other with a single space between. *)
Fixpoint joinTokens (toks : list jsstring) : jsstring :=
  match toks with
  | [] => []
  | [t] => t
  | t :: r => t ++ 32%N :: joinTokens r
  end.

(** A token: at least one code unit and no white space. *)
Definition isToken (t : jsstring) : Prop :=
  t <> [] /\ forallb (fun c => negb (isWhiteSpace c)) t = true.

(** The integer a sequence of decimal digits denotes. *)
Definition digitsValue (ds : list nat) : Z :=
  fold_left (fun a d => (10 * a + Z.of_nat d)%Z) ds 0%Z.

Definition digitChar (d : nat) : N := (48 + N.of_nat d)%N.

(** [tok] is the decimal literal of [z]: an optional sign and one or more
    decimal digits. *)
Definition isIntLiteral (tok : jsstring) (z : Z) : Prop :=
  exists ds,
    ds <> [] /\ Forall (fun d => (d < 10)%nat) ds /\
    ((tok = map digitChar ds /\ z = digitsValue ds) \/
     (tok = 43%N :: map digitChar ds /\ z = digitsValue ds) \/
     (tok = 45%N :: map digitChar ds /\ z = (- digitsValue ds)%Z)).

(** The order line [fastParse] makes of a (product, count) pair of
    tokens. *)
Definition lineFor (comp : jsstring) (pc : jsstring * jsstring) : OrderLine :=
  {| company := comp;
     product := normalizeProduct (fst pc);
     count := parseInt (snd pc);
     ts := None |}.

(** A well-formed order of a message: a product token, a count token and
    the integer the count token is the literal of. *)
Definition order : Type := jsstring * jsstring * Z.

Definition orderTokens (o : order) : jsstring * jsstring := fst o.

Definition wellFormedOrder (o : order) : Prop :=
  isToken (fst (fst o)) /\ isIntLiteral (snd (fst o)) (snd o) /\
  (Z.abs (snd o) < 2 ^ 53)%Z.

(** The well-formed message "company (product count)+". *)
Definition orderMessage (comp : jsstring) (orders : list order) : jsstring :=
  joinTokens (comp :: flatten (map orderTokens orders)).

(** The order line expected for an order. *)
Definition orderLine (comp : jsstring) (o : order) : OrderLine :=
  {| company := comp;
     product := normalizeProduct (fst (fst o));
     count := Int (snd o);
     ts := None |}.

(** An order whose count token is the decimal literal of an integer of
    any size. *)
Definition literalOrder (o : order) : Prop :=
  isToken (fst (fst o)) /\ isIntLiteral (snd (fst o)) (snd o).

(** The object [parseMessage] hands on for a (product, count) pair of
    tokens of a message of company [comp]. *)
Definition orderObject (comp : jsstring) (pc : jsstring * jsstring) : jsval :=
  VObj [ (lit "company", VStr comp);
         (lit "product", VStr (normalizeProduct (fst pc)));
         (lit "count", VNum (parseInt (snd pc)));
         (lit "ts", VNull) ].

(** The object expected for an order: its count is the integer the count
    token is the literal of. *)
Definition expectedObject (comp : jsstring) (o : order) : jsval :=
  VObj [ (lit "company", VStr comp);
         (lit "product", VStr (normalizeProduct (fst (fst o))));
         (lit "count", VNum (Int (snd o)));
         (lit "ts", VNull) ].



(** The digits of 9007199254740993, which is [2^53 + 1]. *)
Definition bigDigits : list nat :=
  [9; 0; 0; 7; 1; 9; 9; 2; 5; 4; 7; 4; 0; 9; 9; 3]%nat.

Definition bigOrder : order :=
  (lit "big", map digitChar bigDigits, 9007199254740993%Z).

(** The extraction service's answer cannot be decoded into a list of
    items: the call fails, the text is not JSON, the JSON is not an array,
    or an element of the array cannot be mapped. *)
Definition decodingFails (e : env) (text : jsstring) : Prop :=
  generateContent e text = None \/
  exists raw,
    generateContent e text = Some raw /\
    (JSON_parse e (trim (stripFences raw 0)) = None \/
     (exists v, JSON_parse e (trim (stripFences raw 0)) = Some v /\
                forall items, v <> VArr items) \/
     (exists items, JSON_parse e (trim (stripFences raw 0)) = Some (VArr items) /\
                    mapItems items = None)).

(** The settings have no usable key for the extraction service: the
    property is absent or falsy. *)
Definition keyMissing (e : env) : Prop :=
  exists key, GEMINI_API_KEY e = Ok key /\ truthy key = false.

(** The settings hold a key for the extraction service. *)
Definition keyConfigured (e : env) : Prop :=
  exists key, GEMINI_API_KEY e = Ok key /\ truthy key = true.

(** An item of a parse result carries a strictly positive integer count. *)
Definition positiveCount (v : jsval) : Prop :=
  exists props z,
    v = VObj props /\
    lookup (lit "count") props = Some (VNum (Int z)) /\ (0 < z)%Z.

(** A count as [parseInt] can produce it when it does not fail. *)
Definition integralCount (n : num) : Prop :=
  (exists z, n = Int z) \/ (exists b, n = Inf b).

(** A configuration without a key for the extraction service. *)
Definition envNoKey : env :=
  {| config := VObj [];
     generateContent := fun _ => None;
     JSON_parse := fun _ => None |}.

(** Settings that are the JSON value [null]. *)
Definition envNullSettings : env :=
  {| config := VNull;
     generateContent := fun _ => None;
     JSON_parse := fun _ => None |}.

(** A configured service that answers with prose, which [JSON.parse]
    rejects. *)
Definition envProse : env :=
  {| config := VObj [(lit "GEMINI_API_KEY", VStr (lit "key"))];
     generateContent := fun _ => Some (lit "Sorry, no orders found.");
     JSON_parse := fun _ => None |}.

End Vocabulary.

Module SlackVocabulary.
Import JS SlackHandler.

(** [n] pairwise distinct identities. *)
Definition distinctIds (n : nat) : list jsstring :=
  map (fun i => [N.of_nat i]) (seq 0 n).

(** A message event with an identity and no emission time. *)
Definition eventWith (id : jsstring) : option body :=
  Some {| event_id := Some id; event_time := None |}.

End SlackVocabulary.

Module SheetVocabulary.
Import JS GoogleSheets.

(** The row has a cell, in any column, that reads as the timestamp. *)
Definition rowMatches (e : env) (ts : jsstring) (row : list cell) : bool :=
  existsb (cellMatches e (trim ts)) row.

(** The rows [deleteData] removes. *)
Definition deletable (e : env) (ts : jsstring) (row : list cell) : bool :=
  rowMatches e ts row && negb (isProtected e row).

(** The spreadsheet with every deletable row of every tab taken out. *)
Definition afterDelete (e : env) (ts : jsstring) (ss : list sheet)
  : list sheet :=
  map (fun s => withRows s (filter (fun r => negb (deletable e ts r)) (rows s)))
      ss.

(** Tabs of a spreadsheet have distinct identifiers and distinct titles. *)
Definition wfStore (ss : list sheet) : Prop :=
  NoDup (map sheetId ss) /\ NoDup (map title ss).

(** The back end serves every well-formed request. *)
Definition faultFree (e : env) : Prop :=
  forall ss cs r, fault e ss cs r = None.


(** Two worlds with the same spreadsheet and the same request history;
    their consoles may differ. *)
Definition sameStore (w1 w2 : world) : Prop :=
  sheets w1 = sheets w2 /\ calls w1 = calls w2.

(** A computation whose outcome and effect on the spreadsheet do not
    depend on what the console holds. *)
Definition consoleBlind {A} (m : M A) : Prop :=
  forall w1 w2,
    sameStore w1 w2 ->
    fst (m w1) = fst (m w2) /\ sameStore (snd (m w1)) (snd (m w2)).

(** The composition the specification gives for an edit. *)
Definition deleteThenAppend (e : env) (ts : jsstring) (newLines : list item)
  : M unit :=
  bind (deleteData e ts) (fun _ => appendData e newLines).

(** [s'] is the tab [s] with rows added below. *)
Definition extendsSheet (s s' : sheet) : Prop :=
  sheetId s' = sheetId s /\ title s' = title s /\
  exists extra, rows s' = rows s ++ extra.

(** [ss'] has every tab of [ss], in place and possibly longer, and
    possibly new tabs after them. *)
Definition extendsStore (ss ss' : list sheet) : Prop :=
  exists old new, ss' = old ++ new /\ Forall2 extendsSheet ss old.

(** A computation that only adds rows below the existing ones, or new
    tabs. *)
Definition extending {A} (m : M A) : Prop :=
  forall w, extendsStore (sheets w) (sheets (snd (m w))).

(** A computation that only adds lines to the console. *)
Definition printing {A} (m : M A) : Prop :=
  forall w, exists more, console (snd (m w)) = console w ++ more.

(** A back end without faults, writing what it is given as text or
    number. *)
Definition plainCell (v : jsval) : cell :=
  match v with
  | VStr (39%N :: r) => CStr r
  | VStr str => CStr str
  | VNum n => CNum n
  | VBool b => CBool b
  | _ => CStr []
  end.

(** Decimal text of the integers; the sample spreadsheets below hold no
    other number. *)
Definition plainNumber (n : num) : jsstring :=
  match n with
  | Int (Zpos p) => uintChars (N.to_uint (Npos p))
  | Int Z0 => lit "0"
  | Int (Zneg p) => 45%N :: uintChars (N.to_uint (Npos p))
  | NaN => lit "NaN"
  | Inf false => lit "Infinity"
  | Inf true => lit "-Infinity"
  | Frac _ _ => lit "fraction"
  end.

Definition envPlain : env :=
  {| serviceAccountKey := KeyUsable;
     fault := fun _ _ _ => None;
     freshSheetId := fun ss => Z.of_nat (length ss);
     userEntered := plainCell;
     now := fun _ => lit "2024. 1. 1.";
     numberToString := plainNumber |}.

(** The two [try] bodies of the loop of [appendData], and the body of its
    outer [try]. *)
Definition masterWrite (e : env) (first : jsstring) (row : list jsval)
  : M unit :=
  bind (values_append e first row)
       (fun _ => log (Info (lit "master row written"))).

Definition companyWrite (e : env) (it : item) (row : list jsval) : M unit :=
  bind (ensureSheetExists e (company it))
       (fun _ => bind (values_append e (company it) row)
                      (fun _ => log (Info (lit "company row written")))).

Definition appendLoop (e : env) (first : jsstring) (dataList : list item)
  : M unit :=
  forEach dataList (appendItem e first).

Definition appendBody (e : env) (dataList : list item) : M unit :=
  bind (spreadsheets_get e)
       (fun spreadsheet =>
          bind (match spreadsheet with
                | s :: _ => ret (snd s)
                | [] => throw TypeError
                end)
               (fun first =>
                  bind (log (Info (lit "master sheet found")))
                       (fun _ => appendLoop e first dataList))).

(** The world once the line "recording" is printed. *)
Definition recording (w : world) : world :=
  snd (log (Info (lit "recording")) w).

Definition logged (l : logline) (w : world) : world := snd (log l w).

(** Sample data. *)
Definition TS1 : jsstring := lit "1700000000.000100".
Definition TS2 : jsstring := lit "1700000555.000200".

Definition sampleRow (comp prod : jsstring) (n : Z) (stamp : jsstring)
  : list cell :=
  [CStr comp; CStr prod; CNum (Int n); CStr stamp; CStr (lit "2024. 1. 1.")].

Definition sampleStore : list sheet :=
  [ {| sheetId := 0; title := lit "orders";
       rows := [ HEADER;
                 sampleRow (lit "acme") (lit "big") 3 TS1;
                 sampleRow (lit "acme") (lit "blue") 2 TS1
                   ++ [CStr (lit "checked by hand")];
                 sampleRow (lit "zenith") (lit "big") 1 TS2 ] |};
    {| sheetId := 7; title := lit "acme";
       rows := [ HEADER;
                 sampleRow (lit "acme") (lit "big") 3 TS1;
                 sampleRow (lit "acme") (lit "blue") 2 TS1
                   ++ [CStr (lit "checked by hand")] ] |} ].

Definition sampleWorld : world :=
  {| sheets := sampleStore; calls := []; console := [] |}.



Definition sampleItem : item :=
  {| company := lit "acme"; product := lit "green"; count := Int 4;
     ts := TS1 |}.

(** Back ends that reject every append to one tab. *)
Definition rejectAppendsTo (name : jsstring) : env :=
  {| serviceAccountKey := KeyUsable;
     fault := fun _ _ r =>
                match r with
                | ValuesAppend n _ => if eqs n name then Some 503%Z else None
                | _ => None
                end;
     freshSheetId := fun ss => Z.of_nat (length ss);
     userEntered := plainCell;
     now := fun _ => lit "2024. 1. 1.";
     numberToString := plainNumber |}.

End SheetVocabulary.

(* ================================================================== *)
(** * Vocabulary of the further properties *)
(* ================================================================== *)

Module ParserTerms.
Import JS AiParser Vocabulary.

(** Only white space. *)
Definition allWs (s : jsstring) : bool := forallb isWhiteSpace s.

(** The last code unit, if any, is not white space. *)
Fixpoint endsClean (s : jsstring) : bool :=
  match s with
  | [] => true
  | [c] => negb (isWhiteSpace c)
  | _ :: r => endsClean r
  end.

(** Tokens, each written after a separator. *)
Fixpoint spaced (rest : list (jsstring * jsstring)) : jsstring :=
  match rest with
  | [] => []
  | (sep, tok) :: r => sep ++ tok ++ spaced r
  end.

(** A separator: one or more white-space code units. *)
Definition isSeparator (sep : jsstring) : Prop :=
  sep <> [] /\ allWs sep = true.

(** The canonical product names. *)
Definition productKeys : list jsstring := map fst mapping.

(** Number of calls to the extraction service in a trace. *)
Definition serviceCalls (evs : list event) : nat :=
  length (filter (fun ev => match ev with GenerateContent _ => true | _ => false end)
                 evs).

(** An element of the service's array that the mapping of [aiParse]
    cannot handle: [null], or an element whose product is truthy and not a
    string. *)
Definition badItem (item : jsval) : Prop :=
  item = VNull \/ item = VUndefined \/
  exists p, getProduct item = Some p /\ truthy p = true /\
            forall str, p <> VStr str.

Definition FENCE : jsstring := lit "```".
Definition FENCE_JSON : jsstring := lit "```json".

Definition noBacktick (s : jsstring) : bool :=
  forallb (fun c => negb (N.eqb c 96)) s.

(** A configured service whose answer is a fenced array with one order. *)
Definition envFenced : env :=
  {| config := VObj [(lit "GEMINI_API_KEY", VStr (lit "key"))];
     generateContent := fun _ => Some (lit "```json [1] ```");
     JSON_parse := fun _ =>
       Some (VArr [VObj [(lit "company", VStr (lit "acme"));
                         (lit "product", VStr (lit "big"));
                         (lit "count", VNum (Int 2))]]) |}.

(** A configured service one of whose two items has a number as product. *)
Definition envNumberProduct : env :=
  {| config := VObj [(lit "GEMINI_API_KEY", VStr (lit "key"))];
     generateContent := fun _ => Some (lit "[2]");
     JSON_parse := fun _ =>
       Some (VArr [VObj [(lit "company", VStr (lit "acme"));
                         (lit "product", VStr (lit "big"));
                         (lit "count", VNum (Int 2))];
                   VObj [(lit "company", VStr (lit "acme"));
                         (lit "product", VNum (Int 7));
                         (lit "count", VNum (Int 1))]]) |}.

End ParserTerms.

Module SlackTerms.
Import JS SlackHandler SlackVocabulary.

(** Message events, each with the time it is handled at. *)
Definition messageEvents (evs : list (Z * option body)) : list input :=
  map (fun p => MessageEvent (fst p) (snd p)) evs.

(** Message events that carry an identity and no emission time. *)
Definition identifiedEvents (evs : list (Z * jsstring)) : list input :=
  map (fun p => MessageEvent (fst p) (eventWith (snd p))) evs.

End SlackTerms.

Module SheetTerms.
Import JS GoogleSheets SheetVocabulary.

(** The spreadsheet once a tab of the given title is sure to exist: as it
    was, or with a new tab at the end that holds the header row. *)
Definition ensuredStore (e : env) (name : jsstring) (ss : list sheet)
  : list sheet :=
  if existsb (hasTitle name) ss then ss
  else ss ++ [ {| sheetId := freshSheetId e ss; title := name;
                  rows := [HEADER] |} ].

(** [l1] is [l2] with some elements left out. *)
Inductive subseq {A : Type} : list A -> list A -> Prop :=
| subseq_nil : subseq [] []
| subseq_skip (x : A) (l1 l2 : list A) : subseq l1 l2 -> subseq l1 (x :: l2)
| subseq_keep (x : A) (l1 l2 : list A) :
    subseq l1 l2 -> subseq (x :: l1) (x :: l2).

(** [s'] is the tab [s] with some of its deletable rows taken out, the
    others in place. *)
Definition prunedSheet (e : env) (ts : jsstring) (s s' : sheet) : Prop :=
  sheetId s' = sheetId s /\ title s' = title s /\
  subseq (filter (fun r => negb (deletable e ts r)) (rows s)) (rows s') /\
  subseq (rows s') (rows s).

(** The cells stored for an item written when [n] requests had been
    sent. *)
Definition writtenCells (e : env) (it : item) (n : nat) : list cell :=
  map (userEntered e) (rowValues it (now e n)).

(** One more row at the end of the first tab of the given title. *)
Definition appendRowTo (name : jsstring) (cells : list cell) (ss : list sheet)
  : list sheet :=
  match updateFirst (hasTitle name) (fun s => withRows s (rows s ++ [cells])) ss
  with
  | Some ss' => ss'
  | None => ss
  end.

(** What one item adds, on a back end that serves every request: a row in
    the master tab, the company's tab if it is missing, and the same row in
    the company's tab.  The second component counts the requests sent. *)
Definition appendItemTo (e : env) (first : jsstring)
           (acc : list sheet * nat) (it : item) : list sheet * nat :=
  let cells := writtenCells e it (snd acc) in
  let ss1 := appendRowTo first cells (fst acc) in
  let ss2 := ensuredStore e (company it) ss1 in
  (appendRowTo (company it) cells ss2,
   (snd acc + (if existsb (hasTitle (company it)) ss1 then 3 else 5))%nat).

Definition appendAll (e : env) (first : jsstring) (items : list item)
           (acc : list sheet * nat) : list sheet * nat :=
  fold_left (appendItemTo e first) items acc.

(** Number of rows in all the tabs together. *)
Definition totalRows (ss : list sheet) : nat :=
  fold_right (fun s n => (length (rows s) + n)%nat) 0%nat ss.

(** The back end never reuses the identifier of an existing tab. *)
Definition freshIds (e : env) : Prop :=
  forall ss, ~ In (freshSheetId e ss) (map sheetId ss).

(** The back end stores a value entered with a leading apostrophe as the
    text after the apostrophe. *)
Definition keepsQuotedText (e : env) : Prop :=
  forall str, userEntered e (VStr (39%N :: str)) = CStr str.

(** A tab that holds at most the header row, and no header row that
    reads as the timestamp. *)
Definition headerOnly (e : env) (ts : jsstring) (s : sheet) : Prop :=
  rows s = filter (fun r => negb (deletable e ts r)) [HEADER].

Definition noApostrophe (s : jsstring) : bool :=
  forallb (fun ch => negb (N.eqb ch 39)) s.

(** A back end without faults that numbers new tabs after the largest
    identifier in use. *)
Definition envFresh : env :=
  {| serviceAccountKey := KeyUsable;
     fault := fun _ _ _ => None;
     freshSheetId := fun ss => (1 + fold_right Z.max 0 (map sheetId ss))%Z;
     userEntered := plainCell;
     now := fun _ => lit "2024. 1. 1.";
     numberToString := plainNumber |}.



(** A back end that refuses every request with the given status. *)
Definition envRefusing (code : Z) : env :=
  {| serviceAccountKey := KeyUsable;
     fault := fun _ _ _ => Some code;
     freshSheetId := fun ss => Z.of_nat (length ss);
     userEntered := plainCell;
     now := fun _ => lit "2024. 1. 1.";
     numberToString := plainNumber |}.

Definition zenithItem : item :=
  {| company := lit "zenith"; product := lit "blue"; count := Int 5;
     ts := TS2 |}.

End SheetTerms.

Module ConfigTerms.
Import JS ConfigManager.

(** The value that the last entry for [k] in a list of entries gives; for
    the properties of an object, whose keys are distinct, the value of
    [k]. *)
Definition lastValue (k : jsstring) (props : list (jsstring * jsval))
  : option jsval :=
  lookup k (rev props).

(** The keys of an object, in property order. *)
Definition keys (props : list (jsstring * jsval)) : list jsstring :=
  map fst props.

(** Keys in the order of own properties: none goes in front of one that
    comes before it. *)
Fixpoint ordered (ks : list jsstring) : Prop :=
  match ks with
  | [] => True
  | k :: r => (forall k', In k' r -> precedes k' k = false) /\ ordered r
  end.

(** The codec gives back the object it wrote. *)
Definition roundTrips (e : env) (props : list (jsstring * jsval)) : Prop :=
  JSON_parse e (JSON_stringify e props) = Some (VObj props).

(** Only white space. *)
Definition blank (s : jsstring) : bool := forallb isWhiteSpace s.

(** The settings file cannot be used: it is absent, cannot be read, or is
    not JSON. *)
Definition unusable (e : env) (w : world) : Prop :=
  match file w with
  | None => True
  | Some data => readable e = false \/ JSON_parse e data = None
  end.

Definition isObject (v : jsval) : bool :=
  match v with VObj _ => true | _ => false end.

(** A stand-in for the JSON codec that is enough for flat settings with
    text values: one [key=value] line per property. *)
Fixpoint writeLines (props : list (jsstring * jsval)) : jsstring :=
  match props with
  | [] => []
  | (k, VStr v) :: r => k ++ 61%N :: v ++ 10%N :: writeLines r
  | (k, _) :: r => k ++ 61%N :: 10%N :: writeLines r
  end.

Fixpoint readLines (s : jsstring) (key : option jsstring) (buf : jsstring)
         (acc : list (jsstring * jsval)) : list (jsstring * jsval) :=
  match s with
  | [] => acc
  | c :: r =>
      if N.eqb c 10 then
        match key with
        | Some k => readLines r None [] (acc ++ [(k, VStr buf)])
        | None => readLines r None [] acc
        end
      else
        match key with
        | None =>
            if N.eqb c 61 then readLines r (Some buf) [] acc
            else readLines r key (buf ++ [c]) acc
        | Some _ => readLines r key (buf ++ [c]) acc
        end
  end.

Definition envLines : env :=
  {| readable := true;
     writable := true;
     JSON_parse := fun s =>
       if eqs s (lit "null") then Some VNull
       else if eqs s (lit "oops") then None
       else Some (VObj (readLines s None [] []));
     JSON_stringify := writeLines;
     numberToString := fun _ => lit "0" |}.

Definition fullProps : list (jsstring * jsval) :=
  [ (lit "SLACK_SIGNING_SECRET", VStr (lit "s3cret"));
    (lit "SLACK_BOT_TOKEN", VStr (lit "xoxb-1"));
    (lit "GOOGLE_SERVICE_ACCOUNT_KEY", VStr (lit "{}"));
    (lit "GEMINI_API_KEY", VStr (lit "k"));
    (lit "SELECTED_SHEET_ID", VStr (lit "sheet-1")) ].

Definition fullSettings : jsval := VObj fullProps.

Definition fullWorld : world :=
  {| file := Some (writeLines fullProps); console := [] |}.

Definition partialWorld : world :=
  {| file := Some (writeLines [ (lit "GEMINI_API_KEY", VStr (lit "old"));
                                (lit "PORT", VStr (lit "3000")) ]);
     console := [] |}.

Definition nullWorld : world :=
  {| file := Some (lit "null"); console := [] |}.

Definition corruptWorld : world :=
  {| file := Some (lit "oops"); console := [] |}.

End ConfigTerms.

(* ================================================================== *)
(** * Facts about the built-ins *)
(* ================================================================== *)

Module JSFacts.
Import JS Vocabulary.

Lemma eqs_eq (a b : jsstring) : eqs a b = true <-> a = b.
Proof.
  revert b; induction a as [|x a IH]; intros [|y b]; simpl;
    try (split; [discriminate | discriminate]); try tauto.
  rewrite andb_true_iff, N.eqb_eq, IH.
  split; [intros [-> ->]; reflexivity | intros H; inversion H; auto].
Qed.

Lemma eqs_refl (a : jsstring) : eqs a a = true.
Proof. apply eqs_eq; reflexivity. Qed.

Lemma eqs_neq (a b : jsstring) : eqs a b = false <-> a <> b.
Proof.
  destruct (eqs a b) eqn:E.
  - apply eqs_eq in E. split; [discriminate | congruence].
  - split; [intros _ H; apply eqs_eq in H; congruence | reflexivity].
Qed.

(** Every list splits two elements at a time. *)
Lemma pair_induction {A} (P : list A -> Prop) :
  P [] -> (forall x, P [x]) -> (forall x y l, P l -> P (x :: y :: l)) ->
  forall l, P l.
Proof.
  intros H0 H1 H2.
  assert (H : forall l, P l /\ forall x, P (x :: l)).
  { induction l as [|y l [IHa IHb]]; split; auto. }
  intro l; apply H.
Qed.

Lemma trimStart_no_leading_ws (s : jsstring) :
  match trimStart s with
  | [] => True
  | c :: _ => isWhiteSpace c = false
  end.
Proof.
  induction s as [|c r IH]; simpl; [exact I|].
  destruct (isWhiteSpace c) eqn:E; [exact IH | exact E].
Qed.

Lemma takeToken_trimEnd (s : jsstring) : takeToken (trimEnd s) = takeToken s.
Proof.
  induction s as [|c r IH]; simpl; [reflexivity|].
  destruct (trimEnd r) as [|d r'] eqn:Er.
  - destruct (isWhiteSpace c) eqn:Ec; simpl; [reflexivity|].
    rewrite Ec. simpl in IH. rewrite <- IH. reflexivity.
  - simpl. destruct (isWhiteSpace c); [reflexivity|].
    rewrite <- IH. reflexivity.
Qed.

(** The first piece of a split is the text up to the first white space. *)
Lemma split_ws_head (s : jsstring) :
  exists ts, split_ws s = takeToken s :: ts.
Proof.
  induction s as [|c r [ts IH]]; simpl; [eexists; reflexivity|].
  destruct (isWhiteSpace c) eqn:Ec.
  - destruct r as [|c' r']; [eexists; reflexivity|].
    destruct (isWhiteSpace c') eqn:Ec'; [|eexists; reflexivity].
    rewrite IH. simpl. rewrite Ec'. eexists; reflexivity.
  - rewrite IH. eexists; reflexivity.
Qed.

Lemma split_trim_head (text : jsstring) :
  exists ts, split_ws (trim text) = firstToken text :: ts.
Proof.
  unfold trim, firstToken.
  destruct (split_ws_head (trimEnd (trimStart text))) as [ts H].
  exists ts. rewrite H, takeToken_trimEnd. reflexivity.
Qed.

Lemma roundToDouble_exact (z : Z) :
  (Z.abs z < 2 ^ 53)%Z -> roundToDouble z = Int z.
Proof.
  intro H. unfold roundToDouble.
  destruct (Z.ltb_spec (Z.abs z) (2 ^ 53)); [reflexivity | lia].
Qed.

Lemma roundToDouble_not_NaN (z : Z) : isNaN (roundToDouble z) = false.
Proof.
  unfold roundToDouble.
  destruct (Z.abs z <? 2 ^ 53)%Z; [reflexivity|].
  cbv zeta.
  match goal with |- context [if ?b then Inf _ else _] => destruct b end;
    reflexivity.
Qed.

Lemma roundToDouble_integral (z : Z) :
  (exists v, roundToDouble z = Int v) \/ (exists b, roundToDouble z = Inf b).
Proof.
  unfold roundToDouble.
  destruct (Z.abs z <? 2 ^ 53)%Z; [left; eexists; reflexivity|].
  cbv zeta.
  match goal with |- context [if ?b then Inf _ else _] => destruct b end;
    [right | left]; eexists; reflexivity.
Qed.

(** [parseInt] yields NaN, an integer or an infinity, never a fraction. *)
Lemma parseInt_cases (s : jsstring) :
  parseInt s = NaN \/ (exists v, parseInt s = Int v) \/
  (exists b, parseInt s = Inf b).
Proof.
  unfold parseInt.
  destruct (splitSign (trimStart s)) as [sign s2].
  destruct (splitRadix s2) as [radix s3].
  destruct (readDigits radix s3 None) as [v|]; [right | left; reflexivity].
  apply roundToDouble_integral.
Qed.

Lemma digitVal_digitChar (d : nat) :
  (d < 10)%nat -> digitVal 10 (digitChar d) = Some (Z.of_nat d).
Proof.
  intro H. unfold digitChar.
  do 10 (destruct d as [|d]; [reflexivity|]). lia.
Qed.

Lemma readDigits_digits (ds : list nat) (a : Z) :
  Forall (fun d => (d < 10)%nat) ds ->
  readDigits 10 (map digitChar ds) (Some a) =
  Some (fold_left (fun a d => (10 * a + Z.of_nat d)%Z) ds a).
Proof.
  intro H; revert a; induction H as [|d ds Hd _ IH]; intro a; simpl;
    [reflexivity|].
  rewrite (digitVal_digitChar d Hd). apply IH.
Qed.

Lemma readDigits_literal (ds : list nat) :
  ds <> [] -> Forall (fun d => (d < 10)%nat) ds ->
  readDigits 10 (map digitChar ds) None = Some (digitsValue ds).
Proof.
  intros Hne H. destruct ds as [|d ds]; [congruence|].
  inversion H as [|? ? Hd Hds]; subst. simpl.
  rewrite (digitVal_digitChar d Hd).
  rewrite (readDigits_digits ds _ Hds). reflexivity.
Qed.

Lemma digitChar_not_ws (d : nat) :
  (d < 10)%nat -> isWhiteSpace (digitChar d) = false.
Proof. intro H. do 10 (destruct d as [|d]; [reflexivity|]). lia. Qed.

Lemma splitSign_digit (d : nat) (r : jsstring) :
  (d < 10)%nat -> splitSign (digitChar d :: r) = (1%Z, digitChar d :: r).
Proof. intro H. do 10 (destruct d as [|d]; [reflexivity|]). lia. Qed.

Lemma splitRadix_digits (ds : list nat) :
  Forall (fun d => (d < 10)%nat) ds ->
  splitRadix (map digitChar ds) = (10%Z, map digitChar ds).
Proof.
  intro H. destruct ds as [|d1 ds]; [reflexivity|].
  inversion H as [|? ? H1 H']; subst.
  destruct d1 as [|d1].
  - destruct ds as [|d2 ds]; [reflexivity|].
    inversion H' as [|? ? H2 _]; subst.
    do 10 (destruct d2 as [|d2]; [reflexivity|]). lia.
  - do 9 (destruct d1 as [|d1]; [reflexivity|]). lia.
Qed.

Lemma parseInt_digits (sign : Z) (pre : jsstring) (ds : list nat) :
  ds <> [] -> Forall (fun d => (d < 10)%nat) ds ->
  splitSign (trimStart (pre ++ map digitChar ds)) = (sign, map digitChar ds) ->
  parseInt (pre ++ map digitChar ds) = roundToDouble (sign * digitsValue ds).
Proof.
  intros Hne H Hs. unfold parseInt. rewrite Hs.
  rewrite (splitRadix_digits ds H), (readDigits_literal ds Hne H).
  reflexivity.
Qed.

(** [parseInt] reads a decimal literal as the double nearest to the integer
    it denotes. *)
Lemma parseInt_literal (tok : jsstring) (z : Z) :
  isIntLiteral tok z -> parseInt tok = roundToDouble z.
Proof.
  intros (ds & Hne & H & Hcase).
  assert (Hd : exists d r, ds = d :: r /\ (d < 10)%nat).
  { destruct ds as [|d r]; [congruence|].
    inversion H; subst. eauto. }
  destruct Hd as (d & r & -> & Hd).
  destruct Hcase as [[-> ->] | [[-> ->] | [-> ->]]].
  - rewrite <- (Z.mul_1_l (digitsValue (d :: r))).
    apply (parseInt_digits 1 [] (d :: r)); auto.
    simpl. rewrite (digitChar_not_ws d Hd). apply splitSign_digit; auto.
  - rewrite <- (Z.mul_1_l (digitsValue (d :: r))).
    apply (parseInt_digits 1 [43%N] (d :: r)); auto.
  - replace (- digitsValue (d :: r))%Z with (-1 * digitsValue (d :: r))%Z by lia.
    apply (parseInt_digits (-1) [45%N] (d :: r)); auto.
Qed.

(** ** Splitting what was joined *)

Lemma split_ws_not_nil (s : jsstring) : split_ws s <> [].
Proof. destruct (split_ws_head s) as [ts H]. rewrite H. discriminate. Qed.

Lemma split_ws_token_app (t s : jsstring) :
  forallb (fun c => negb (isWhiteSpace c)) t = true ->
  split_ws (t ++ s) =
  match split_ws s with
  | h :: tl => (t ++ h) :: tl
  | [] => [t]
  end.
Proof.
  induction t as [|c t IH]; intro H.
  - simpl. destruct (split_ws s) eqn:E; [|reflexivity].
    exfalso. exact (split_ws_not_nil s E).
  - simpl in H. apply andb_true_iff in H. destruct H as [Hc Ht].
    apply negb_true_iff in Hc.
    change ((c :: t) ++ s) with (c :: (t ++ s)).
    cbn [split_ws]. rewrite Hc, (IH Ht).
    destruct (split_ws s); reflexivity.
Qed.

Lemma isToken_head (t : jsstring) :
  isToken t -> exists c r, t = c :: r /\ isWhiteSpace c = false.
Proof.
  intros [Hne Hws]. destruct t as [|c r]; [congruence|].
  simpl in Hws. apply andb_true_iff in Hws. destruct Hws as [Hc _].
  apply negb_true_iff in Hc. eauto.
Qed.

Lemma joinTokens_cons (t : jsstring) (r : list jsstring) :
  r <> [] -> joinTokens (t :: r) = t ++ 32%N :: joinTokens r.
Proof. destruct r; [congruence | reflexivity]. Qed.

Lemma joinTokens_head (toks : list jsstring) :
  toks <> [] -> Forall isToken toks ->
  exists c r, joinTokens toks = c :: r /\ isWhiteSpace c = false.
Proof.
  intros Hne H. destruct toks as [|t toks]; [congruence|].
  inversion H as [|? ? Ht _]; subst.
  destruct (isToken_head t Ht) as (c & r & -> & Hc).
  destruct toks as [|t' toks]; simpl; eauto.
Qed.

Lemma split_ws_join (toks : list jsstring) :
  toks <> [] -> Forall isToken toks -> split_ws (joinTokens toks) = toks.
Proof.
  induction toks as [|t toks IH]; intros Hne H; [congruence|].
  inversion H as [|? ? Ht Hts]; subst.
  destruct toks as [|t' toks].
  - simpl. rewrite <- (app_nil_r t) at 1.
    rewrite split_ws_token_app by apply Ht. simpl. rewrite app_nil_r.
    reflexivity.
  - rewrite joinTokens_cons by discriminate.
    rewrite split_ws_token_app by apply Ht.
    destruct (joinTokens_head (t' :: toks)) as (c & r & E & Hc);
      [discriminate | exact Hts |].
    assert (S : split_ws (32%N :: joinTokens (t' :: toks))
                = [] :: split_ws (joinTokens (t' :: toks))).
    { rewrite E. cbn [split_ws]. rewrite Hc. reflexivity. }
    rewrite S, app_nil_r, IH; [reflexivity | discriminate | exact Hts].
Qed.

Lemma trimStart_head (c : N) (r : jsstring) :
  isWhiteSpace c = false -> trimStart (c :: r) = c :: r.
Proof. intro H. simpl. rewrite H. reflexivity. Qed.

Lemma trimEnd_last (a : jsstring) (c : N) :
  isWhiteSpace c = false -> trimEnd (a ++ [c]) = a ++ [c].
Proof.
  intro H. induction a as [|x a IH]; simpl.
  - rewrite H. reflexivity.
  - rewrite IH. destruct (a ++ [c]) eqn:E; [|reflexivity].
    destruct a; discriminate E.
Qed.

Lemma isToken_last (t : jsstring) :
  isToken t -> exists a c, t = a ++ [c] /\ isWhiteSpace c = false.
Proof.
  intros [Hne Hws].
  destruct (exists_last Hne) as (a & c & ->).
  exists a, c. split; [reflexivity|].
  rewrite forallb_app in Hws. apply andb_true_iff in Hws.
  destruct Hws as [_ Hc]. simpl in Hc. rewrite andb_true_r in Hc.
  apply negb_true_iff in Hc. exact Hc.
Qed.

Lemma joinTokens_last (toks : list jsstring) :
  toks <> [] -> Forall isToken toks ->
  exists a c, joinTokens toks = a ++ [c] /\ isWhiteSpace c = false.
Proof.
  induction toks as [|t toks IH]; intros Hne H; [congruence|].
  inversion H as [|? ? Ht Hts]; subst.
  destruct toks as [|t' toks].
  - simpl. apply isToken_last, Ht.
  - rewrite joinTokens_cons by discriminate.
    destruct IH as (a & c & E & Hc); [discriminate | exact Hts |].
    rewrite E. exists (t ++ 32%N :: a), c.
    split; [|exact Hc]. rewrite <- app_assoc. reflexivity.
Qed.

(** A text made of tokens separated by single spaces is cut back into
    those tokens. *)
Lemma split_trim_join (toks : list jsstring) :
  toks <> [] -> Forall isToken toks ->
  split_ws (trim (joinTokens toks)) = toks.
Proof.
  intros Hne H. unfold trim.
  destruct (joinTokens_head toks Hne H) as (c & r & E & Hc).
  destruct (joinTokens_last toks Hne H) as (a & d & E' & Hd).
  rewrite E, (trimStart_head c r Hc), <- E, E', (trimEnd_last a d Hd), <- E'.
  apply split_ws_join; assumption.
Qed.

Lemma digitChars_token (ds : list nat) :
  Forall (fun d => (d < 10)%nat) ds ->
  forallb (fun c => negb (isWhiteSpace c)) (map digitChar ds) = true.
Proof.
  induction 1 as [|d ds Hd _ IH]; simpl; [reflexivity|].
  rewrite (digitChar_not_ws d Hd), IH. reflexivity.
Qed.

Lemma isIntLiteral_token (tok : jsstring) (z : Z) :
  isIntLiteral tok z -> isToken tok.
Proof.
  intros (ds & Hne & H & Hcase).
  pose proof (digitChars_token ds H) as Hd.
  destruct Hcase as [[-> _] | [[-> _] | [-> _]]]; split;
    try discriminate; try (simpl; exact Hd).
  destruct ds; [congruence | discriminate].
Qed.

End JSFacts.

(* ================================================================== *)
(** * Properties of the parser *)
(* ================================================================== *)

Module ParserFacts.
Import JS AiParser Vocabulary JSFacts.

Lemma normalizeProduct_cases (x : jsstring) :
  normalizeProduct x = x \/
  In (normalizeProduct x) [KEUNGEO; NOKSAEK; PARANG].
Proof.
  unfold normalizeProduct. destruct x as [|c x]; [left; reflexivity|].
  match goal with |- context [find ?f mapping] =>
    destruct (find f mapping) as [[key vs]|] eqn:E end;
    [right | left; reflexivity].
  apply find_some in E. destruct E as [E _].
  simpl in E.
  destruct E as [E | [E | [E | []]]]; inversion E; subst; simpl; auto.
Qed.

(** C9. The normalizer is idempotent: normalizing an already normalized
    product name gives the same name, for every string. *)
Theorem normalizeProduct_idempotent (x : jsstring) :
  normalizeProduct (normalizeProduct x) = normalizeProduct x.
Proof.
  destruct (normalizeProduct_cases x) as [E | H].
  - congruence.
  - simpl in H. destruct H as [<- | [<- | [<- | []]]]; reflexivity.
Qed.

Lemma parseInt_undefined : parseInt (lit "undefined") = NaN.
Proof. reflexivity. Qed.

Lemma pairLoop_step (comp x y : jsstring) (l : list jsstring)
      (acc : list OrderLine) :
  pairLoop comp (x :: y :: l) acc =
  if truthy (VStr x) && negb (isNaN (parseInt y))
  then pairLoop comp l (acc ++ [lineFor comp (x, y)])
  else None.
Proof. reflexivity. Qed.

(** When the loop of [fastParse] finishes, the tokens were pairs, every
    count token parsed, and one line per pair was added, in order. *)
Lemma pairLoop_some (comp : jsstring) (rest : list jsstring) :
  forall acc res,
    pairLoop comp rest acc = Some res ->
    exists pairs,
      rest = flatten pairs /\
      res = acc ++ map (lineFor comp) pairs /\
      Forall (fun pc => isNaN (parseInt (snd pc)) = false) pairs.
Proof.
  induction rest as [| x | x y l IH] using pair_induction; intros acc res H.
  - simpl in H. inversion H; subst. exists []. simpl.
    rewrite app_nil_r. auto.
  - simpl in H. rewrite andb_false_r in H. discriminate.
  - rewrite pairLoop_step in H.
    destruct (truthy (VStr x) && negb (isNaN (parseInt y))) eqn:C;
      [|discriminate].
    apply IH in H. destruct H as (pairs & -> & -> & HF).
    exists ((x, y) :: pairs). simpl. rewrite <- app_assoc. simpl.
    repeat split; auto.
    constructor; auto. simpl.
    apply andb_true_iff in C. destruct C as [_ C].
    destruct (isNaN (parseInt y)); [discriminate | reflexivity].
Qed.

(** Conversely the loop accepts every sequence of pairs whose product
    tokens are non-empty and whose count tokens parse. *)
Lemma pairLoop_complete (comp : jsstring) (pairs : list (jsstring * jsstring)) :
  forall acc,
    Forall (fun pc => fst pc <> [] /\ isNaN (parseInt (snd pc)) = false) pairs ->
    pairLoop comp (flatten pairs) acc = Some (acc ++ map (lineFor comp) pairs).
Proof.
  induction pairs as [|[p c] pairs IH]; intros acc H.
  - simpl. rewrite app_nil_r. reflexivity.
  - inversion H as [|? ? [Hp Hc] H']; subst. simpl in Hp, Hc.
    change (flatten ((p, c) :: pairs)) with (p :: c :: flatten pairs).
    rewrite pairLoop_step, Hc.
    destruct p as [|p0 p']; [congruence|]. simpl.
    rewrite (IH _ H'). rewrite <- app_assoc. reflexivity.
Qed.

(** What a successful [fastParse] has seen and built. *)
Lemma fastParse_some (text : jsstring) (lines : list OrderLine) :
  fastParse text = Some lines ->
  exists pairs,
    split_ws (trim text) = firstToken text :: flatten pairs /\
    pairs <> [] /\
    lines = map (lineFor (firstToken text)) pairs /\
    Forall (fun pc => isNaN (parseInt (snd pc)) = false) pairs.
Proof.
  unfold fastParse. destruct (split_trim_head text) as [toks ->].
  destruct (length (firstToken text :: toks) <? 3)%nat eqn:L; [discriminate|].
  destruct (pairLoop (firstToken text) toks []) as [res|] eqn:P; [|discriminate].
  destruct (0 <? length res)%nat; [|discriminate].
  intro H; inversion H; subst.
  apply pairLoop_some in P. destruct P as (pairs & -> & -> & HF).
  exists pairs. repeat split; auto.
  intros ->. simpl in L. discriminate.
Qed.

(** A text whose tokens are a company followed by one or more pairs with
    parsing counts is accepted. *)
Lemma fastParse_complete (text comp : jsstring)
      (pairs : list (jsstring * jsstring)) :
  split_ws (trim text) = comp :: flatten pairs ->
  pairs <> [] ->
  Forall (fun pc => fst pc <> [] /\ isNaN (parseInt (snd pc)) = false) pairs ->
  fastParse text = Some (map (lineFor comp) pairs).
Proof.
  intros Hs Hne HF. unfold fastParse. rewrite Hs.
  destruct pairs as [|[p c] pairs]; [congruence|].
  change (length (comp :: flatten ((p, c) :: pairs)) <? 3)%nat with false.
  cbv iota.
  rewrite (pairLoop_complete comp _ [] HF). reflexivity.
Qed.

(** C10. [fastParse] never returns an empty sequence: it returns
    NO_MATCH, or at least one order line, and then every line carries the
    first white-space-separated token of the text as its company. *)
Theorem fastParse_never_empty (text : jsstring) :
  fastParse text = None \/
  exists l ls,
    fastParse text = Some (l :: ls) /\
    Forall (fun x => company x = firstToken text) (l :: ls).
Proof.
  destruct (fastParse text) as [lines|] eqn:E; [right | left; reflexivity].
  apply fastParse_some in E. destruct E as (pairs & _ & Hne & -> & _).
  destruct pairs as [|pc pairs]; [congruence|].
  exists (lineFor (firstToken text) pc), (map (lineFor (firstToken text)) pairs).
  split; [reflexivity|].
  change (Forall (fun x => company x = firstToken text)
                 (map (lineFor (firstToken text)) (pc :: pairs))).
  apply Forall_forall. intros x Hx. apply in_map_iff in Hx.
  destruct Hx as (q & <- & _). reflexivity.
Qed.

Lemma flatten_tokens (orders : list order) :
  Forall wellFormedOrder orders ->
  Forall isToken (flatten (map orderTokens orders)).
Proof.
  induction 1 as [|[[p c] z] orders (Hp & Hc & _) _ IH]; simpl;
    [constructor|].
  constructor; [exact Hp|].
  constructor; [exact (isIntLiteral_token _ _ Hc) | exact IH].
Qed.

Lemma lineFor_orderLine (comp : jsstring) (orders : list order) :
  Forall wellFormedOrder orders ->
  map (lineFor comp) (map orderTokens orders) = map (orderLine comp) orders.
Proof.
  induction 1 as [|[[p c] z] orders (Hp & Hc & Hz) _ IH]; simpl;
    [reflexivity|].
  rewrite IH. f_equal. unfold lineFor, orderLine. simpl in *.
  rewrite (parseInt_literal _ _ Hc), (roundToDouble_exact _ Hz). reflexivity.
Qed.

(** Every well-formed message is accepted by [fastParse], with the lines
    expected. *)
Lemma fastParse_orderMessage (comp : jsstring) (orders : list order) :
  isToken comp -> orders <> [] -> Forall wellFormedOrder orders ->
  fastParse (orderMessage comp orders) = Some (map (orderLine comp) orders).
Proof.
  intros Hc Hne H. rewrite <- (lineFor_orderLine comp orders H).
  apply fastParse_complete.
  - unfold orderMessage. apply split_trim_join; [discriminate|].
    constructor; [exact Hc | apply flatten_tokens, H].
  - destruct orders; [congruence | discriminate].
  - clear Hne. induction H as [|[[p c] z] orders (Hp & Hl & Hz) _ IH];
      simpl; constructor; auto.
    simpl in *. split; [apply Hp|].
    rewrite (parseInt_literal _ _ Hl). apply roundToDouble_not_NaN.
Qed.



Lemma literalOrder_bigOrder : literalOrder bigOrder.
Proof.
  split; [split; [discriminate | reflexivity]|].
  exists bigDigits. split; [discriminate|]. split.
  - unfold bigDigits. repeat constructor.
  - left. split; reflexivity.
Qed.

(** C5, as the code has it. On every text that [fastParse] accepts,
    [parseMessage] returns the fast result and does nothing but print one
    line: the extraction service is not called.  The accepted text is a
    company token followed by one or more (product, count) pairs of
    tokens, and the result has one object per pair, in order, holding the
    company token, the normalized product token, the number [parseInt]
    reads from the count token, and a null timestamp.  For a count token
    that is the decimal literal of [z] that number is the double nearest
    to [z]: [z] itself below [2^53] in magnitude.  Every well-formed
    message "company (product count)+" with counts in that range is
    accepted and gives exactly the objects expected, with the literal
    counts. *)
Theorem parseMessage_fast_path (e : env) :
  (forall text lines,
      fastParse text = Some lines ->
      (forall t, ~ In (GenerateContent t) (snd (parseMessage e text))) /\
      exists pairs,
        pairs <> [] /\
        split_ws (trim text) = firstToken text :: flatten pairs /\
        lines = map (lineFor (firstToken text)) pairs /\
        parseMessage e text
        = (Ok (map (orderObject (firstToken text)) pairs),
           [ConsoleLog MSG_FAST]) /\
        Forall (fun pc =>
                  forall z, isIntLiteral (snd pc) z ->
                            parseInt (snd pc) = roundToDouble z /\
                            ((Z.abs z < 2 ^ 53)%Z ->
                             parseInt (snd pc) = Int z))
               pairs) /\
  (forall comp orders,
      isToken comp -> orders <> [] -> Forall wellFormedOrder orders ->
      fastParse (orderMessage comp orders)
      = Some (map (orderLine comp) orders) /\
      parseMessage e (orderMessage comp orders)
      = (Ok (map (expectedObject comp) orders), [ConsoleLog MSG_FAST])).
Proof.
  assert (A : forall text lines,
             fastParse text = Some lines ->
             parseMessage e text
             = (Ok (map lineObject lines), [ConsoleLog MSG_FAST])).
  { intros text lines H. unfold parseMessage. rewrite H. reflexivity. }
  split.
  - intros text lines H. pose proof (A text lines H) as E.
    split.
    + intros t Hin. rewrite E in Hin. simpl in Hin.
      destruct Hin as [Hin | []]. discriminate.
    + apply fastParse_some in H. destruct H as (pairs & Hs & Hne & -> & _).
      exists pairs. split; [exact Hne|]. split; [exact Hs|].
      split; [reflexivity|]. split.
      * rewrite E, map_map. reflexivity.
      * apply Forall_forall. intros pc _ z Hz.
        rewrite (parseInt_literal _ _ Hz). split; [reflexivity|].
        apply roundToDouble_exact.
  - intros comp orders Hc Hne H.
    pose proof (fastParse_orderMessage comp orders Hc Hne H) as F.
    split; [exact F|]. rewrite (A _ _ F), map_map. reflexivity.
Qed.

Lemma parseMessage_fast_path_witness :
  (fastParse (lit "acme big 10 blue 3x") =
     Some [lineFor (lit "acme") (lit "big", lit "10");
           lineFor (lit "acme") (lit "blue", lit "3x")] /\
   exists pairs,
     parseMessage envNoKey (lit "acme big 10 blue 3x")
     = (Ok (map (orderObject (lit "acme")) pairs), [ConsoleLog MSG_FAST])) /\
  (wellFormedOrder (lit "big", lit "10", 10%Z) /\
   parseMessage envNoKey
     (orderMessage (lit "acme") [(lit "big", lit "10", 10%Z)])
   = (Ok [expectedObject (lit "acme") (lit "big", lit "10", 10%Z)],
      [ConsoleLog MSG_FAST])).
Proof.
  assert (W : wellFormedOrder (lit "big", lit "10", 10%Z)).
  { split; [split; [discriminate | reflexivity]|]. split; [|reflexivity].
    exists [1; 0]%nat. split; [discriminate|]. split.
    - repeat constructor.
    - left. split; reflexivity. }
  split.
  - split; [reflexivity|].
    destruct (proj1 (parseMessage_fast_path envNoKey)
                (lit "acme big 10 blue 3x") _ eq_refl)
      as (_ & pairs & _ & _ & _ & E & _).
    exists pairs. exact E.
  - split; [exact W|].
    apply (proj2 (parseMessage_fast_path envNoKey) (lit "acme")
             [(lit "big", lit "10", 10%Z)]).
    + split; [discriminate | reflexivity].
    + discriminate.
    + constructor; [exact W | constructor].
Defined.

(** C5 as stated fails: the count is not always the literal integer.  The
    message "acme big 9007199254740993" is accepted, and its count is
    9007199254740992. *)
Lemma big_literal_is_rounded :
  ~ (forall (e : env) comp orders,
        isToken comp -> orders <> [] -> Forall literalOrder orders ->
        fst (parseMessage e (orderMessage comp orders))
        = Ok (map (expectedObject comp) orders)).
Proof.
  intro H.
  assert (T : isToken (lit "acme")) by (split; [discriminate | reflexivity]).
  specialize (H envNoKey (lit "acme") [bigOrder] T).
  assert (E : fst (parseMessage envNoKey (orderMessage (lit "acme") [bigOrder]))
              = Ok [VObj [ (lit "company", VStr (lit "acme"));
                           (lit "product", VStr (lit "big"));
                           (lit "count", VNum (Int 9007199254740992));
                           (lit "ts", VNull) ]])
    by (vm_compute; reflexivity).
  rewrite E in H.
  assert (C : Ok [VObj [ (lit "company", VStr (lit "acme"));
                         (lit "product", VStr (lit "big"));
                         (lit "count", VNum (Int 9007199254740992));
                         (lit "ts", VNull) ]]
              = @Ok error (list jsval)
                    (map (expectedObject (lit "acme")) [bigOrder])).
  { apply H; [discriminate|].
    constructor; [exact literalOrder_bigOrder | constructor]. }
  inversion C.
Qed.








Lemma lookup_setProp_other (k k' : jsstring) (v : jsval)
      (ps : list (jsstring * jsval)) :
  eqs k k' = false -> lookup k (setProp k' v ps) = lookup k ps.
Proof.
  intro H. induction ps as [|[k0 v0] r IH]; simpl.
  - rewrite H. reflexivity.
  - destruct (eqs k' k0) eqn:E; simpl.
    + apply eqs_eq in E. subst k0. rewrite H. reflexivity.
    + rewrite IH. reflexivity.
Qed.

(** The mapping applied to the service's items leaves their count as it
    came. *)
Lemma mapItems_keeps_count (items r : list jsval) :
  mapItems items = Some r ->
  Forall2 (fun item o =>
             exists props,
               o = VObj props /\
               lookup (lit "count") props = lookup (lit "count") (spread item))
          items r.
Proof.
  revert r; induction items as [|item items IH]; intros r H; simpl in H.
  - inversion H. constructor.
  - destruct (mapItem item) as [o|] eqn:Eo; [|discriminate].
    destruct (mapItems items) as [os|]; [|discriminate].
    inversion H; subst. constructor; [|apply IH; reflexivity].
    unfold mapItem in Eo.
    destruct (getProduct item) as [p|]; [|discriminate].
    destruct (normalizeProductAny p) as [p'|]; [|discriminate].
    inversion Eo; subst. eexists. split; [reflexivity|].
    apply lookup_setProp_other. reflexivity.
Qed.

(** C4, as the code has it. Every order line of the fast path has as
    count the number that [parseInt] reads from its count token: an integer
    of any sign, zero included (or an infinity, for a digit string beyond
    the range of a double), never NaN and never a fraction; for the
    decimal literal of an integer below [2^53] in magnitude it is that
    integer, whatever its sign.  The fallback path returns either nothing
    or the service's items with their count untouched. *)
Theorem parseMessage_counts (e : env) (text : jsstring) (r : list jsval)
        (evs : list event) :
  parseMessage e text = (Ok r, evs) ->
  (exists lines pairs,
      fastParse text = Some lines /\ r = map lineObject lines /\
      Forall (fun l => integralCount (count l)) lines /\
      split_ws (trim text) = firstToken text :: flatten pairs /\
      Forall2 (fun pc l => count l = parseInt (snd pc)) pairs lines /\
      Forall2 (fun pc o =>
                 exists props,
                   o = VObj props /\
                   lookup (lit "count") props
                   = Some (VNum (parseInt (snd pc))) /\
                   integralCount (parseInt (snd pc)) /\
                   forall z, isIntLiteral (snd pc) z ->
                             (Z.abs z < 2 ^ 53)%Z ->
                             lookup (lit "count") props = Some (VNum (Int z)))
              pairs r) \/
  (fastParse text = None /\ r = []) \/
  (fastParse text = None /\
   exists raw items,
     generateContent e text = Some raw /\
     JSON_parse e (trim (stripFences raw 0)) = Some (VArr items) /\
     Forall2 (fun item o =>
                exists props,
                  o = VObj props /\
                  lookup (lit "count") props
                  = lookup (lit "count") (spread item))
             items r).
Proof.
  unfold parseMessage. destruct (fastParse text) as [lines|] eqn:F.
  - intro H; inversion H; subst. left.
    apply fastParse_some in F. destruct F as (pairs & Hs & _ & -> & HF).
    exists (map (lineFor (firstToken text)) pairs), pairs.
    assert (HI : forall pc, In pc pairs -> integralCount (parseInt (snd pc))).
    { intros [p c] Hin. rewrite Forall_forall in HF.
      specialize (HF _ Hin). simpl in HF. simpl.
      destruct (parseInt_cases c) as [N | HI];
        [rewrite N in HF; discriminate | exact HI]. }
    split; [reflexivity|]. split; [reflexivity|]. split.
    { apply Forall_forall. intros l Hl. apply in_map_iff in Hl.
      destruct Hl as (pc & <- & Hin). apply HI, Hin. }
    split; [exact Hs|]. split.
    { clear. induction pairs as [|pc pairs IH]; simpl; constructor; auto. }
    clear Hs HF H. induction pairs as [|pc pairs IH]; simpl; constructor.
    + eexists. split; [reflexivity|]. split; [reflexivity|].
      split; [apply HI; left; reflexivity|].
      intros z Hz Hb. simpl.
      rewrite (parseInt_literal _ _ Hz), (roundToDouble_exact _ Hb).
      reflexivity.
    + apply IH. intros pc' Hin. apply HI. right. exact Hin.
  - unfold aiParse.
    destruct (GEMINI_API_KEY e) as [key|err0]; [|discriminate].
    destruct (truthy key); [|discriminate]. cbn [negb].
    unfold aiAttempt.
    destruct (generateContent e text) as [raw|];
      [|intro H; inversion H; auto].
    destruct (JSON_parse e (trim (stripFences raw 0))) as [v|] eqn:J;
      [|intro H; inversion H; auto].
    destruct v; try (intro H; inversion H; auto; fail).
    destruct (mapItems items) as [r'|] eqn:Em;
      [|intro H; inversion H; auto].
    intro H; inversion H; subst. right. right. split; [reflexivity|].
    exists raw, items. repeat split; auto.
    apply mapItems_keeps_count, Em.
Qed.

Lemma parseMessage_counts_witness :
  exists lines,
    fastParse (lit "acme big -2") = Some lines /\
    Forall (fun l => count l = Int (-2)) lines.
Proof.
  destruct (parseMessage_counts envNoKey (lit "acme big -2")
              (map lineObject [lineFor (lit "acme") (lit "big", lit "-2")])
              [ConsoleLog MSG_FAST] eq_refl)
    as [(lines & pairs & F & _) | [[F _] | [F _]]].
  - exists lines. split; [exact F|].
    inversion F; subst. repeat constructor.
  - discriminate F.
  - discriminate F.
Defined.

(** C4 as stated fails: a count of zero is accepted. *)
Lemma count_zero_accepted :
  ~ (forall e text r evs,
        parseMessage e text = (Ok r, evs) -> Forall positiveCount r).
Proof.
  intro H.
  specialize (H envNoKey (lit "acme big 0") _ _ eq_refl).
  inversion H as [|v l Hv _]; subst.
  destruct Hv as (props & z & Hp & Hl & Hz).
  inversion Hp; subst. simpl in Hl. inversion Hl; subst. lia.
Qed.

(** C2, as the code has it. Without a key [aiParse] throws before it
    calls the service; with a key, an answer that cannot be decoded makes
    it log the error and return the empty list.  Settings that are [null]
    make it throw as well, a TypeError, before it calls the service. *)
Theorem aiParse_failure_modes (e : env) (text : jsstring) :
  (keyMissing e -> aiParse e text = (Throw MissingApiKey, [])) /\
  (keyConfigured e -> decodingFails e text ->
   exists err,
     aiParse e text = (Ok [], [GenerateContent text; ConsoleError err])) /\
  (config e = VNull -> aiParse e text = (Throw TypeError, [])).
Proof.
  unfold keyMissing, keyConfigured, aiParse. split; [|split].
  - intros (key & -> & ->). reflexivity.
  - intros (key & -> & ->) Hd. cbn [negb].
    unfold aiAttempt.
    destruct Hd as [-> | (raw & -> & Hd)]; [eexists; reflexivity|].
    destruct Hd as [-> | [(v & -> & Hv) | (items & -> & ->)]];
      try (eexists; reflexivity).
    destruct v; try (eexists; reflexivity).
    exfalso. eapply Hv. reflexivity.
  - intro Hn. unfold GEMINI_API_KEY. rewrite Hn. reflexivity.
Qed.

Lemma aiParse_failure_modes_witness :
  (keyMissing envNoKey /\
   aiParse envNoKey (lit "two of the big ones for acme")
   = (Throw MissingApiKey, [])) /\
  (keyConfigured envProse /\
   decodingFails envProse (lit "two of the big ones for acme") /\
   exists err,
     aiParse envProse (lit "two of the big ones for acme")
     = (Ok [], [GenerateContent (lit "two of the big ones for acme");
                ConsoleError err])) /\
  aiParse envNullSettings (lit "two of the big ones for acme")
  = (Throw TypeError, []).
Proof.
  assert (K : keyMissing envNoKey)
    by (exists VUndefined; split; reflexivity).
  assert (N : keyConfigured envProse)
    by (exists (VStr (lit "key")); split; reflexivity).
  assert (D : decodingFails envProse (lit "two of the big ones for acme")).
  { right. eexists. split; [reflexivity|]. left. reflexivity. }
  split; [|split].
  - split; [exact K|].
    exact (proj1 (aiParse_failure_modes envNoKey _) K).
  - split; [exact N|]. split; [exact D|].
    exact (proj1 (proj2 (aiParse_failure_modes envProse _)) N D).
  - exact (proj2 (proj2 (aiParse_failure_modes envNullSettings _)) eq_refl).
Defined.

(** C2 as stated fails: with the credential missing, [aiParse] throws. *)
Lemma aiParse_throws_without_key :
  ~ (forall e text,
        keyMissing e \/ decodingFails e text ->
        fst (aiParse e text) = Ok []).
Proof.
  intro H.
  assert (K : keyMissing envNoKey)
    by (exists VUndefined; split; reflexivity).
  specialize (H envNoKey (lit "two of the big ones for acme") (or_introl K)).
  discriminate H.
Qed.

End ParserFacts.

(* ================================================================== *)
(** * Properties of the sheet synchroniser *)
(* ================================================================== *)

Module SheetFacts.
Import JS GoogleSheets SheetVocabulary JSFacts.
Local Open Scope js_scope.

(** ** Lists and the back end *)

Lemma findIndex_none {A} (p : A -> bool) (l : list A) :
  findIndex p l = None <-> existsb p l = false.
Proof.
  induction l as [|x l IH]; simpl; [tauto|].
  destruct (p x); simpl; [split; discriminate|].
  destruct (findIndex p l); [|tauto].
  split; [discriminate|]. intro H. apply IH in H. discriminate.
Qed.

Lemma updateFirst_split (p : sheet -> bool) (f : sheet -> sheet)
      (done : list sheet) (s : sheet) (todo : list sheet) :
  (forall x, In x done -> p x = false) -> p s = true ->
  updateFirst p f (done ++ s :: todo) = Some (done ++ f s :: todo).
Proof.
  intros Hd Hs. induction done as [|x done IH]; simpl.
  - rewrite Hs. reflexivity.
  - rewrite (Hd x (or_introl eq_refl)), IH; [reflexivity|].
    intros y Hy. apply Hd. right. exact Hy.
Qed.

Lemma find_split (p : sheet -> bool) (done : list sheet) (s : sheet)
      (todo : list sheet) :
  (forall x, In x done -> p x = false) -> p s = true ->
  find p (done ++ s :: todo) = Some s.
Proof.
  intros Hd Hs. induction done as [|x done IH]; simpl.
  - rewrite Hs. reflexivity.
  - rewrite (Hd x (or_introl eq_refl)). apply IH.
    intros y Hy. apply Hd. right. exact Hy.
Qed.

Lemma removeAt_app {A} (l1 : list A) (x : A) (l2 : list A) :
  removeAt (length l1) (l1 ++ x :: l2) = l1 ++ l2.
Proof. induction l1 as [|y l1 IH]; simpl; [reflexivity | rewrite IH; reflexivity]. Qed.

Lemma firstn_snoc {A} (d : A) (l : list A) (i : nat) :
  (i < length l)%nat -> firstn (S i) l = firstn i l ++ [nth i l d].
Proof.
  revert i; induction l as [|x l IH]; intros i H; simpl in H; [lia|].
  destruct i as [|i]; [reflexivity|].
  change (x :: firstn (S i) l = x :: (firstn i l ++ [nth i l d])).
  rewrite IH by lia. reflexivity.
Qed.

Lemma withRows_rows (s : sheet) : withRows s (rows s) = s.
Proof. destruct s; reflexivity. Qed.

Lemma NoDup_map_split {A B} (f : A -> B) (done : list A) (s : A)
      (todo : list A) :
  NoDup (map f (done ++ s :: todo)) ->
  forall x, In x done -> f x <> f s.
Proof.
  rewrite map_app. simpl. intros H x Hx E.
  apply NoDup_remove_2 in H. apply H.
  apply in_or_app. left. rewrite <- E. apply in_map. exact Hx.
Qed.

Lemma bind_log {A} (l : logline) (m : M A) (w : world) :
  (log l ;; m) w =
  m {| sheets := sheets w; calls := calls w; console := console w ++ [l] |}.
Proof. reflexivity. Qed.

Section FaultFree.

Variable e : env.
Hypothesis Hcred : credentials e = true.
Hypothesis Hfault : faultFree e.

Lemma send_served {A} (r : request)
      (serve : list sheet -> outcome error A * list sheet) (w : world) :
  send e r serve w =
  (fst (serve (sheets w)),
   {| sheets := snd (serve (sheets w)); calls := calls w ++ [r];
      console := console w |}).
Proof.
  unfold send. rewrite Hfault. destruct (serve (sheets w)); reflexivity.
Qed.

Lemma getSheetsClient_ok : getSheetsClient e = log (Info (lit "authenticated")).
Proof.
  unfold getSheetsClient. unfold credentials in Hcred.
  destruct (serviceAccountKey e); [discriminate | discriminate | reflexivity].
Qed.

Lemma deleteDimension_served (i : nat) (w : world) (done : list sheet)
      (s : sheet) (todo : list sheet) :
  sheets w = done ++ s :: todo ->
  (forall x, In x done -> sheetId x <> sheetId s) ->
  deleteDimension e (sheetId s) i w =
  (Ok tt,
   {| sheets := done ++ withRows s (removeAt i (rows s)) :: todo;
      calls := calls w ++ [DeleteDimension (sheetId s) i];
      console := console w |}).
Proof.
  intros Hs Hd. unfold deleteDimension. rewrite send_served, Hs.
  rewrite updateFirst_split; [reflexivity | | apply Z.eqb_refl].
  intros x Hx. apply Z.eqb_neq. apply Hd, Hx.
Qed.

Lemma values_get_served (w : world) (done : list sheet) (s : sheet)
      (todo : list sheet) :
  sheets w = done ++ s :: todo ->
  (forall x, In x done -> title x <> title s) ->
  values_get e (title s) w =
  (Ok (match rows s with [] => None | rs => Some rs end),
   {| sheets := sheets w; calls := calls w ++ [ValuesGet (title s)];
      console := console w |}).
Proof.
  intros Hs Hd. unfold values_get. rewrite send_served, Hs.
  rewrite find_split; [reflexivity | | apply eqs_refl].
  intros x Hx. apply eqs_neq. apply Hd, Hx.
Qed.

(** ** The scan of one tab *)

Lemma scanRows_run (ts : jsstring) (snap : list (list cell)) :
  forall n X w done s todo,
    (n <= length snap)%nat ->
    sheets w = done ++ s :: todo ->
    (forall x, In x done -> sheetId x <> sheetId s) ->
    rows s = firstn n snap ++ X ->
    exists w',
      scanRows e (trim ts) (sheetId s) snap n w = (Ok tt, w') /\
      sheets w' =
      done ++
      withRows s (filter (fun r => negb (deletable e ts r)) (firstn n snap) ++ X)
      :: todo.
Proof.
  induction n as [|i IH]; intros X w done s todo Hn Hs Hd Hr.
  - exists w. split; [reflexivity|]. simpl. simpl in Hr.
    rewrite <- Hr, withRows_rows. exact Hs.
  - rewrite (firstn_snoc [] snap i) in * by lia.
    set (cur := nth i snap []) in *.
    rewrite filter_app. simpl filter.
    assert (Hkeep :
       forall w0, sheets w0 = sheets w ->
       deletable e ts cur = false ->
       exists w',
         scanRows e (trim ts) (sheetId s) snap i w0 = (Ok tt, w') /\
         sheets w' =
         done ++
         withRows s
           ((filter (fun r => negb (deletable e ts r)) (firstn i snap)
             ++ (if negb (deletable e ts cur) then [cur] else [])) ++ X)
         :: todo).
    { intros w0 Hw0 Hk. rewrite Hk. simpl negb. cbv iota.
      rewrite <- app_assoc. simpl app.
      apply IH; auto; try lia.
      - rewrite Hw0. exact Hs.
      - rewrite Hr, <- app_assoc. reflexivity. }
    simpl scanRows. fold cur.
    destruct (findIndex (cellMatches e (trim ts)) cur) as [m|] eqn:Ef.
    + assert (Hm : rowMatches e ts cur = true).
      { unfold rowMatches. destruct (existsb (cellMatches e (trim ts)) cur) eqn:Ex;
          [reflexivity|].
        apply findIndex_none in Ex. congruence. }
      destruct (isProtected e cur) eqn:Ep.
      * rewrite bind_log. apply Hkeep; [reflexivity|].
        unfold deletable. rewrite Hm, Ep. reflexivity.
      * rewrite bind_log. unfold bind at 1.
        erewrite deleteDimension_served; [| simpl; exact Hs | exact Hd].
        assert (Hdel : deletable e ts cur = true).
        { unfold deletable. rewrite Hm, Ep. reflexivity. }
        rewrite Hdel. simpl negb. cbv iota. rewrite app_nil_r.
        assert (Hrm : removeAt i (rows s) = firstn i snap ++ X).
        { pose proof (removeAt_app (firstn i snap) cur X) as R.
          rewrite firstn_length_le in R by lia.
          rewrite Hr, <- app_assoc. exact R. }
        rewrite Hrm.
        specialize (IH X
          {| sheets := done ++ withRows s (firstn i snap ++ X) :: todo;
             calls := calls w ++ [DeleteDimension (sheetId s) i];
             console := console w ++ [Info (lit "row found")] |}
          done (withRows s (firstn i snap ++ X)) todo).
        simpl in IH. apply IH; auto. lia.
    + apply Hkeep; [reflexivity|].
      unfold deletable, rowMatches.
      apply findIndex_none in Ef. rewrite Ef. reflexivity.
Qed.

(** ** All the tabs *)

Lemma wfStore_step (done : list sheet) (s : sheet) (rs : list (list cell))
      (todo : list sheet) :
  wfStore (done ++ s :: todo) -> wfStore ((done ++ [withRows s rs]) ++ todo).
Proof.
  unfold wfStore. rewrite <- app_assoc. simpl.
  rewrite !map_app. simpl. tauto.
Qed.

Lemma forEach_scan (ts : jsstring) :
  forall todo done w,
    sheets w = done ++ todo ->
    wfStore (done ++ todo) ->
    exists w',
      forEach (map (fun s => (sheetId s, title s)) todo)
        (fun sheet =>
           response <- values_get e (snd sheet) ;;
           match response with
           | None => ret tt
           | Some rows =>
               scanRows e (trim ts) (fst sheet) rows (length rows)
           end) w
      = (Ok tt, w') /\
      sheets w' = done ++ afterDelete e ts todo.
Proof.
  induction todo as [|s todo IH]; intros done w Hs Hwf.
  - exists w. split; [reflexivity | exact Hs].
  - simpl map. simpl forEach. unfold bind at 1. unfold bind at 1. simpl snd.
    destruct Hwf as [Hid Htitle].
    rewrite (values_get_served w done s todo Hs
               (NoDup_map_split title done s todo Htitle)).
    simpl fst.
    destruct (rows s) as [|r rs] eqn:Er.
    + destruct (IH (done ++ [withRows s []])
                  {| sheets := sheets w;
                     calls := calls w ++ [ValuesGet (title s)];
                     console := console w |}) as (w' & Hrun & Hw').
      * simpl. rewrite Hs, <- app_assoc. simpl.
        rewrite <- Er, withRows_rows. reflexivity.
      * apply wfStore_step. split; assumption.
      * exists w'. split; [exact Hrun|].
        rewrite Hw', <- app_assoc. simpl. rewrite Er. reflexivity.
    + destruct (scanRows_run ts (r :: rs) (length (r :: rs)) []
                  {| sheets := sheets w;
                     calls := calls w ++ [ValuesGet (title s)];
                     console := console w |} done s todo)
        as (w1 & Hscan & Hw1); auto.
      * apply NoDup_map_split with (todo := todo). exact Hid.
      * rewrite firstn_all, app_nil_r. exact Er.
      * rewrite Hscan.
        rewrite firstn_all, app_nil_r in Hw1.
        destruct (IH (done ++ [withRows s
                        (filter (fun r0 => negb (deletable e ts r0)) (r :: rs))])
                     w1) as (w' & Hrun & Hw').
        -- rewrite Hw1, <- app_assoc. reflexivity.
        -- apply wfStore_step. split; assumption.
        -- exists w'. split; [exact Hrun|].
           rewrite Hw', <- app_assoc. simpl app.
           unfold afterDelete at 2. simpl map. rewrite Er. reflexivity.
Qed.

(** ** [deleteData] *)

Lemma deleteData_run (ts : jsstring) (w : world) :
  wfStore (sheets w) ->
  exists w',
    deleteData e ts w = (Ok tt, w') /\
    sheets w' = afterDelete e ts (sheets w).
Proof.
  intro Hwf. unfold deleteData. rewrite getSheetsClient_ok.
  rewrite bind_log. unfold bind at 1. unfold spreadsheets_get.
  rewrite send_served. simpl fst. simpl snd. cbv beta iota.
  rewrite bind_log.
  apply (forEach_scan ts (sheets w) []); [reflexivity | exact Hwf].
Qed.

End FaultFree.

(** ** The console does not influence the store *)

Lemma blind_ret {A} (a : A) : consoleBlind (ret a).
Proof. intros w1 w2 H. split; [reflexivity | exact H]. Qed.

Lemma blind_throw {A} (err : error) : consoleBlind (@throw A err).
Proof. intros w1 w2 H. split; [reflexivity | exact H]. Qed.

Lemma blind_log (l : logline) : consoleBlind (log l).
Proof. intros w1 w2 H. split; [reflexivity | exact H]. Qed.

Lemma blind_send {A} (e : env) (r : request)
      (serve : list sheet -> outcome error A * list sheet) :
  consoleBlind (send e r serve).
Proof.
  intros w1 w2 [Hs Hc]. unfold send. rewrite Hs, Hc.
  destruct (fault e (sheets w2) (calls w2) r).
  - split; [reflexivity | split; reflexivity].
  - destruct (serve (sheets w2)). split; [reflexivity | split; reflexivity].
Qed.

Lemma blind_bind {A B} (m : M A) (k : A -> M B) :
  consoleBlind m -> (forall a, consoleBlind (k a)) -> consoleBlind (bind m k).
Proof.
  intros Hm Hk w1 w2 H. unfold bind.
  destruct (Hm w1 w2 H) as [Ho Hw].
  destruct (m w1) as [o1 w1'], (m w2) as [o2 w2']. simpl in Ho, Hw. subst o2.
  destruct o1 as [a|err]; [apply Hk, Hw | split; [reflexivity | exact Hw]].
Qed.

Lemma blind_catch {A} (m : M A) (h : error -> M A) :
  consoleBlind m -> (forall err, consoleBlind (h err)) -> consoleBlind (catch m h).
Proof.
  intros Hm Hh w1 w2 H. unfold catch.
  destruct (Hm w1 w2 H) as [Ho Hw].
  destruct (m w1) as [o1 w1'], (m w2) as [o2 w2']. simpl in Ho, Hw. subst o2.
  destruct o1 as [a|err]; [split; [reflexivity | exact Hw] | apply Hh, Hw].
Qed.

Lemma blind_forEach {A} (l : list A) (f : A -> M unit) :
  (forall x, consoleBlind (f x)) -> consoleBlind (forEach l f).
Proof.
  intro Hf. induction l as [|x l IH]; simpl.
  - apply blind_ret.
  - apply blind_bind; [apply Hf | intros _; exact IH].
Qed.

Lemma blind_clock (e : env) :
  consoleBlind (fun w => (Ok (now e (length (calls w))), w)).
Proof.
  intros w1 w2 [Hs Hc]. simpl. rewrite Hc. split; [reflexivity | split; assumption].
Qed.

Create HintDb blind.
#[local] Hint Resolve blind_ret blind_throw blind_log blind_send blind_clock
  : blind.

Ltac blind :=
  repeat first
    [ assumption
    | solve [auto with blind]
    | apply blind_bind; [|intros ?]
    | apply blind_catch; [|intros ?]
    | apply blind_forEach; intros ?
    | match goal with
      | |- consoleBlind (if ?b then _ else _) => destruct b
      | |- consoleBlind (match ?x with _ => _ end) => destruct x
      end ].

Lemma blind_getSheetsClient (e : env) : consoleBlind (getSheetsClient e).
Proof. unfold getSheetsClient. blind. Qed.

Lemma blind_ensureSheetExists (e : env) (name : jsstring) :
  consoleBlind (ensureSheetExists e name).
Proof.
  pose proof (blind_getSheetsClient e).
  unfold ensureSheetExists, spreadsheets_get, addSheet, values_update_header.
  blind.
Qed.

Lemma blind_appendItem (e : env) (first : jsstring) (it : item) :
  consoleBlind (appendItem e first it).
Proof.
  pose proof (blind_ensureSheetExists e (company it)).
  unfold appendItem, values_append. blind.
Qed.

Lemma blind_appendData (e : env) (dataList : list item) :
  consoleBlind (appendData e dataList).
Proof.
  pose proof (blind_getSheetsClient e).
  pose proof (blind_appendItem e).
  unfold appendData, spreadsheets_get. blind.
Qed.

Lemma blind_scanRows (e : env) (ts : jsstring) (id : Z)
      (rs : list (list cell)) (n : nat) :
  consoleBlind (scanRows e ts id rs n).
Proof.
  induction n as [|i IH]; simpl; unfold deleteDimension; blind.
Qed.

Lemma blind_deleteData (e : env) (ts : jsstring) :
  consoleBlind (deleteData e ts).
Proof.
  pose proof (blind_getSheetsClient e).
  pose proof (blind_scanRows e).
  unfold deleteData, spreadsheets_get, values_get. blind.
Qed.

(** ** [appendData] only adds *)

Lemma extendsSheet_refl (s : sheet) : extendsSheet s s.
Proof.
  repeat split. exists []. rewrite app_nil_r. reflexivity.
Qed.

Lemma extendsSheet_trans (a b c : sheet) :
  extendsSheet a b -> extendsSheet b c -> extendsSheet a c.
Proof.
  intros (Hi & Ht & x & Hx) (Hi' & Ht' & y & Hy).
  repeat split; try congruence.
  exists (x ++ y). rewrite Hy, Hx, app_assoc. reflexivity.
Qed.

Lemma Forall2_extends_refl (ss : list sheet) : Forall2 extendsSheet ss ss.
Proof. induction ss; constructor; auto using extendsSheet_refl. Qed.

Lemma Forall2_extends_trans (a b c : list sheet) :
  Forall2 extendsSheet a b -> Forall2 extendsSheet b c ->
  Forall2 extendsSheet a c.
Proof.
  intro H; revert c; induction H as [|x y a b Hxy _ IH]; intros c Hc;
    inversion Hc; subst; constructor; eauto using extendsSheet_trans.
Qed.

Lemma extendsStore_refl (ss : list sheet) : extendsStore ss ss.
Proof.
  exists ss, []. rewrite app_nil_r. split; [reflexivity|].
  apply Forall2_extends_refl.
Qed.

Lemma extendsStore_trans (a b c : list sheet) :
  extendsStore a b -> extendsStore b c -> extendsStore a c.
Proof.
  intros (old & new & -> & H) (old' & new' & -> & H').
  apply Forall2_app_inv_l in H'.
  destruct H' as (o1 & o2 & H1 & H2 & ->).
  exists o1, (o2 ++ new'). rewrite app_assoc. split; [reflexivity|].
  eapply Forall2_extends_trans; eassumption.
Qed.

Lemma updateFirst_extends (p : sheet -> bool) (f : sheet -> sheet)
      (ss ss' : list sheet) :
  (forall s, extendsSheet s (f s)) ->
  updateFirst p f ss = Some ss' -> Forall2 extendsSheet ss ss'.
Proof.
  intro Hf. revert ss'; induction ss as [|s ss IH]; intros ss' H; simpl in H.
  - discriminate.
  - destruct (p s).
    + inversion H; subst. constructor; [apply Hf | apply Forall2_extends_refl].
    + destruct (updateFirst p f ss) as [r|]; [|discriminate].
      inversion H; subst. constructor; [apply extendsSheet_refl | auto].
Qed.

Lemma extending_ret {A} (a : A) : extending (ret a).
Proof. intro w. apply extendsStore_refl. Qed.

Lemma extending_throw {A} (err : error) : extending (@throw A err).
Proof. intro w. apply extendsStore_refl. Qed.

Lemma extending_log (l : logline) : extending (log l).
Proof. intro w. apply extendsStore_refl. Qed.

Lemma extending_clock (e : env) :
  extending (fun w => (Ok (now e (length (calls w))), w)).
Proof. intro w. apply extendsStore_refl. Qed.

Lemma extending_bind {A B} (m : M A) (k : A -> M B) :
  extending m -> (forall a, extending (k a)) -> extending (bind m k).
Proof.
  intros Hm Hk w. unfold bind. specialize (Hm w).
  destruct (m w) as [[a|err] w']; simpl in Hm; [|exact Hm].
  eapply extendsStore_trans; [exact Hm | apply Hk].
Qed.

Lemma extending_catch {A} (m : M A) (h : error -> M A) :
  extending m -> (forall err, extending (h err)) -> extending (catch m h).
Proof.
  intros Hm Hh w. unfold catch. specialize (Hm w).
  destruct (m w) as [[a|err] w']; simpl in Hm; [exact Hm|].
  eapply extendsStore_trans; [exact Hm | apply Hh].
Qed.

Lemma extending_forEach {A} (l : list A) (f : A -> M unit) :
  (forall x, extending (f x)) -> extending (forEach l f).
Proof.
  intro Hf. induction l as [|x l IH]; simpl.
  - apply extending_ret.
  - apply extending_bind; [apply Hf | intros _; exact IH].
Qed.

Lemma extending_send {A} (e : env) (r : request)
      (serve : list sheet -> outcome error A * list sheet) :
  (forall ss, extendsStore ss (snd (serve ss))) -> extending (send e r serve).
Proof.
  intros Hs w. unfold send.
  destruct (fault e (sheets w) (calls w) r); [apply extendsStore_refl|].
  specialize (Hs (sheets w)). destruct (serve (sheets w)). exact Hs.
Qed.

Lemma extending_spreadsheets_get (e : env) : extending (spreadsheets_get e).
Proof. apply extending_send. intro ss. apply extendsStore_refl. Qed.

Lemma extending_values_append (e : env) (name : jsstring)
      (values : list jsval) :
  extending (values_append e name values).
Proof.
  apply extending_send. intro ss.
  match goal with |- context [updateFirst ?p ?f ss] =>
    destruct (updateFirst p f ss) as [ss'|] eqn:E end;
    [|apply extendsStore_refl].
  simpl. exists ss', []. rewrite app_nil_r. split; [reflexivity|].
  eapply updateFirst_extends; [|exact E].
  intro s. repeat split. eexists. reflexivity.
Qed.

(** A new tab and its header: the header lands on the tab just made. *)
Lemma extending_new_tab (e : env) (name : jsstring) :
  extending (addSheet e name ;;
             log (Info (lit "tab created")) ;;
             values_update_header e name ;;
             log (Info (lit "header written"))).
Proof.
  intro w. unfold bind, addSheet, values_update_header, send, log. simpl.
  destruct (fault e (sheets w) (calls w) (AddSheet name));
    [apply extendsStore_refl|].
  destruct (existsb (hasTitle name) (sheets w)) eqn:Ex;
    [apply extendsStore_refl|].
  simpl.
  match goal with |- context [fault e ?a ?b ?c] => destruct (fault e a b c) end;
    simpl.
  - exists (sheets w), [ {| sheetId := freshSheetId e (sheets w);
                            title := name; rows := [] |} ].
    split; [reflexivity | apply Forall2_extends_refl].
  - rewrite updateFirst_split.
    + simpl. eexists (sheets w), [_].
      split; [reflexivity | apply Forall2_extends_refl].
    + intros x Hx.
      destruct (hasTitle name x) eqn:Hh; [|reflexivity].
      assert (existsb (hasTitle name) (sheets w) = true)
        by (apply existsb_exists; eauto).
      congruence.
    + apply eqs_refl.
Qed.

Lemma extending_getSheetsClient (e : env) : extending (getSheetsClient e).
Proof.
  unfold getSheetsClient.
  destruct (serviceAccountKey e);
    [ apply extending_throw
    | apply extending_bind; [apply extending_log | intro; apply extending_throw]
    | apply extending_log ].
Qed.

Create HintDb extending.
#[local] Hint Resolve extending_ret extending_throw extending_log
  extending_clock extending_spreadsheets_get extending_values_append
  extending_new_tab extending_getSheetsClient : extending.

Ltac extending :=
  repeat first
    [ assumption
    | solve [auto with extending]
    | apply extending_bind; [|intros ?]
    | apply extending_catch; [|intros ?]
    | apply extending_forEach; intros ?
    | match goal with
      | |- extending (if ?b then _ else _) => destruct b
      | |- extending (match ?x with _ => _ end) => destruct x
      end ].

Lemma extending_ensureSheetExists (e : env) (name : jsstring) :
  extending (ensureSheetExists e name).
Proof. unfold ensureSheetExists. extending. Qed.

Lemma extending_appendItem (e : env) (first : jsstring) (it : item) :
  extending (appendItem e first it).
Proof.
  pose proof (extending_ensureSheetExists e (company it)).
  unfold appendItem. extending.
Qed.

Lemma extending_appendData (e : env) (dataList : list item) :
  extending (appendData e dataList).
Proof.
  pose proof (extending_appendItem e).
  unfold appendData. extending.
Qed.

(** ** The claims on the synchroniser *)

Lemma deletable_false (e : env) (ts : jsstring) (row : list cell) :
  negb (deletable e ts row) = true <->
  rowMatches e ts row = false \/ isProtected e row = true.
Proof.
  unfold deletable.
  destruct (rowMatches e ts row), (isProtected e row); simpl;
    intuition discriminate.
Qed.


Lemma wfStore_sampleStore : wfStore sampleStore.
Proof.
  split; repeat constructor; simpl; intuition discriminate.
Qed.

Lemma faultFree_envPlain : faultFree envPlain.
Proof. intros ss cs r. reflexivity. Qed.


(** On the sample spreadsheet the unprotected row of the message goes from
    both tabs and the annotated one stays. *)
Example afterDelete_sample :
  afterDelete envPlain TS1 sampleStore =
  [ {| sheetId := 0; title := lit "orders";
       rows := [ HEADER;
                 sampleRow (lit "acme") (lit "blue") 2 TS1
                   ++ [CStr (lit "checked by hand")];
                 sampleRow (lit "zenith") (lit "big") 1 TS2 ] |};
    {| sheetId := 7; title := lit "acme";
       rows := [ HEADER;
                 sampleRow (lit "acme") (lit "blue") 2 TS1
                   ++ [CStr (lit "checked by hand")] ] |} ].
Proof. reflexivity. Qed.


(** C7. [updateData] returns what [deleteData] followed by [appendData]
    returns, and leaves the same spreadsheet after the same requests; only
    one more line is printed first.  When the back end serves every
    request, each tab ends as its rows without the deleted ones, in order
    and as they were, with the new rows below: no row is rewritten in
    place. *)
Theorem updateData_is_delete_then_append (e : env) (ts : jsstring)
        (newLines : list item) (w : world) :
  (fst (updateData e ts newLines w) = fst (deleteThenAppend e ts newLines w) /\
   sameStore (snd (updateData e ts newLines w))
             (snd (deleteThenAppend e ts newLines w))) /\
  (credentials e = true -> faultFree e -> wfStore (sheets w) ->
   extendsStore (afterDelete e ts (sheets w))
                (sheets (snd (updateData e ts newLines w)))).
Proof.
  split.
  - assert (B : consoleBlind (deleteThenAppend e ts newLines)).
    { unfold deleteThenAppend. apply blind_bind.
      - apply blind_deleteData.
      - intros _. apply blind_appendData. }
    change (updateData e ts newLines w)
      with (deleteThenAppend e ts newLines
              (logged (Info (lit "update request")) w)).
    apply B. split; reflexivity.
  - intros Hc Hf Hwf.
    change (updateData e ts newLines w)
      with (deleteThenAppend e ts newLines
              (logged (Info (lit "update request")) w)).
    unfold deleteThenAppend, bind.
    destruct (deleteData_run e Hc Hf ts
                (logged (Info (lit "update request")) w) Hwf)
      as (w1 & -> & Hw1).
    simpl in Hw1. rewrite <- Hw1. apply extending_appendData.
Qed.

Lemma updateData_is_delete_then_append_witness :
  extendsStore (afterDelete envPlain TS1 (sheets sampleWorld))
               (sheets (snd (updateData envPlain TS1 [sampleItem] sampleWorld))).
Proof.
  apply (proj2 (updateData_is_delete_then_append envPlain TS1 [sampleItem]
                  sampleWorld)).
  - reflexivity.
  - exact faultFree_envPlain.
  - exact wfStore_sampleStore.
Defined.

(** ** What is printed stays printed *)

Lemma printing_ret {A} (a : A) : printing (ret a).
Proof. intro w. exists []. rewrite app_nil_r. reflexivity. Qed.

Lemma printing_throw {A} (err : error) : printing (@throw A err).
Proof. intro w. exists []. rewrite app_nil_r. reflexivity. Qed.

Lemma printing_log (l : logline) : printing (log l).
Proof. intro w. exists [l]. reflexivity. Qed.

Lemma printing_send {A} (e : env) (r : request)
      (serve : list sheet -> outcome error A * list sheet) :
  printing (send e r serve).
Proof.
  intro w. exists []. rewrite app_nil_r. unfold send.
  destruct (fault e (sheets w) (calls w) r); [reflexivity|].
  destruct (serve (sheets w)); reflexivity.
Qed.

Lemma printing_bind {A B} (m : M A) (k : A -> M B) :
  printing m -> (forall a, printing (k a)) -> printing (bind m k).
Proof.
  intros Hm Hk w. unfold bind. destruct (Hm w) as [x Hx].
  destruct (m w) as [[a|err] w']; simpl in Hx; [|exists x; exact Hx].
  destruct (Hk a w') as [y Hy]. exists (x ++ y).
  rewrite Hy, Hx, app_assoc. reflexivity.
Qed.

Lemma printing_catch {A} (m : M A) (h : error -> M A) :
  printing m -> (forall err, printing (h err)) -> printing (catch m h).
Proof.
  intros Hm Hh w. unfold catch. destruct (Hm w) as [x Hx].
  destruct (m w) as [[a|err] w']; simpl in Hx; [exists x; exact Hx|].
  destruct (Hh err w') as [y Hy]. exists (x ++ y).
  rewrite Hy, Hx, app_assoc. reflexivity.
Qed.

Create HintDb printing.
#[local] Hint Resolve printing_ret printing_throw printing_log printing_send
  : printing.

Ltac printing :=
  repeat first
    [ assumption
    | solve [auto with printing]
    | apply printing_bind; [|intros ?]
    | apply printing_catch; [|intros ?]
    | match goal with
      | |- printing (if ?b then _ else _) => destruct b
      | |- printing (match ?x with _ => _ end) => destruct x
      end ].

Lemma printing_companyWrite (e : env) (it : item) (row : list jsval) :
  printing (companyWrite e it row).
Proof.
  unfold companyWrite, ensureSheetExists, getSheetsClient, spreadsheets_get,
    addSheet, values_update_header, values_append.
  printing.
Qed.

(** ** The two writes of a line *)

Lemma appendItem_unfold (e : env) (first : jsstring) (it : item) (w : world) :
  appendItem e first it w =
  (catch (masterWrite e first (rowValues it (now e (length (calls w)))))
         (fun error => log (Warn error)) ;;
   catch (companyWrite e it (rowValues it (now e (length (calls w)))))
         (fun error => log (Error error) ;; throw error))
    (recording w).
Proof. reflexivity. Qed.

Lemma appendData_unfold (e : env) (dataList : list item) :
  appendData e dataList =
  (getSheetsClient e ;;
   catch (appendBody e dataList)
         (fun error => log (Error error) ;; throw error)).
Proof. reflexivity. Qed.

(** C8. For each line of [appendData]: when the write to the master tab
    fails, the failure is printed as a warning and the line goes on; if the
    write to the company's tab then succeeds, the line succeeds, the
    warning is on the console and the loop continues with the next line.
    When the write to the company's tab fails (making the tab, or
    appending to it), the error is printed and thrown out of the loop,
    whatever the master write did, and [appendData] throws it to its
    caller. *)
Theorem appendData_error_policy (e : env) (first : jsstring) (it : item)
        (rest : list item) (w : world) :
  (forall err w1 w2,
      masterWrite e first (rowValues it (now e (length (calls w))))
                  (recording w) = (Throw err, w1) ->
      companyWrite e it (rowValues it (now e (length (calls w))))
                   (logged (Warn err) w1) = (Ok tt, w2) ->
      appendItem e first it w = (Ok tt, w2) /\
      In (Warn err) (console w2) /\
      appendLoop e first (it :: rest) w = appendLoop e first rest w2) /\
  (forall mo w1 err w2,
      catch (masterWrite e first (rowValues it (now e (length (calls w)))))
            (fun error => log (Warn error)) (recording w) = (mo, w1) ->
      companyWrite e it (rowValues it (now e (length (calls w)))) w1
      = (Throw err, w2) ->
      appendLoop e first (it :: rest) w = (Throw err, logged (Error err) w2)) /\
  (forall dataList w0 wa err wb,
      getSheetsClient e w0 = (Ok tt, wa) ->
      appendBody e dataList wa = (Throw err, wb) ->
      appendData e dataList w0 = (Throw err, logged (Error err) wb)).
Proof.
  split; [|split].
  - intros err w1 w2 Hm Hc.
    assert (E : appendItem e first it w = (Ok tt, w2)).
    { rewrite appendItem_unfold. unfold bind at 1, catch at 1.
      rewrite Hm. unfold catch. unfold logged in Hc.
      destruct (log (Warn err) w1) as [[[]|?] wl] eqn:L;
        simpl in L; inversion L; subst.
      simpl in Hc. rewrite Hc. reflexivity. }
    split; [exact E|]. split.
    + destruct (printing_companyWrite e it
                  (rowValues it (now e (length (calls w))))
                  (logged (Warn err) w1)) as [more Hmore].
      rewrite Hc in Hmore. simpl in Hmore. rewrite Hmore.
      apply in_or_app. left. apply in_or_app. right. left. reflexivity.
    + unfold appendLoop. simpl forEach. unfold bind at 1. rewrite E.
      reflexivity.
  - intros mo w1 err w2 Hm Hc.
    unfold appendLoop. simpl forEach. unfold bind at 1.
    rewrite appendItem_unfold. unfold bind at 1.
    assert (Hok : mo = Ok tt).
    { unfold catch in Hm.
      destruct (masterWrite e first _ (recording w)) as [[[]|?] ?];
        inversion Hm; reflexivity. }
    subst mo. rewrite Hm. unfold catch. rewrite Hc. reflexivity.
  - intros dataList w0 wa err wb Hg Hb.
    rewrite appendData_unfold. unfold bind at 1. rewrite Hg.
    unfold catch. rewrite Hb. reflexivity.
Qed.

Lemma appendData_error_policy_witness :
  (* the master tab rejects the row, the company tab takes it *)
  (fst (appendItem (rejectAppendsTo (lit "orders")) (lit "orders")
                   sampleItem sampleWorld) = Ok tt /\
   In (Warn (ApiError 503))
      (console (snd (appendItem (rejectAppendsTo (lit "orders")) (lit "orders")
                                sampleItem sampleWorld)))) /\
  (* the company tab rejects the row *)
  fst (appendLoop (rejectAppendsTo (lit "acme")) (lit "orders")
                  [sampleItem; sampleItem] sampleWorld)
  = Throw (ApiError 503) /\
  fst (appendData (rejectAppendsTo (lit "acme")) [sampleItem] sampleWorld)
  = Throw (ApiError 503).
Proof.
  split; [|split].
  - pose proof
      (proj1 (appendData_error_policy (rejectAppendsTo (lit "orders"))
                (lit "orders") sampleItem [] sampleWorld)
         (ApiError 503)
         (snd (masterWrite (rejectAppendsTo (lit "orders")) (lit "orders")
                 (rowValues sampleItem (lit "2024. 1. 1."))
                 (recording sampleWorld)))
         (snd (appendItem (rejectAppendsTo (lit "orders")) (lit "orders")
                 sampleItem sampleWorld))
         eq_refl eq_refl) as [E [W _]].
    rewrite E. split; [reflexivity | exact W].
  - pose proof
      (proj1 (proj2 (appendData_error_policy (rejectAppendsTo (lit "acme"))
                (lit "orders") sampleItem [sampleItem] sampleWorld))
         (Ok tt)
         (snd (catch (masterWrite (rejectAppendsTo (lit "acme")) (lit "orders")
                        (rowValues sampleItem (lit "2024. 1. 1.")))
                     (fun error => log (Warn error))
                     (recording sampleWorld)))
         (ApiError 503)
         (snd (companyWrite (rejectAppendsTo (lit "acme")) sampleItem
                 (rowValues sampleItem (lit "2024. 1. 1."))
                 (snd (catch (masterWrite (rejectAppendsTo (lit "acme"))
                                (lit "orders")
                                (rowValues sampleItem (lit "2024. 1. 1.")))
                             (fun error => log (Warn error))
                             (recording sampleWorld)))))
         eq_refl eq_refl) as E.
    rewrite E. reflexivity.
  - pose proof
      (proj2 (proj2 (appendData_error_policy (rejectAppendsTo (lit "acme"))
                (lit "orders") sampleItem [] sampleWorld))
         [sampleItem] sampleWorld
         (snd (getSheetsClient (rejectAppendsTo (lit "acme")) sampleWorld))
         (ApiError 503)
         (snd (appendBody (rejectAppendsTo (lit "acme")) [sampleItem]
                 (snd (getSheetsClient (rejectAppendsTo (lit "acme"))
                         sampleWorld))))
         eq_refl eq_refl) as E.
    rewrite E. reflexivity.
Defined.

End SheetFacts.

(* ================================================================== *)
(** * Properties of the cache of processed identities *)
(* ================================================================== *)

Module SlackFacts.
Import JS SlackHandler SlackVocabulary JSFacts.

Lemma add_fresh (s : idset) (x : jsstring) :
  has s x = false -> add s x = s ++ [x].
Proof. intro H. unfold add. rewrite H. reflexivity. Qed.

Lemma delete_first_length (x : jsstring) (r : idset) :
  (length (delete (x :: r) x) <= length r)%nat.
Proof.
  unfold delete. simpl. rewrite eqs_refl. simpl. apply filter_length_le.
Qed.

Lemma delete_first_nodup (x : jsstring) (r : idset) :
  ~ In x r -> delete (x :: r) x = r.
Proof.
  intro H. unfold delete. simpl. rewrite eqs_refl. simpl.
  induction r as [|y r IH]; simpl; [reflexivity|].
  destruct (eqs x y) eqn:E.
  - apply eqs_eq in E. subst. exfalso. apply H. left. reflexivity.
  - simpl. rewrite IH; [reflexivity|]. intro Hin. apply H. right. exact Hin.
Qed.

Lemma has_false_not_in (s : idset) (x : jsstring) :
  has s x = false -> ~ In x s.
Proof.
  intros H Hin. unfold has in H.
  assert (existsb (eqs x) s = true).
  { apply existsb_exists. exists x. split; [exact Hin | apply eqs_refl]. }
  congruence.
Qed.

Lemma evict_bounded (s1 : idset) :
  (size s1 <= S CACHE_SIZE)%nat ->
  (size (if (CACHE_SIZE <? size s1)%nat
         then match s1 with
              | firstItem :: _ => delete s1 firstItem
              | [] => s1
              end
         else s1) <= CACHE_SIZE)%nat.
Proof.
  intro H. destruct (CACHE_SIZE <? size s1)%nat eqn:L.
  - destruct s1 as [|f r]; [discriminate L|].
    unfold size in *. pose proof (delete_first_length f r).
    simpl length in H. lia.
  - apply Nat.ltb_ge in L. exact L.
Qed.

(** [shouldSkipEvent] keeps the cache within its capacity. *)
Lemma shouldSkipEvent_bounded (nowMs : Z) (b : option body) (s : idset) :
  (size s <= CACHE_SIZE)%nat ->
  (size (snd (shouldSkipEvent nowMs b s)) <= CACHE_SIZE)%nat.
Proof.
  intro H. unfold shouldSkipEvent.
  destruct b as [b|]; [|exact H].
  destruct (event_id b) as [[|c id]|]; try exact H.
  destruct (has s (c :: id)) eqn:Hh; [exact H|].
  match goal with |- context [if ?t then (true, s) else _] => destruct t end;
    [exact H|].
  rewrite (add_fresh s _ Hh). cbv zeta.
  apply (evict_bounded (s ++ [c :: id])).
  unfold size in *. rewrite length_app. simpl. lia.
Qed.

Lemma shouldSkipEvent_fresh (nowMs : Z) (id : jsstring) (s : idset) :
  id <> [] -> has s id = false ->
  shouldSkipEvent nowMs (eventWith id) s =
  (false,
   if (CACHE_SIZE <? size (s ++ [id]))%nat
   then match s ++ [id] with
        | firstItem :: _ => delete (s ++ [id]) firstItem
        | [] => s ++ [id]
        end
   else s ++ [id]).
Proof.
  intros Hid Hh. unfold shouldSkipEvent, eventWith, add.
  destruct id as [|c id]; [congruence|].
  simpl event_id. simpl event_time. cbv iota. rewrite Hh. reflexivity.
Qed.

(** A new identity arriving at a full cache evicts the oldest member and
    goes last; the order of the others is kept. *)
Lemma shouldSkipEvent_evicts_oldest (nowMs : Z) (id oldest : jsstring)
      (others : idset) :
  NoDup (oldest :: others) -> size (oldest :: others) = CACHE_SIZE ->
  id <> [] -> has (oldest :: others) id = false ->
  shouldSkipEvent nowMs (eventWith id) (oldest :: others)
  = (false, others ++ [id]).
Proof.
  intros Hnd Hsz Hid Hh. rewrite (shouldSkipEvent_fresh _ _ _ Hid Hh).
  assert (L : (CACHE_SIZE <? size ((oldest :: others) ++ [id]))%nat = true).
  { apply Nat.ltb_lt. unfold size in *. rewrite length_app. simpl in *. lia. }
  rewrite L. change ((oldest :: others) ++ [id])
    with (oldest :: (others ++ [id])).
  cbv iota. rewrite delete_first_nodup; [reflexivity|].
  intro Hin. apply in_app_or in Hin. destruct Hin as [Hin | [Hin | []]].
  - inversion Hnd; auto.
  - apply has_false_not_in in Hh. apply Hh. left. symmetry. exact Hin.
Qed.

(** A check that finds the identity leaves the cache as it is: being
    checked again does not make a member younger. *)
Lemma shouldSkipEvent_seen (nowMs : Z) (b : body) (id : jsstring) (s : idset) :
  event_id b = Some id -> has s id = true ->
  shouldSkipEvent nowMs (Some b) s = (true, s) \/ id = [].
Proof.
  intros He Hh. unfold shouldSkipEvent. rewrite He.
  destruct id as [|c id]; [right; reflexivity|].
  rewrite Hh. left. reflexivity.
Qed.

(** C3, where the code departs from it. A hundred and one clicks on the
    approve button, each with its own trigger identity, leave a hundred
    and one identities in the cache: the [approve_order] handler adds to
    the cache without the size check that [shouldSkipEvent] makes, so the
    cache exceeds [CACHE_SIZE]. *)
Theorem approve_clicks_exceed_capacity :
  size (run (map ApproveClick (distinctIds 101))) = 101%nat /\
  (CACHE_SIZE < size (run (map ApproveClick (distinctIds 101))))%nat.
Proof.
  split; [vm_compute; reflexivity|].
  apply Nat.ltb_lt. vm_compute. reflexivity.
Qed.

(** The same after a hundred message events and one click. *)
Lemma click_after_full_cache :
  size (run (map (fun id => MessageEvent 0 (eventWith id)) (distinctIds 100)
             ++ [ApproveClick (lit "trigger")])) = 101%nat.
Proof. vm_compute. reflexivity. Qed.

End SlackFacts.

(* ================================================================== *)
(** * Further properties of the cache of processed identities *)
(* ================================================================== *)

Module SlackMore.
Import JS SlackHandler SlackVocabulary SlackTerms JSFacts SlackFacts.

Lemma run_snoc (inputs : list input) (i : input) :
  run (inputs ++ [i]) = step (run inputs) i.
Proof. unfold run. rewrite fold_left_app. reflexivity. Qed.

(** X1. Message events alone never take the cache beyond its capacity:
    after any sequence of message, message-changed and message-deleted
    events, whatever their identities and times, the cache holds at most
    [CACHE_SIZE] identities. *)
Theorem message_events_keep_capacity (evs : list (Z * option body)) :
  (size (run (messageEvents evs)) <= CACHE_SIZE)%nat.
Proof.
  induction evs as [|[t b] evs IH] using rev_ind.
  - unfold CACHE_SIZE. simpl. lia.
  - unfold messageEvents in *. rewrite map_app. simpl map.
    rewrite run_snoc. cbn [step fst snd].
    apply shouldSkipEvent_bounded, IH.
Qed.

Lemma has_true_in (s : idset) (x : jsstring) : has s x = true -> In x s.
Proof.
  unfold has. intro H. apply existsb_exists in H.
  destruct H as (y & Hy & E). apply eqs_eq in E. subst. exact Hy.
Qed.

Lemma has_in_true (s : idset) (x : jsstring) : In x s -> has s x = true.
Proof.
  intro H. unfold has. apply existsb_exists. exists x.
  split; [exact H | apply eqs_refl].
Qed.

Lemma skipn_succ_tl {A} (k : nat) (l : list A) :
  skipn (S k) l = tl (skipn k l).
Proof.
  revert l; induction k as [|k IH]; intros [|x l]; try reflexivity.
  change (skipn (S (S k)) (x :: l)) with (skipn (S k) l).
  change (skipn (S k) (x :: l)) with (skipn k l). apply IH.
Qed.

Lemma NoDup_skipn {A} (k : nat) (l : list A) : NoDup l -> NoDup (skipn k l).
Proof.
  intro H. rewrite <- (firstn_skipn k l) in H.
  apply NoDup_app_remove_l in H. exact H.
Qed.

Lemma in_skipn {A} (k : nat) (l : list A) (x : A) :
  In x (skipn k l) -> In x l.
Proof.
  intro H. rewrite <- (firstn_skipn k l). apply in_or_app. right. exact H.
Qed.

(** X2. The cache is a sliding window: after message events with pairwise
    distinct identities, it holds exactly the last [CACHE_SIZE] of them,
    in arrival order; each arrival beyond the capacity pushes out the
    oldest one. *)
Theorem cache_is_sliding_window (evs : list (Z * jsstring)) :
  NoDup (map snd evs) ->
  Forall (fun p => snd p <> []) evs ->
  run (identifiedEvents evs)
  = skipn (length evs - CACHE_SIZE) (map snd evs).
Proof.
  induction evs as [|[t id] evs IH] using rev_ind; intros Hnd Hne.
  - reflexivity.
  - rewrite map_app in Hnd. simpl in Hnd.
    apply Forall_app in Hne. destruct Hne as [Hne Hid].
    inversion Hid as [|? ? Hid' _]; subst. simpl in Hid'.
    pose proof (NoDup_remove_1 _ _ _ Hnd) as Hnd1.
    pose proof (NoDup_remove_2 _ _ _ Hnd) as Hfresh.
    rewrite !app_nil_r in *.
    specialize (IH Hnd1 Hne).
    unfold identifiedEvents in *. rewrite map_app. simpl map.
    rewrite run_snoc, IH. cbn [step fst snd].
    set (ids := map snd evs) in *.
    assert (Hlen : length ids = length evs) by apply length_map.
    set (k := (length evs - CACHE_SIZE)%nat).
    assert (Hh : has (skipn k ids) id = false).
    { destruct (has (skipn k ids) id) eqn:E; [|reflexivity].
      exfalso. apply Hfresh. eapply in_skipn, has_true_in, E. }
    rewrite (shouldSkipEvent_fresh t id (skipn k ids) Hid' Hh). cbn [snd].
    rewrite length_app, map_app. simpl length. simpl map. fold ids.
    assert (Hsk : length (skipn k ids) = (length evs - k)%nat)
      by (rewrite length_skipn; lia).
    unfold size. rewrite length_app, Hsk. simpl length.
    destruct (Nat.ltb_spec CACHE_SIZE (length evs - k + 1)) as [L | L].
    + assert (Hk : (length evs + 1 - CACHE_SIZE = S k)%nat)
        by (unfold k, CACHE_SIZE in *; lia).
      rewrite Hk, skipn_app, skipn_succ_tl.
      replace (S k - length ids)%nat with 0%nat
        by (unfold k, CACHE_SIZE in *; lia).
      simpl skipn.
      destruct (skipn k ids) as [|f r] eqn:E.
      * simpl in Hsk. unfold k, CACHE_SIZE in *. lia.
      * change ((f :: r) ++ [id]) with (f :: (r ++ [id])). cbv iota.
        rewrite delete_first_nodup; [reflexivity|].
        intro Hin. apply in_app_or in Hin. destruct Hin as [Hin | [Hin | []]].
        -- pose proof (NoDup_skipn k ids Hnd1) as Hn. rewrite E in Hn.
           inversion Hn; auto.
        -- apply has_false_not_in in Hh. apply Hh. left. symmetry. exact Hin.
    + assert (Hk : (k = 0)%nat) by (unfold k, CACHE_SIZE in *; lia).
      assert (Hk' : (length evs + 1 - CACHE_SIZE = 0)%nat)
        by (unfold k, CACHE_SIZE in *; lia).
      rewrite Hk, Hk'. reflexivity.
Qed.

Lemma distinctIds_NoDup (n : nat) : NoDup (distinctIds n).
Proof.
  unfold distinctIds. generalize 0%nat as a.
  induction n as [|n IH]; intro a; simpl; constructor.
  - intro Hin. apply in_map_iff in Hin. destruct Hin as (i & Hi & Hs).
    apply in_seq in Hs. inversion Hi. lia.
  - apply IH.
Qed.

Lemma distinctIds_nonempty (n : nat) :
  Forall (fun p : Z * jsstring => snd p <> [])
         (map (fun id => (0%Z, id)) (distinctIds n)).
Proof.
  apply Forall_forall. intros p Hp. apply in_map_iff in Hp.
  destruct Hp as (id & <- & Hid). unfold distinctIds in Hid.
  apply in_map_iff in Hid. destruct Hid as (i & <- & _). discriminate.
Qed.

Lemma cache_is_sliding_window_witness :
  run (identifiedEvents (map (fun id => (0%Z, id)) (distinctIds 103)))
  = skipn 3 (distinctIds 103) /\
  size (run (identifiedEvents (map (fun id => (0%Z, id)) (distinctIds 103))))
  = CACHE_SIZE /\
  has (run (identifiedEvents (map (fun id => (0%Z, id)) (distinctIds 103))))
      [2%N] = false /\
  has (run (identifiedEvents (map (fun id => (0%Z, id)) (distinctIds 103))))
      [3%N] = true.
Proof.
  assert (E : run (identifiedEvents
                     (map (fun id => (0%Z, id)) (distinctIds 103)))
              = skipn 3 (distinctIds 103)).
  { apply (cache_is_sliding_window
             (map (fun id => (0%Z, id)) (distinctIds 103))).
    - rewrite map_map. cbn [snd]. rewrite map_id. apply distinctIds_NoDup.
    - apply distinctIds_nonempty. }
  split; [exact E|]. rewrite E. repeat split; vm_compute; reflexivity.
Defined.

Lemma newest_survives_eviction (s : idset) (id : jsstring) :
  has s id = false ->
  has (if (CACHE_SIZE <? size (s ++ [id]))%nat
       then match s ++ [id] with
            | firstItem :: _ => delete (s ++ [id]) firstItem
            | [] => s ++ [id]
            end
       else s ++ [id]) id = true.
Proof.
  intro Hh. destruct (CACHE_SIZE <? size (s ++ [id]))%nat eqn:L.
  - destruct s as [|f r].
    + unfold CACHE_SIZE in L. discriminate L.
    + change ((f :: r) ++ [id]) with (f :: (r ++ [id])).
      cbv iota. apply has_in_true. unfold delete. apply filter_In. split.
      * right. apply in_or_app. right. left. reflexivity.
      * apply negb_true_iff, eqs_neq. intro Ef. subst f.
        simpl in Hh. rewrite eqs_refl in Hh. discriminate Hh.
  - apply has_in_true, in_or_app. right. left. reflexivity.
Qed.

(** X3. Duplicate suppression: once [shouldSkipEvent] has let an event
    through, an event with the same identity is skipped on its next
    delivery, at whatever time and with whatever emission time, and that
    second check leaves the cache as it was. *)
Theorem accepted_event_is_skipped_next (t1 t2 : Z) (b1 b2 : body)
        (id : jsstring) (s : idset) :
  event_id b1 = Some id -> event_id b2 = Some id -> id <> [] ->
  fst (shouldSkipEvent t1 (Some b1) s) = false ->
  shouldSkipEvent t2 (Some b2) (snd (shouldSkipEvent t1 (Some b1) s))
  = (true, snd (shouldSkipEvent t1 (Some b1) s)).
Proof.
  intros E1 E2 Hid Hacc.
  assert (Hin : has (snd (shouldSkipEvent t1 (Some b1) s)) id = true).
  { revert Hacc. unfold shouldSkipEvent. rewrite E1.
    destruct id as [|c id]; [congruence|].
    destruct (has s (c :: id)) eqn:Hh; [discriminate|].
    match goal with |- context [if ?t then (true, s) else _] => destruct t end;
      [discriminate|].
    intros _. rewrite (add_fresh s _ Hh). cbv zeta.
    apply (newest_survives_eviction s (c :: id) Hh). }
  unfold shouldSkipEvent at 1. rewrite E2.
  destruct id as [|c id]; [congruence|]. rewrite Hin. reflexivity.
Qed.

Lemma accepted_event_is_skipped_next_witness :
  shouldSkipEvent 0 (eventWith (lit "Ev1")) [] = (false, [lit "Ev1"]) /\
  shouldSkipEvent 999999 (eventWith (lit "Ev1")) [lit "Ev1"]
  = (true, [lit "Ev1"]).
Proof.
  split; [reflexivity|].
  apply (accepted_event_is_skipped_next 0 999999
           {| event_id := Some (lit "Ev1"); event_time := None |}
           {| event_id := Some (lit "Ev1"); event_time := None |}
           (lit "Ev1") []); try reflexivity.
  discriminate.
Defined.

(** X4. Trigger identities and event identities share one cache: a click
    on the approve button that is let through makes the handler reject
    the next click with the same trigger identity, and a message event
    whose identity equals that trigger identity is skipped as well. *)
Theorem approved_trigger_blocks_repeats (trigger : jsstring) (s s' : idset) :
  approveOrderCheck trigger s = (true, s') ->
  approveOrderCheck trigger s' = (false, s') /\
  (forall t b, event_id b = Some trigger -> trigger <> [] ->
               shouldSkipEvent t (Some b) s' = (true, s')).
Proof.
  unfold approveOrderCheck. destruct (has s trigger) eqn:Hh; [discriminate|].
  intro H; inversion H; subst. rewrite (add_fresh s trigger Hh).
  assert (Hin : has (s ++ [trigger]) trigger = true)
    by (apply has_in_true, in_or_app; right; left; reflexivity).
  rewrite Hin. split; [reflexivity|].
  intros t b Eb Hne. unfold shouldSkipEvent. rewrite Eb.
  destruct trigger as [|c r]; [congruence|]. rewrite Hin. reflexivity.
Qed.

Lemma approved_trigger_blocks_repeats_witness :
  approveOrderCheck (lit "T1") [lit "Ev1"; lit "T1"]
  = (false, [lit "Ev1"; lit "T1"]).
Proof.
  apply (approved_trigger_blocks_repeats (lit "T1") [lit "Ev1"]).
  reflexivity.
Defined.

End SlackMore.

(* ================================================================== *)
(** * Further properties of the parser *)
(* ================================================================== *)

Module ParserMore.
Import JS AiParser Vocabulary ParserTerms JSFacts ParserFacts.

(** ** Trimming and splitting *)

Lemma endsClean_trimEnd (s : jsstring) : endsClean (trimEnd s) = true.
Proof.
  induction s as [|c r IH]; [reflexivity|]. simpl.
  destruct (trimEnd r) as [|x r'] eqn:E.
  - destruct (isWhiteSpace c) eqn:Ec; simpl; [reflexivity|].
    rewrite Ec. reflexivity.
  - exact IH.
Qed.

Lemma trim_head (text : jsstring) :
  trim text = [] \/
  exists c r, trim text = c :: r /\ isWhiteSpace c = false.
Proof.
  unfold trim. pose proof (trimStart_no_leading_ws text) as H.
  destruct (trimStart text) as [|c r]; [left; reflexivity|].
  right. simpl. destruct (trimEnd r); [rewrite H|]; eauto.
Qed.

Lemma split_ws_tail_tokens (s : jsstring) :
  endsClean s = true ->
  match split_ws s with
  | _ :: tl => Forall (fun t => t <> []) tl
  | [] => True
  end.
Proof.
  induction s as [|c r IH]; intro H; [constructor|].
  assert (Hr : r <> [] -> endsClean r = true).
  { intro Hn. destruct r; [congruence | exact H]. }
  cbn [split_ws]. destruct (isWhiteSpace c) eqn:Ec.
  - destruct r as [|c' r'].
    + simpl in H. rewrite Ec in H. discriminate H.
    + specialize (IH (Hr ltac:(discriminate))).
      destruct (isWhiteSpace c') eqn:Ec'; [exact IH|].
      destruct (split_ws_head (c' :: r')) as [ts Hs].
      rewrite Hs in *. constructor; [|exact IH].
      simpl. rewrite Ec'. discriminate.
  - destruct r as [|c' r'].
    + simpl. constructor.
    + specialize (IH (Hr ltac:(discriminate))).
      destruct (split_ws (c' :: r')); [constructor | exact IH].
Qed.

(** Unless the trimmed text is empty, none of its pieces is empty. *)
Lemma tokens_not_empty (text : jsstring) :
  trim text <> [] -> Forall (fun t => t <> []) (split_ws (trim text)).
Proof.
  intro Hne.
  pose proof (split_ws_tail_tokens (trim text)
                (endsClean_trimEnd (trimStart text))) as Ht.
  destruct (split_ws_head (trim text)) as [ts Hs]. rewrite Hs in *.
  constructor; [|exact Ht].
  destruct (trim_head text) as [E | (c & r & E & Hc)]; [congruence|].
  rewrite E. simpl. rewrite Hc. discriminate.
Qed.

(** X5. [fastParse] accepts a text exactly when, once trimmed and split at
    white space, it is a first token followed by one or more pairs of
    tokens whose second member [parseInt] can read.  Nothing else plays a
    part: the test on the product token never fails, because no piece of a
    trimmed text is empty. *)
Theorem fastParse_accepts_iff (text : jsstring) :
  (exists lines, fastParse text = Some lines) <->
  (exists pairs,
      pairs <> [] /\
      split_ws (trim text) = firstToken text :: flatten pairs /\
      Forall (fun pc => isNaN (parseInt (snd pc)) = false) pairs).
Proof.
  split.
  - intros [lines H]. apply fastParse_some in H.
    destruct H as (pairs & Hs & Hne & _ & HF). exists pairs. auto.
  - intros (pairs & Hne & Hs & HF).
    exists (map (lineFor (firstToken text)) pairs).
    apply fastParse_complete; auto.
    assert (Ht : Forall (fun t => t <> []) (split_ws (trim text))).
    { apply tokens_not_empty. intro E. rewrite E in Hs. simpl in Hs.
      destruct pairs as [|[p c] pairs]; [congruence | discriminate Hs]. }
    rewrite Hs in Ht. inversion Ht as [|? ? _ Ht']; subst. clear Hs Ht Hne.
    induction HF as [|[p c] pairs Hc _ IH]; [constructor|].
    simpl in Ht'. inversion Ht' as [|? ? Hp Ht'']; subst.
    inversion Ht'' as [|? ? _ Ht3]; subst.
    constructor; [split; assumption | apply IH, Ht3].
Qed.

Lemma trimStart_ws_app (lead s : jsstring) :
  allWs lead = true -> trimStart (lead ++ s) = trimStart s.
Proof.
  induction lead as [|c lead IH]; intro H; [reflexivity|].
  simpl in H. apply andb_true_iff in H. destruct H as [Hc Hl].
  simpl. rewrite Hc. apply IH, Hl.
Qed.

Lemma trimEnd_allWs (s : jsstring) : allWs s = true -> trimEnd s = [].
Proof.
  induction s as [|c s IH]; intro H; [reflexivity|].
  simpl in H. apply andb_true_iff in H. destruct H as [Hc Hs].
  simpl. rewrite (IH Hs), Hc. reflexivity.
Qed.

Lemma trimEnd_app_ws (s trail : jsstring) :
  s <> [] -> endsClean s = true -> allWs trail = true ->
  trimEnd (s ++ trail) = s.
Proof.
  intros Hne Hc Ht. induction s as [|c r IH]; [congruence|].
  destruct r as [|c' r'].
  - simpl in *. rewrite (trimEnd_allWs trail Ht).
    apply negb_true_iff in Hc. rewrite Hc. reflexivity.
  - change ((c :: c' :: r') ++ trail) with (c :: ((c' :: r') ++ trail)).
    cbn [trimEnd]. rewrite IH; [reflexivity | discriminate | exact Hc].
Qed.

(** White space around a text that starts and ends with something else is
    what [trim] removes, and nothing more. *)
Lemma trim_padded (lead s trail : jsstring) (c : N) (r : jsstring) :
  s = c :: r -> isWhiteSpace c = false -> endsClean s = true ->
  allWs lead = true -> allWs trail = true ->
  trim (lead ++ s ++ trail) = s.
Proof.
  intros -> Hc He Hl Ht. unfold trim. rewrite (trimStart_ws_app _ _ Hl).
  change ((c :: r) ++ trail) with (c :: (r ++ trail)).
  rewrite (trimStart_head c _ Hc).
  apply (trimEnd_app_ws (c :: r) trail); [discriminate | exact He | exact Ht].
Qed.

Lemma endsClean_app (a b : jsstring) :
  b <> [] -> endsClean (a ++ b) = endsClean b.
Proof.
  intro Hb. induction a as [|c a IH]; [reflexivity|].
  simpl. destruct (a ++ b) eqn:E; [|exact IH].
  destruct a; [simpl in E; congruence | discriminate E].
Qed.

Lemma endsClean_token (t : jsstring) : isToken t -> endsClean t = true.
Proof.
  intros [_ H]. induction t as [|c t IH]; [reflexivity|].
  simpl in H. apply andb_true_iff in H. destruct H as [Hc Ht].
  destruct t; [exact Hc | apply IH, Ht].
Qed.

Lemma split_ws_cons (c : N) (r : jsstring) :
  split_ws (c :: r) =
  if isWhiteSpace c then
    match r with
    | c' :: _ => if isWhiteSpace c' then split_ws r else [] :: split_ws r
    | [] => [] :: split_ws r
    end
  else
    match split_ws r with
    | t :: ts => (c :: t) :: ts
    | [] => [[c]]
    end.
Proof. reflexivity. Qed.

Lemma split_ws_separator (sep s : jsstring) (c : N) (r : jsstring) :
  isSeparator sep -> s = c :: r -> isWhiteSpace c = false ->
  split_ws (sep ++ s) = [] :: split_ws s.
Proof.
  intros [Hne Hws] -> Hc. induction sep as [|w sep IH]; [congruence|].
  simpl in Hws. apply andb_true_iff in Hws. destruct Hws as [Hw Hs].
  destruct sep as [|w' sep'].
  - simpl app. rewrite (split_ws_cons w (c :: r)), Hw, Hc. reflexivity.
  - change ((w :: w' :: sep') ++ c :: r)
      with (w :: ((w' :: sep') ++ c :: r)).
    rewrite (split_ws_cons w ((w' :: sep') ++ c :: r)), Hw.
    assert (Hw' : isWhiteSpace w' = true).
    { simpl in Hs. apply andb_true_iff in Hs. apply Hs. }
    change ((w' :: sep') ++ c :: r) with (w' :: (sep' ++ c :: r)).
    cbv iota. rewrite Hw'.
    apply IH; [discriminate | exact Hs].
Qed.

Lemma spaced_shape (t : jsstring) (rest : list (jsstring * jsstring)) :
  isToken t ->
  Forall (fun st => isSeparator (fst st) /\ isToken (snd st)) rest ->
  split_ws (t ++ spaced rest) = t :: map snd rest /\
  endsClean (t ++ spaced rest) = true.
Proof.
  intros Ht H. revert t Ht.
  induction H as [|[sep t'] rest [Hsep Ht'] _ IH]; intros t Ht.
  - simpl. rewrite app_nil_r. split; [|apply endsClean_token, Ht].
    rewrite <- (app_nil_r t) at 1.
    rewrite split_ws_token_app by apply Ht. simpl. rewrite app_nil_r.
    reflexivity.
  - simpl in Hsep, Ht'. destruct (IH t' Ht') as [IHs IHe].
    destruct (isToken_head t' Ht') as (c & r & E & Hc).
    simpl spaced. split.
    + rewrite split_ws_token_app by apply Ht.
      rewrite (split_ws_separator sep (t' ++ spaced rest) c (r ++ spaced rest));
        [| exact Hsep | rewrite E; reflexivity | exact Hc].
      rewrite app_nil_r, IHs. reflexivity.
    + rewrite endsClean_app.
      * rewrite endsClean_app; [exact IHe|]. rewrite E. discriminate.
      * destruct sep; [destruct Hsep; congruence | discriminate].
Qed.

(** X6. Only the tokens count: a message written with any white space
    (spaces, tabs, line breaks, in any number) before, between and after
    its tokens gets from [fastParse] the result of the same tokens
    separated by single spaces. *)
Theorem fastParse_any_spacing (lead comp trail : jsstring)
        (rest : list (jsstring * jsstring)) :
  isToken comp ->
  Forall (fun st => isSeparator (fst st) /\ isToken (snd st)) rest ->
  allWs lead = true -> allWs trail = true ->
  fastParse (lead ++ (comp ++ spaced rest) ++ trail)
  = fastParse (joinTokens (comp :: map snd rest)).
Proof.
  intros Hc Hr Hl Ht.
  destruct (spaced_shape comp rest Hc Hr) as [Hs He].
  destruct (isToken_head comp Hc) as (c & r & E & Hws).
  assert (T1 : split_ws (trim (lead ++ (comp ++ spaced rest) ++ trail))
               = comp :: map snd rest).
  { rewrite (trim_padded lead (comp ++ spaced rest) trail c (r ++ spaced rest));
      auto. rewrite E. reflexivity. }
  assert (T2 : split_ws (trim (joinTokens (comp :: map snd rest)))
               = comp :: map snd rest).
  { apply split_trim_join; [discriminate|]. constructor; [exact Hc|].
    clear -Hr. induction Hr as [|[sep t] rest [_ Ht] _ IH]; simpl;
      constructor; auto. }
  unfold fastParse. rewrite T1, T2. reflexivity.
Qed.

Lemma fastParse_any_spacing_witness :
  fastParse ([9; 32] ++ (lit "acme" ++ spaced [([32; 32]%N, lit "big");
                                              ([10]%N, lit "3")]) ++ [13; 10])%N
  = fastParse (lit "acme big 3").
Proof.
  apply (fastParse_any_spacing [9; 32]%N (lit "acme") [13; 10]%N
           [([32; 32]%N, lit "big"); ([10]%N, lit "3")]).
  - split; [discriminate | reflexivity].
  - repeat constructor; try discriminate; reflexivity.
  - reflexivity.
  - reflexivity.
Defined.

(** ** The normalizer *)

Lemma normalizeProduct_nonempty (x : jsstring) :
  x <> [] ->
  normalizeProduct x =
  match find (fun entry =>
                arrayIncludes (snd entry) (trim x)
                || includes (trim x) (fst entry)) mapping with
  | Some (key, _) => key
  | None => x
  end.
Proof. destruct x; [congruence | reflexivity]. Qed.

(** X7. Every variant listed for a product normalizes to that product,
    also with white space around it: no variant is caught by the entry of
    another product that comes earlier in the table. *)
Theorem listed_variants_normalize (key : jsstring) (variants : list jsstring)
        (v lead trail : jsstring) :
  In (key, variants) mapping -> In v variants ->
  allWs lead = true -> allWs trail = true ->
  normalizeProduct (lead ++ v ++ trail) = key.
Proof.
  intros Hm Hv Hl Ht.
  assert (G : forall c r,
             v = c :: r -> isWhiteSpace c = false -> endsClean v = true ->
             match find (fun entry =>
                           arrayIncludes (snd entry) v
                           || includes v (fst entry)) mapping with
             | Some (k, _) => k
             | None => lead ++ v ++ trail
             end = key ->
             normalizeProduct (lead ++ v ++ trail) = key).
  { intros c r E Hc He Hf.
    rewrite normalizeProduct_nonempty.
    - rewrite (trim_padded lead v trail c r E Hc He Hl Ht). exact Hf.
    - rewrite E. destruct lead; discriminate. }
  simpl in Hm.
  destruct Hm as [E | [E | [E | []]]]; inversion E; subst; clear E;
    simpl in Hv;
    repeat (destruct Hv as [<- | Hv];
            [eapply G; reflexivity|]);
    destruct Hv.
Qed.

Lemma listed_variants_normalize_witness :
  normalizeProduct ([32] ++ [44536; 47536] ++ [9])%N = NOKSAEK.
Proof.
  apply (listed_variants_normalize NOKSAEK
           (snd (nth 1 mapping ([], []))) [44536; 47536]%N [32]%N [9]%N).
  - right. left. reflexivity.
  - simpl. tauto.
  - reflexivity.
  - reflexivity.
Defined.

(** X8. A product text that contains one of the canonical names, after
    trimming, is always normalized to a canonical name; and whenever the
    result is not a canonical name it is the text itself, white space
    included. *)
Theorem normalizeProduct_recognition (x : jsstring) :
  ((exists key, In key productKeys /\ includes (trim x) key = true) ->
   In (normalizeProduct x) productKeys) /\
  (~ In (normalizeProduct x) productKeys -> normalizeProduct x = x).
Proof.
  split.
  - intros (key & Hk & Hinc).
    assert (Hx : x <> []).
    { intros ->. simpl in Hk.
      destruct Hk as [<- | [<- | [<- | []]]]; discriminate Hinc. }
    rewrite (normalizeProduct_nonempty x Hx).
    match goal with |- context [find ?f mapping] =>
      destruct (find f mapping) as [[k vs]|] eqn:E end.
    + apply find_some in E. destruct E as [E _].
      unfold productKeys. change k with (fst (k, vs)). apply in_map, E.
    + exfalso. unfold productKeys in Hk. apply in_map_iff in Hk.
      destruct Hk as ([k vs] & <- & Hin).
      pose proof (find_none _ _ E _ Hin) as Hf. simpl in Hf.
      simpl in Hinc. rewrite Hinc, orb_true_r in Hf. discriminate Hf.
  - intro Hn. destruct (normalizeProduct_cases x) as [E | H]; [exact E|].
    exfalso. apply Hn. exact H.
Qed.

Lemma normalizeProduct_recognition_witness :
  In (normalizeProduct ([50] ++ PARANG ++ [33])%N) productKeys.
Proof.
  apply (proj1 (normalizeProduct_recognition ([50] ++ PARANG ++ [33])%N)).
  exists PARANG. split; [right; right; left; reflexivity | reflexivity].
Defined.

(** ** The pipeline and the fallback *)

Lemma nullish_no_key (e : env) :
  config e = VNull \/ config e = VUndefined ->
  GEMINI_API_KEY e = Throw TypeError.
Proof. unfold GEMINI_API_KEY. intros [-> | ->]; reflexivity. Qed.

(** The three ways [aiParse] can go, by the settings. *)
Lemma aiParse_cases (e : env) (text : jsstring) :
  ((config e = VNull \/ config e = VUndefined) /\
   aiParse e text = (Throw TypeError, [])) \/
  (keyMissing e /\ aiParse e text = (Throw MissingApiKey, [])) \/
  (keyConfigured e /\
   exists r evs,
     aiParse e text = (Ok r, GenerateContent text :: evs) /\
     serviceCalls evs = 0%nat).
Proof.
  unfold aiParse, keyMissing, keyConfigured.
  destruct (GEMINI_API_KEY e) as [key|err] eqn:G.
  - right. destruct (truthy key) eqn:T; cbn [negb].
    + right. split; [exists key; split; [reflexivity | exact T]|].
      destruct (aiAttempt e text) as [r|err];
        do 2 eexists; split; reflexivity.
    + left. split; [exists key; split; [reflexivity | exact T]|].
      reflexivity.
  - left. unfold GEMINI_API_KEY in G.
    destruct (config e); try discriminate G;
      inversion G; subst; (split; [|reflexivity]); auto.
Qed.

(** X9. What [parseMessage] throws, and when: the missing-key error
    exactly when the fast path fails and the settings hold no key, a
    TypeError exactly when the fast path fails and the settings are [null],
    and nothing else; whatever it throws, it throws before calling the
    extraction service.  It calls the service at most once, and exactly
    once when the fast path fails and a key is configured. *)
Theorem parseMessage_outcome (e : env) (text : jsstring) :
  (fst (parseMessage e text) = Throw MissingApiKey <->
   fastParse text = None /\ keyMissing e) /\
  (fst (parseMessage e text) = Throw TypeError <->
   fastParse text = None /\ (config e = VNull \/ config e = VUndefined)) /\
  (forall err,
      fst (parseMessage e text) = Throw err ->
      (err = MissingApiKey \/ err = TypeError) /\
      serviceCalls (snd (parseMessage e text)) = 0%nat) /\
  (serviceCalls (snd (parseMessage e text)) = 1%nat <->
   fastParse text = None /\ keyConfigured e) /\
  (serviceCalls (snd (parseMessage e text)) <= 1)%nat.
Proof.
  assert (X1 : forall key, GEMINI_API_KEY e = Ok key ->
                           ~ (config e = VNull \/ config e = VUndefined)).
  { intros key G H. rewrite (nullish_no_key e H) in G. discriminate G. }
  assert (X2 : keyMissing e -> ~ keyConfigured e).
  { intros (k1 & G1 & T1) (k2 & G2 & T2). congruence. }
  unfold parseMessage, serviceCalls.
  destruct (fastParse text) as [lines|].
  - simpl.
    split; [split; [discriminate | intros [H _]; discriminate H]|].
    split; [split; [discriminate | intros [H _]; discriminate H]|].
    split; [intros err H; discriminate H|].
    split; [split; [discriminate | intros [H _]; discriminate H] | lia].
  - destruct (aiParse_cases e text)
      as [[Hn ->] | [[Hk ->] | [Hc (r & evs & -> & Hz)]]];
      unfold serviceCalls in *; simpl; try rewrite Hz.
    + split; [split; [discriminate|]|].
      { intros [_ (key & G & _)]. exfalso. exact (X1 key G Hn). }
      split; [split; auto|].
      split; [intros err H; inversion H; auto|].
      split; [|lia]. split; [discriminate|].
      intros [_ (key & G & _)]. exfalso. exact (X1 key G Hn).
    + split; [split; auto|].
      split; [split; [discriminate|]|].
      { intros [_ Hn]. destruct Hk as (key & G & _).
        exfalso. exact (X1 key G Hn). }
      split; [intros err H; inversion H; auto|].
      split; [|lia]. split; [discriminate|].
      intros [_ Hc]. exfalso. exact (X2 Hk Hc).
    + split; [split; [discriminate|]|].
      { intros [_ Hk]. exfalso. exact (X2 Hk Hc). }
      split; [split; [discriminate|]|].
      { intros [_ Hn]. destruct Hc as (key & G & _).
        exfalso. exact (X1 key G Hn). }
      split; [intros err H; discriminate H|].
      split; [|lia]. split; auto.
Qed.

Lemma lookup_setProp_same (k : jsstring) (v : jsval)
      (ps : list (jsstring * jsval)) :
  lookup k (setProp k v ps) = Some v.
Proof.
  induction ps as [|[k0 v0] r IH]; simpl.
  - rewrite eqs_refl. reflexivity.
  - destruct (eqs k k0) eqn:E; simpl; rewrite ?eqs_refl, ?E; auto.
Qed.

Lemma mapItem_none_iff (item : jsval) : mapItem item = None <-> badItem item.
Proof.
  unfold mapItem, badItem. split.
  - destruct (getProduct item) as [p|] eqn:G.
    + unfold normalizeProductAny.
      destruct (truthy p) eqn:T; simpl; [|discriminate].
      destruct p; try discriminate; intros _; right; right;
        eexists; (split; [reflexivity|]); (split; [exact T|]);
        intros str; discriminate.
    + intros _. destruct item; auto; try discriminate G.
      unfold getProduct in G.
      destruct (lookup (lit "product") props); discriminate G.
  - intros [-> | [-> | (p & G & T & Hs)]]; try reflexivity.
    rewrite G. unfold normalizeProductAny. rewrite T. simpl.
    destruct p; try reflexivity. exfalso. eapply Hs. reflexivity.
Qed.

Lemma mapItems_none_iff (items : list jsval) :
  mapItems items = None <-> exists item, In item items /\ badItem item.
Proof.
  induction items as [|item items IH]; simpl.
  - split; [discriminate | intros (x & [] & _)].
  - destruct (mapItem item) as [o|] eqn:E.
    + destruct (mapItems items) as [os|].
      * split; [discriminate|]. intros (x & [<- | Hin] & Hb).
        -- apply mapItem_none_iff in Hb. congruence.
        -- assert (C : Some os = None) by (apply IH; eauto).
           discriminate C.
      * split; [|reflexivity]. intros _.
        destruct (proj1 IH eq_refl) as (x & Hin & Hb). eauto.
    + split; [|reflexivity]. intros _. exists item.
      split; [left; reflexivity | apply mapItem_none_iff, E].
Qed.

(** X10. When the service's answer decodes to an array without a bad
    element, [aiParse] returns one object per element, in order; each has
    the element's product replaced by its normalization (a falsy product
    is left as it is) and every other property as the element had it. *)
Theorem aiParse_normalizes_products (e : env) (text raw : jsstring)
        (items : list jsval) :
  keyConfigured e ->
  generateContent e text = Some raw ->
  JSON_parse e (trim (stripFences raw 0)) = Some (VArr items) ->
  Forall (fun item => ~ badItem item) items ->
  exists r,
    aiParse e text = (Ok r, [GenerateContent text]) /\
    Forall2 (fun item o =>
               exists props p p',
                 o = VObj props /\
                 getProduct item = Some p /\
                 normalizeProductAny p = Some p' /\
                 lookup (lit "product") props = Some p' /\
                 forall k, eqs k (lit "product") = false ->
                           lookup k props = lookup k (spread item))
            items r.
Proof.
  intros Hk Hg Hj Hgood.
  assert (Hm : exists r, mapItems items = Some r).
  { destruct (mapItems items) as [r|] eqn:E; [eauto|].
    apply mapItems_none_iff in E. destruct E as (x & Hin & Hb).
    rewrite Forall_forall in Hgood. exfalso. exact (Hgood x Hin Hb). }
  destruct Hm as [r Hm]. exists r. split.
  - unfold aiParse. destruct Hk as (key & -> & ->). cbn [negb].
    unfold aiAttempt. rewrite Hg, Hj, Hm. reflexivity.
  - clear -Hm. revert r Hm.
    induction items as [|item items IH]; intros r Hm; simpl in Hm.
    + inversion Hm. constructor.
    + destruct (mapItem item) as [o|] eqn:Eo; [|discriminate].
      destruct (mapItems items) as [os|]; [|discriminate].
      inversion Hm; subst. constructor; [|apply IH; reflexivity].
      unfold mapItem in Eo.
      destruct (getProduct item) as [p|] eqn:Eg; [|discriminate].
      destruct (normalizeProductAny p) as [p'|] eqn:En; [|discriminate].
      exists (setProp (lit "product") p' (spread item)), p, p'.
      split; [inversion Eo; reflexivity|].
      split; [reflexivity|]. split; [exact En|].
      split; [apply lookup_setProp_same|].
      intros k Hne. apply lookup_setProp_other, Hne.
Qed.

Lemma aiParse_normalizes_products_witness :
  exists r, aiParse envFenced (lit "two big for acme")
            = (Ok r, [GenerateContent (lit "two big for acme")]).
Proof.
  destruct (aiParse_normalizes_products envFenced (lit "two big for acme")
              (lit "```json [1] ```")
              [VObj [(lit "company", VStr (lit "acme"));
                     (lit "product", VStr (lit "big"));
                     (lit "count", VNum (Int 2))]])
    as (r & Hr & _).
  - exists (VStr (lit "key")). split; reflexivity.
  - reflexivity.
  - reflexivity.
  - constructor; [|constructor].
    intros [H | [H | (p & G & T & Hs)]]; try discriminate.
    inversion G; subst. eapply Hs. reflexivity.
  - exists r. exact Hr.
Defined.

(** X11. One bad element voids the whole answer: if the decoded array
    holds a [null], or an element whose product is truthy and not a
    string, [aiParse] logs a TypeError and returns the empty list, whatever
    the other elements are. *)
Theorem aiParse_bad_item_voids_all (e : env) (text raw : jsstring)
        (items : list jsval) :
  keyConfigured e ->
  generateContent e text = Some raw ->
  JSON_parse e (trim (stripFences raw 0)) = Some (VArr items) ->
  (exists item, In item items /\ badItem item) ->
  aiParse e text = (Ok [], [GenerateContent text; ConsoleError TypeError]).
Proof.
  intros Hk Hg Hj Hbad. apply mapItems_none_iff in Hbad.
  unfold aiParse. destruct Hk as (key & -> & ->). cbn [negb].
  unfold aiAttempt. rewrite Hg, Hj, Hbad. reflexivity.
Qed.

Lemma aiParse_bad_item_voids_all_witness :
  aiParse envNumberProduct (lit "two big for acme")
  = (Ok [], [GenerateContent (lit "two big for acme"); ConsoleError TypeError]).
Proof.
  eapply (aiParse_bad_item_voids_all envNumberProduct).
  - exists (VStr (lit "key")). split; reflexivity.
  - reflexivity.
  - reflexivity.
  - eexists. split; [right; left; reflexivity|].
    right. right. exists (VNum (Int 7)).
    split; [reflexivity|]. split; [reflexivity|]. intros str; discriminate.
Defined.

(** ** Code fences *)

Lemma stripFences_miss (c : N) (r : jsstring) :
  N.eqb c 96 = false -> stripFences (c :: r) 0 = c :: stripFences r 0.
Proof.
  intro H.
  assert (F : forall p, startsWith (c :: r) (96%N :: p) = false).
  { intro p.
    change (startsWith (c :: r) (96%N :: p))
      with (N.eqb 96 c && startsWith r p).
    rewrite N.eqb_sym, H. reflexivity. }
  change (stripFences (c :: r) 0)
    with (if startsWith (c :: r) (96%N :: lit "``json") then stripFences r 6
          else if startsWith (c :: r) (96%N :: lit "``") then stripFences r 2
          else c :: stripFences r 0).
  rewrite !F. reflexivity.
Qed.

Lemma stripFences_plain (s : jsstring) :
  noBacktick s = true -> stripFences s 0 = s.
Proof.
  induction s as [|c r IH]; intro H; [reflexivity|].
  simpl in H. apply andb_true_iff in H. destruct H as [Hc Hr].
  apply negb_true_iff in Hc.
  rewrite (stripFences_miss c r Hc), (IH Hr). reflexivity.
Qed.

Lemma stripFences_closing (s : jsstring) :
  noBacktick s = true -> stripFences (s ++ FENCE) 0 = s.
Proof.
  induction s as [|c r IH]; intro H; [reflexivity|].
  simpl in H. apply andb_true_iff in H. destruct H as [Hc Hr].
  apply negb_true_iff in Hc.
  change ((c :: r) ++ FENCE) with (c :: (r ++ FENCE)).
  rewrite (stripFences_miss c _ Hc), (IH Hr). reflexivity.
Qed.

Lemma startsWith_nil (s : jsstring) : startsWith s [] = true.
Proof. destruct s; reflexivity. Qed.

Lemma stripFences_opening (s : jsstring) :
  stripFences (FENCE_JSON ++ s) 0 = stripFences s 0.
Proof. unfold FENCE_JSON. simpl. rewrite startsWith_nil. reflexivity. Qed.

(** X12. Stripping the code fences gives back what they enclose: an answer
    without a backtick is left as it is, and the same answer between
    [```json] and [```] comes out identical, so both are decoded alike. *)
Theorem stripFences_unwraps (body : jsstring) :
  noBacktick body = true ->
  stripFences body 0 = body /\
  stripFences (FENCE_JSON ++ body ++ FENCE) 0 = body.
Proof.
  intro H. split; [apply stripFences_plain, H|].
  rewrite stripFences_opening. apply stripFences_closing, H.
Qed.

Lemma stripFences_unwraps_witness :
  stripFences (FENCE_JSON ++ lit "[1, 2]" ++ FENCE) 0 = lit "[1, 2]".
Proof.
  apply (proj2 (stripFences_unwraps (lit "[1, 2]") eq_refl)).
Defined.

End ParserMore.

(* ================================================================== *)
(** * Further properties of the sheet synchroniser *)
(* ================================================================== *)

Module SheetMore.
Import JS GoogleSheets SheetVocabulary SheetTerms JSFacts SheetFacts.
Local Open Scope js_scope.

Lemma existsb_titles (name : jsstring) (ss : list sheet) :
  existsb (fun s => eqs (snd s) name) (map (fun s => (sheetId s, title s)) ss)
  = existsb (hasTitle name) ss.
Proof. induction ss as [|s ss IH]; simpl; [reflexivity | rewrite IH; reflexivity]. Qed.

Lemma existsb_false_all (name : jsstring) (ss : list sheet) :
  existsb (hasTitle name) ss = false ->
  forall x, In x ss -> hasTitle name x = false.
Proof.
  intros H x Hx. destruct (hasTitle name x) eqn:E; [|reflexivity].
  assert (existsb (hasTitle name) ss = true) by (apply existsb_exists; eauto).
  congruence.
Qed.

Section Served.

Variable e : env.
Hypothesis Hcred : credentials e = true.
Hypothesis Hfault : faultFree e.

Lemma ensureSheetExists_run (name : jsstring) (w : world) :
  exists w',
    ensureSheetExists e name w = (Ok tt, w') /\
    sheets w' = ensuredStore e name (sheets w) /\
    length (calls w') =
    (length (calls w) + if existsb (hasTitle name) (sheets w) then 1 else 3)%nat.
Proof.
  unfold ensureSheetExists. rewrite bind_log.
  rewrite (getSheetsClient_ok e Hcred), bind_log.
  unfold catch, bind at 1, spreadsheets_get.
  rewrite (send_served e Hfault). cbn [fst snd sheets calls console].
  rewrite existsb_titles. unfold ensuredStore.
  destruct (existsb (hasTitle name) (sheets w)) eqn:Ex; cbn [negb].
  - eexists. split; [reflexivity|]. split; [reflexivity|].
    cbn [calls]. rewrite length_app. reflexivity.
  - rewrite bind_log. unfold bind at 1, addSheet.
    rewrite (send_served e Hfault). cbn [fst snd sheets calls console].
    rewrite Ex. cbn [fst snd]. rewrite bind_log.
    unfold bind at 1, values_update_header.
    rewrite (send_served e Hfault). cbn [fst snd sheets calls console].
    rewrite updateFirst_split;
      [| apply existsb_false_all, Ex | apply eqs_refl].
    cbn [fst snd]. eexists. split; [reflexivity|]. split; [reflexivity|].
    cbn [calls]. rewrite !length_app. simpl. lia.
Qed.

End Served.

(** X13. On a back end that serves every request, [ensureSheetExists]
    succeeds; it leaves the spreadsheet as it is when a tab of that title
    exists, and otherwise adds one tab at the end, holding the header row
    only.  It is idempotent: a second call changes nothing. *)
Theorem ensureSheetExists_effect (e : env) (name : jsstring) (w : world) :
  credentials e = true -> faultFree e ->
  exists w',
    ensureSheetExists e name w = (Ok tt, w') /\
    sheets w' =
      (if existsb (hasTitle name) (sheets w) then sheets w
       else sheets w ++ [ {| sheetId := freshSheetId e (sheets w);
                             title := name; rows := [HEADER] |} ]) /\
    exists w'',
      ensureSheetExists e name w' = (Ok tt, w'') /\ sheets w'' = sheets w'.
Proof.
  intros Hc Hf.
  destruct (ensureSheetExists_run e Hc Hf name w) as (w' & Hrun & Hs & _).
  exists w'. split; [exact Hrun|]. split; [exact Hs|].
  destruct (ensureSheetExists_run e Hc Hf name w') as (w'' & Hrun' & Hs' & _).
  exists w''. split; [exact Hrun'|].
  rewrite Hs'. unfold ensuredStore.
  assert (Hex : existsb (hasTitle name) (sheets w') = true).
  { rewrite Hs. unfold ensuredStore.
    destruct (existsb (hasTitle name) (sheets w)) eqn:Ex; [exact Ex|].
    rewrite existsb_app. simpl. unfold hasTitle at 2. simpl.
    rewrite eqs_refl. apply orb_true_r. }
  rewrite Hex. reflexivity.
Qed.

Lemma ensureSheetExists_effect_witness :
  exists w',
    ensureSheetExists envPlain (lit "zenith") sampleWorld = (Ok tt, w') /\
    sheets w' = sampleStore ++ [ {| sheetId := 2; title := lit "zenith";
                                    rows := [HEADER] |} ].
Proof.
  destruct (ensureSheetExists_effect envPlain (lit "zenith") sampleWorld)
    as (w' & Hrun & Hs & _).
  - reflexivity.
  - exact faultFree_envPlain.
  - exists w'. split; [exact Hrun | exact Hs].
Defined.

(** X14. Whatever goes wrong inside [ensureSheetExists], its caller sees
    one of four errors: the credential error, the permission error (for a
    request refused with status 403), the not-found error (status 404), or
    a sheet error wrapping any other cause; a raw back-end error never
    escapes. *)
Theorem ensureSheetExists_errors (e : env) (name : jsstring) (w w' : world)
        (err : error) :
  ensureSheetExists e name w = (Throw err, w') ->
  err = CredentialError \/
  (err = NoPermission /\ In (Error (ApiError 403)) (console w')) \/
  (err = NotFound /\ In (Error (ApiError 404)) (console w')) \/
  exists cause,
    err = SheetError cause /\ cause <> ApiError 403 /\
    cause <> ApiError 404 /\ In (Error cause) (console w').
Proof.
  unfold ensureSheetExists. rewrite bind_log. unfold getSheetsClient.
  destruct (serviceAccountKey e);
    [ unfold bind, throw; intro H; inversion H; left; reflexivity
    | unfold bind, throw, log; intro H; inversion H; left; reflexivity
    | ].
  - rewrite bind_log. unfold catch.
    match goal with |- context [?m ?w0] =>
      match m with bind (spreadsheets_get e) _ =>
        destruct (m w0) as [[[]|cause] w1] end end;
      [discriminate|].
    unfold bind, log. cbv beta iota.
    assert (Hin : forall c, In (Error c) (console w1 ++ [Error c]))
      by (intro c; apply in_or_app; right; left; reflexivity).
    destruct cause as [|code| | | |c0];
      try (intro H; inversion H; subst; right; right; right; eexists;
           (split; [reflexivity|]); (split; [discriminate|]);
           (split; [discriminate | apply Hin])).
    destruct code as [|p|p];
      try (intro H; inversion H; subst; right; right; right; eexists;
           (split; [reflexivity|]); (split; [discriminate|]);
           (split; [discriminate | apply Hin])).
    do 9 (destruct p as [p|p|];
          try (intro H; inversion H; subst; right; right; right; eexists;
               (split; [reflexivity|]); (split; [discriminate|]);
               (split; [discriminate | apply Hin]));
          try (intro H; inversion H; subst; right; left;
               split; [reflexivity | apply Hin]);
          try (intro H; inversion H; subst; right; right; left;
               split; [reflexivity | apply Hin])).
Qed.

Lemma ensureSheetExists_errors_witness :
  fst (ensureSheetExists (envRefusing 403) (lit "zenith") sampleWorld)
  = Throw NoPermission.
Proof.
  destruct (ensureSheetExists_errors (envRefusing 403) (lit "zenith")
              sampleWorld
              (snd (ensureSheetExists (envRefusing 403) (lit "zenith")
                      sampleWorld))
              NoPermission eq_refl)
    as [H | [[H _] | [[H _] | (c & H & _)]]]; try discriminate H.
  reflexivity.
Defined.

(** X15. [appendData] and [ensureSheetExists] only add, whatever the back
    end refuses along the way: afterwards every tab that existed is still
    there, in place, with the same identifier and title and with its
    former rows unchanged at the top; anything new is rows below them or
    tabs after them. *)
Theorem appendData_only_adds (e : env) (dataList : list item)
        (name : jsstring) (w : world) :
  extendsStore (sheets w) (sheets (snd (appendData e dataList w))) /\
  extendsStore (sheets w) (sheets (snd (ensureSheetExists e name w))).
Proof.
  split; [apply extending_appendData | apply extending_ensureSheetExists].
Qed.



(** ** [deleteData] on a back end that may fail *)

Lemma subseq_refl {A} (l : list A) : subseq l l.
Proof.
  induction l; [apply subseq_nil | apply subseq_keep; assumption].
Qed.

Lemma subseq_filter {A} (p : A -> bool) (l : list A) : subseq (filter p l) l.
Proof.
  induction l as [|x l IH]; simpl; [apply subseq_nil|].
  destruct (p x); [apply subseq_keep | apply subseq_skip]; exact IH.
Qed.

Lemma subseq_app {A} (a a' b b' : list A) :
  subseq a a' -> subseq b b' -> subseq (a ++ b) (a' ++ b').
Proof.
  intros Ha Hb. induction Ha; simpl;
    [exact Hb | apply subseq_skip | apply subseq_keep]; assumption.
Qed.

Lemma subseq_insert {A} (x : A) (a b : list A) :
  forall l, subseq l (a ++ b) -> subseq l (a ++ x :: b).
Proof.
  induction a as [|y a IH]; intros l H; simpl in *.
  - apply subseq_skip. exact H.
  - inversion H; subst; [apply subseq_skip | apply subseq_keep];
      apply IH; assumption.
Qed.

Lemma subseq_In {A} (l1 l2 : list A) (x : A) :
  subseq l1 l2 -> In x l1 -> In x l2.
Proof.
  induction 1; simpl; auto.
  intros [<- | H']; auto.
Qed.

Lemma prunedSheet_refl (e : env) (ts : jsstring) (s : sheet) :
  prunedSheet e ts s s.
Proof.
  repeat split; [apply subseq_filter | apply subseq_refl].
Qed.

Lemma Forall2_pruned_refl (e : env) (ts : jsstring) (ss : list sheet) :
  Forall2 (prunedSheet e ts) ss ss.
Proof. induction ss; constructor; auto using prunedSheet_refl. Qed.

Section AnyBackEnd.

Variable e : env.

Lemma deleteDimension_any (i : nat) (w : world) (done : list sheet)
      (s : sheet) (todo : list sheet) :
  sheets w = done ++ s :: todo ->
  (forall x, In x done -> sheetId x <> sheetId s) ->
  (exists err w1,
      deleteDimension e (sheetId s) i w = (Throw err, w1) /\
      sheets w1 = sheets w) \/
  (exists w1,
      deleteDimension e (sheetId s) i w = (Ok tt, w1) /\
      sheets w1 = done ++ withRows s (removeAt i (rows s)) :: todo).
Proof.
  intros Hs Hd. unfold deleteDimension, send.
  destruct (fault e (sheets w) (calls w) (DeleteDimension (sheetId s) i)).
  - left. eexists _, _. split; reflexivity.
  - right. rewrite Hs, updateFirst_split;
      [| intros x Hx; apply Z.eqb_neq, Hd, Hx | apply Z.eqb_refl].
    eexists. split; reflexivity.
Qed.

Lemma values_get_any (w : world) (done : list sheet) (s : sheet)
      (todo : list sheet) :
  sheets w = done ++ s :: todo ->
  (forall x, In x done -> title x <> title s) ->
  (exists err w1,
      values_get e (title s) w = (Throw err, w1) /\ sheets w1 = sheets w) \/
  values_get e (title s) w =
  (Ok (match rows s with [] => None | rs => Some rs end),
   {| sheets := sheets w; calls := calls w ++ [ValuesGet (title s)];
      console := console w |}).
Proof.
  intros Hs Hd. unfold values_get, send.
  destruct (fault e (sheets w) (calls w) (ValuesGet (title s))).
  - left. eexists _, _. split; reflexivity.
  - right. rewrite Hs at 1. rewrite find_split;
      [reflexivity | intros x Hx; apply eqs_neq, Hd, Hx | apply eqs_refl].
Qed.

Lemma scanRows_any (ts : jsstring) (snap : list (list cell)) :
  forall n X w done s todo,
    (n <= length snap)%nat ->
    sheets w = done ++ s :: todo ->
    (forall x, In x done -> sheetId x <> sheetId s) ->
    rows s = firstn n snap ++ X ->
    exists R,
      sheets (snd (scanRows e (trim ts) (sheetId s) snap n w))
      = done ++ withRows s R :: todo /\
      subseq (filter (fun r => negb (deletable e ts r)) (firstn n snap) ++ X) R /\
      subseq R (firstn n snap ++ X).
Proof.
  induction n as [|i IH]; intros X w done s todo Hn Hs Hd Hr.
  - exists (rows s). simpl. rewrite withRows_rows. split; [exact Hs|].
    simpl in Hr. rewrite Hr. split; apply subseq_refl.
  - rewrite (firstn_snoc [] snap i) in * by lia.
    set (cur := nth i snap []) in *.
    rewrite filter_app. simpl filter.
    assert (Hkeep :
       forall w0, sheets w0 = sheets w ->
       deletable e ts cur = false ->
       exists R,
         sheets (snd (scanRows e (trim ts) (sheetId s) snap i w0))
         = done ++ withRows s R :: todo /\
         subseq ((filter (fun r => negb (deletable e ts r)) (firstn i snap)
                  ++ (if negb (deletable e ts cur) then [cur] else [])) ++ X) R /\
         subseq R ((firstn i snap ++ [cur]) ++ X)).
    { intros w0 Hw0 Hk. rewrite Hk. simpl negb. cbv iota.
      rewrite <- !app_assoc. simpl app.
      apply IH; auto; try lia.
      - rewrite Hw0. exact Hs.
      - rewrite Hr, <- app_assoc. reflexivity. }
    simpl scanRows. fold cur.
    destruct (findIndex (cellMatches e (trim ts)) cur) as [m|] eqn:Ef.
    + assert (Hm : rowMatches e ts cur = true).
      { unfold rowMatches.
        destruct (existsb (cellMatches e (trim ts)) cur) eqn:Ex;
          [reflexivity|].
        apply findIndex_none in Ex. congruence. }
      destruct (isProtected e cur) eqn:Ep.
      * rewrite bind_log. apply Hkeep; [reflexivity|].
        unfold deletable. rewrite Hm, Ep. reflexivity.
      * rewrite bind_log. unfold bind at 1.
        assert (Hdel : deletable e ts cur = true).
        { unfold deletable. rewrite Hm, Ep. reflexivity. }
        rewrite Hdel. simpl negb. cbv iota. rewrite app_nil_r.
        rewrite <- app_assoc. simpl app.
        match goal with
        | |- context [deleteDimension e (sheetId s) i ?w0] =>
            destruct (deleteDimension_any i w0 done s todo Hs Hd)
              as [(err & w1 & Hrun & Hw1) | (w1 & Hrun & Hw1)]
        end; rewrite Hrun.
        -- exists (rows s). simpl snd. rewrite Hw1. simpl sheets.
           rewrite withRows_rows. split; [exact Hs|].
           rewrite Hr, <- app_assoc. simpl app. split.
           ++ apply subseq_app; [apply subseq_filter|].
              apply subseq_skip, subseq_refl.
           ++ apply subseq_refl.
        -- assert (Hrm : removeAt i (rows s) = firstn i snap ++ X).
           { pose proof (removeAt_app (firstn i snap) cur X) as R.
             rewrite firstn_length_le in R by lia.
             rewrite Hr, <- app_assoc. exact R. }
           rewrite Hrm in Hw1.
           destruct (IH X w1 done (withRows s (firstn i snap ++ X)) todo)
             as (R & HR & Hlo & Hhi); auto; try lia.
           exists R. split; [exact HR|]. split; [exact Hlo|].
           apply subseq_insert, Hhi.
    + apply Hkeep; [reflexivity|].
      unfold deletable, rowMatches.
      apply findIndex_none in Ef. rewrite Ef. reflexivity.
Qed.

Lemma forEach_scan_any (ts : jsstring) :
  forall todo done w,
    sheets w = done ++ todo ->
    wfStore (done ++ todo) ->
    exists todo',
      sheets (snd (forEach (map (fun s => (sheetId s, title s)) todo)
                     (fun sheet =>
                        response <- values_get e (snd sheet) ;;
                        match response with
                        | None => ret tt
                        | Some rows =>
                            scanRows e (trim ts) (fst sheet) rows (length rows)
                        end) w))
      = done ++ todo' /\
      Forall2 (prunedSheet e ts) todo todo'.
Proof.
  induction todo as [|s todo IH]; intros done w Hs Hwf.
  - exists []. split; [exact Hs | constructor].
  - simpl map. simpl forEach. unfold bind at 1. unfold bind at 1. simpl snd.
    destruct Hwf as [Hid Htitle].
    destruct (values_get_any w done s todo Hs
                (NoDup_map_split title done s todo Htitle))
      as [(err & w0 & Hget & Hw0) | Hget]; rewrite Hget.
    { exists (s :: todo). split; [simpl; rewrite Hw0; exact Hs|].
      apply Forall2_pruned_refl. }
    cbv beta iota.
    set (w1 := {| sheets := sheets w;
                  calls := calls w ++ [ValuesGet (title s)];
                  console := console w |}).
    destruct (rows s) as [|r rs] eqn:Er.
    + destruct (IH (done ++ [s]) w1) as (todo' & Hrun & HF).
      * simpl. rewrite Hs, <- app_assoc. reflexivity.
      * rewrite <- app_assoc. split; assumption.
      * exists (s :: todo'). split.
        -- unfold ret at 1. cbv beta iota. rewrite Hrun, <- app_assoc.
           reflexivity.
        -- constructor; [apply prunedSheet_refl | exact HF].
    + destruct (scanRows_any ts (r :: rs) (length (r :: rs)) [] w1 done s todo)
        as (R & HR & Hlo & Hhi); auto.
      * apply NoDup_map_split with (todo := todo). exact Hid.
      * rewrite firstn_all, app_nil_r. exact Er.
      * rewrite firstn_all, !app_nil_r in *.
        assert (Hp : prunedSheet e ts s (withRows s R)).
        { repeat split; simpl; rewrite Er; assumption. }
        destruct (scanRows e (trim ts) (sheetId s) (r :: rs)
                    (length (r :: rs)) w1) as [[[]|err] w2] eqn:Escan;
          simpl in HR.
        -- destruct (IH (done ++ [withRows s R]) w2) as (todo' & Hrun & HF).
           ++ rewrite HR, <- app_assoc. reflexivity.
           ++ apply wfStore_step. split; assumption.
           ++ exists (withRows s R :: todo'). split.
              ** rewrite Hrun, <- app_assoc. reflexivity.
              ** constructor; assumption.
        -- exists (withRows s R :: todo). split; [exact HR|].
           constructor; [exact Hp | apply Forall2_pruned_refl].
Qed.

End AnyBackEnd.

(** X16. Whatever the back end refuses and wherever [deleteData] stops,
    it has only taken deletable rows out: every tab is still there with
    its identifier and title, its rows are rows it had, in the same order,
    and every row that does not match the timestamp or is protected by a
    remark is still in it. *)
Theorem deleteData_only_prunes (e : env) (ts : jsstring) (w : world) :
  wfStore (sheets w) ->
  Forall2 (fun s s' =>
             prunedSheet e ts s s' /\
             forall row, In row (rows s) ->
                         rowMatches e ts row = false \/
                         isProtected e row = true ->
                         In row (rows s'))
          (sheets w) (sheets (snd (deleteData e ts w))).
Proof.
  intro Hwf.
  assert (H : Forall2 (prunedSheet e ts) (sheets w)
                      (sheets (snd (deleteData e ts w)))).
  { unfold deleteData, getSheetsClient.
    destruct (serviceAccountKey e);
      [apply Forall2_pruned_refl | apply Forall2_pruned_refl |].
    rewrite bind_log. unfold bind at 1, spreadsheets_get, send.
    cbn [sheets calls console].
    destruct (fault e (sheets w) _ SpreadsheetsGet);
      [apply Forall2_pruned_refl|].
    cbv beta iota. rewrite bind_log.
    match goal with |- context [forEach ?l ?f ?w0] =>
      destruct (forEach_scan_any e ts (sheets w) [] w0)
        as (todo' & Hrun & HF) end; [reflexivity | exact Hwf |].
    rewrite Hrun. exact HF. }
  clear Hwf. induction H as [|s s' ss ss' Hp _ IH]; constructor; [|exact IH].
  split; [exact Hp|]. intros row Hin Hk.
  destruct Hp as (_ & _ & Hlo & _).
  apply (subseq_In _ _ row Hlo). apply filter_In. split; [exact Hin|].
  apply deletable_false, Hk.
Qed.

Lemma deleteData_only_prunes_witness :
  Forall2 (prunedSheet (envRefusing 500) TS1)
          sampleStore
          (sheets (snd (deleteData (envRefusing 500) TS1 sampleWorld))).
Proof.
  pose proof (deleteData_only_prunes (envRefusing 500) TS1 sampleWorld
                wfStore_sampleStore) as H.
  eapply Forall2_impl; [|exact H]. intros a b [Hp _]. exact Hp.
Defined.

(** ** Deleting twice *)

Lemma filter_idem {A} (p : A -> bool) (l : list A) :
  filter p (filter p l) = filter p l.
Proof.
  induction l as [|x l IH]; simpl; [reflexivity|].
  destruct (p x) eqn:E; simpl; rewrite ?E, IH; reflexivity.
Qed.

Lemma afterDelete_idem (e : env) (ts : jsstring) (ss : list sheet) :
  afterDelete e ts (afterDelete e ts ss) = afterDelete e ts ss.
Proof.
  unfold afterDelete. rewrite map_map. apply map_ext. intro s.
  unfold withRows. simpl. rewrite filter_idem. reflexivity.
Qed.

Lemma wfStore_afterDelete (e : env) (ts : jsstring) (ss : list sheet) :
  wfStore ss -> wfStore (afterDelete e ts ss).
Proof.
  unfold wfStore, afterDelete. rewrite !map_map. simpl. tauto.
Qed.

(** X17. [deleteData] is idempotent on a back end that serves every
    request: run again with the same timestamp right after, it succeeds
    and leaves the spreadsheet as the first run left it. *)
Theorem deleteData_idempotent (e : env) (ts : jsstring) (w : world) :
  credentials e = true -> faultFree e -> wfStore (sheets w) ->
  exists w1 w2,
    deleteData e ts w = (Ok tt, w1) /\
    deleteData e ts w1 = (Ok tt, w2) /\
    sheets w2 = sheets w1.
Proof.
  intros Hc Hf Hwf.
  destruct (deleteData_run e Hc Hf ts w Hwf) as (w1 & H1 & S1).
  assert (Hwf1 : wfStore (sheets w1))
    by (rewrite S1; apply wfStore_afterDelete, Hwf).
  destruct (deleteData_run e Hc Hf ts w1 Hwf1) as (w2 & H2 & S2).
  exists w1, w2. split; [exact H1|]. split; [exact H2|].
  rewrite S2, S1. apply afterDelete_idem.
Qed.

Lemma deleteData_idempotent_witness :
  exists w1 w2,
    deleteData envPlain TS1 sampleWorld = (Ok tt, w1) /\
    deleteData envPlain TS1 w1 = (Ok tt, w2) /\
    sheets w2 = sheets w1.
Proof.
  apply (deleteData_idempotent envPlain TS1 sampleWorld).
  - reflexivity.
  - exact faultFree_envPlain.
  - exact wfStore_sampleStore.
Defined.

(** ** What [appendData] writes *)

Lemma updateFirst_some (p : sheet -> bool) (f : sheet -> sheet)
      (ss : list sheet) :
  existsb p ss = true -> exists ss', updateFirst p f ss = Some ss'.
Proof.
  induction ss as [|s ss IH]; simpl; [discriminate|].
  destruct (p s); [eauto|]. simpl. intro H.
  destruct (IH H) as [ss' ->]. eauto.
Qed.

Lemma updateFirst_keeps (p : sheet -> bool) (f : sheet -> sheet)
      (ss ss' : list sheet) :
  (forall s, sheetId (f s) = sheetId s /\ title (f s) = title s) ->
  updateFirst p f ss = Some ss' ->
  map sheetId ss' = map sheetId ss /\ map title ss' = map title ss.
Proof.
  intro Hf. revert ss'; induction ss as [|s ss IH]; intros ss' H; simpl in H.
  - discriminate.
  - destruct (p s).
    + inversion H; subst. simpl. destruct (Hf s) as [-> ->]. auto.
    + destruct (updateFirst p f ss) as [r|]; [|discriminate].
      inversion H; subst. simpl. destruct (IH r eq_refl) as [-> ->]. auto.
Qed.

Lemma appendRowTo_keeps (name : jsstring) (cells : list cell)
      (ss : list sheet) :
  map sheetId (appendRowTo name cells ss) = map sheetId ss /\
  map title (appendRowTo name cells ss) = map title ss.
Proof.
  unfold appendRowTo.
  destruct (updateFirst _ _ ss) as [ss'|] eqn:E; [|auto].
  eapply updateFirst_keeps; [|exact E]. intro s. split; reflexivity.
Qed.

Lemma existsb_by_titles (name : jsstring) (ss : list sheet) :
  existsb (hasTitle name) ss = existsb (fun t => eqs t name) (map title ss).
Proof.
  induction ss as [|s ss IH]; simpl; [reflexivity|]. rewrite IH. reflexivity.
Qed.

Lemma appendRowTo_titles (n name : jsstring) (cells : list cell)
      (ss : list sheet) :
  existsb (hasTitle n) (appendRowTo name cells ss) = existsb (hasTitle n) ss.
Proof.
  rewrite !existsb_by_titles.
  rewrite (proj2 (appendRowTo_keeps name cells ss)). reflexivity.
Qed.

Lemma ensuredStore_has (e : env) (name : jsstring) (ss : list sheet) :
  existsb (hasTitle name) (ensuredStore e name ss) = true.
Proof.
  unfold ensuredStore.
  destruct (existsb (hasTitle name) ss) eqn:Ex; [exact Ex|].
  rewrite existsb_app. simpl. unfold hasTitle at 2. simpl.
  rewrite eqs_refl. apply orb_true_r.
Qed.

Lemma ensuredStore_still_has (e : env) (n name : jsstring) (ss : list sheet) :
  existsb (hasTitle n) ss = true ->
  existsb (hasTitle n) (ensuredStore e name ss) = true.
Proof.
  intro H. unfold ensuredStore.
  destruct (existsb (hasTitle name) ss); [exact H|].
  rewrite existsb_app, H. reflexivity.
Qed.

Lemma appendItemTo_still_has (e : env) (first n : jsstring)
      (acc : list sheet * nat) (it : item) :
  existsb (hasTitle n) (fst acc) = true ->
  existsb (hasTitle n) (fst (appendItemTo e first acc it)) = true.
Proof.
  intro H. unfold appendItemTo. cbn [fst].
  rewrite appendRowTo_titles. apply ensuredStore_still_has.
  rewrite appendRowTo_titles. exact H.
Qed.

Lemma totalRows_app (a b : list sheet) :
  totalRows (a ++ b) = (totalRows a + totalRows b)%nat.
Proof.
  induction a as [|s a IH]; simpl; [reflexivity|].
  unfold totalRows in *. simpl. rewrite IH. lia.
Qed.

Lemma totalRows_appendRowTo (name : jsstring) (cells : list cell)
      (ss : list sheet) :
  existsb (hasTitle name) ss = true ->
  totalRows (appendRowTo name cells ss) = S (totalRows ss) /\
  length (appendRowTo name cells ss) = length ss.
Proof.
  unfold appendRowTo. induction ss as [|s ss IH]; simpl; [discriminate|].
  destruct (hasTitle name s); simpl.
  - intros _. unfold totalRows. simpl. rewrite length_app. simpl.
    split; [lia | reflexivity].
  - intro H. destruct (IH H) as [IHr IHl].
    destruct (updateFirst _ _ ss) as [r|].
    + unfold totalRows in *. simpl in *. split; lia.
    + unfold totalRows in *. simpl in *. lia.
Qed.

Lemma totalRows_ensuredStore (e : env) (name : jsstring) (ss : list sheet) :
  (totalRows (ensuredStore e name ss) + length ss
   = totalRows ss + length (ensuredStore e name ss))%nat /\
  (length ss <= length (ensuredStore e name ss))%nat.
Proof.
  unfold ensuredStore. destruct (existsb (hasTitle name) ss); [lia|].
  rewrite totalRows_app, length_app. unfold totalRows at 2. simpl. lia.
Qed.

Section Writing.

Variable e : env.
Hypothesis Hcred : credentials e = true.
Hypothesis Hfault : faultFree e.

Lemma values_append_run (name : jsstring) (values : list jsval) (w : world) :
  existsb (hasTitle name) (sheets w) = true ->
  values_append e name values w =
  (Ok tt,
   {| sheets := appendRowTo name (map (userEntered e) values) (sheets w);
      calls := calls w ++ [ValuesAppend name values];
      console := console w |}).
Proof.
  intro H. unfold values_append, appendRowTo.
  rewrite (send_served e Hfault).
  destruct (updateFirst_some (hasTitle name)
              (fun s => withRows s (rows s ++ [map (userEntered e) values]))
              (sheets w) H) as [ss' ->].
  reflexivity.
Qed.

Lemma appendItem_run (first : jsstring) (it : item) (w : world) :
  existsb (hasTitle first) (sheets w) = true ->
  exists w',
    appendItem e first it w = (Ok tt, w') /\
    (sheets w', length (calls w'))
    = appendItemTo e first (sheets w, length (calls w)) it.
Proof.
  intro Hfirst. unfold appendItem, appendItemTo, writtenCells.
  cbn [fst snd].
  set (row := rowValues it (now e (length (calls w)))).
  unfold bind at 1. cbv beta iota. fold row.
  rewrite bind_log. unfold bind at 1, catch at 1, bind at 1.
  rewrite values_append_run by exact Hfirst.
  cbv beta iota. unfold log at 1. cbv beta iota.
  unfold catch, bind at 1.
  match goal with |- context [ensureSheetExists e (company it) ?w0] =>
    destruct (ensureSheetExists_run e Hcred Hfault (company it) w0)
      as (w1 & Hrun & Hs1 & Hc1) end.
  rewrite Hrun. cbn [sheets calls console] in Hs1, Hc1.
  unfold bind at 1.
  rewrite values_append_run
    by (rewrite Hs1; apply ensuredStore_has).
  cbv beta iota. unfold log. cbv beta iota.
  eexists. split; [reflexivity|].
  cbn [sheets calls]. rewrite Hs1. f_equal.
  rewrite length_app, Hc1, length_app. simpl.
  match goal with |- context [if ?b then 1%nat else 3%nat] => destruct b end;
    lia.
Qed.

Lemma appendLoop_run (first : jsstring) (items : list item) :
  forall w,
    existsb (hasTitle first) (sheets w) = true ->
    exists w',
      forEach items (appendItem e first) w = (Ok tt, w') /\
      (sheets w', length (calls w'))
      = appendAll e first items (sheets w, length (calls w)).
Proof.
  induction items as [|it items IH]; intros w Hfirst.
  - exists w. split; reflexivity.
  - destruct (appendItem_run first it w Hfirst) as (w1 & Hrun & Hs).
    simpl forEach. unfold bind at 1. rewrite Hrun.
    destruct (IH w1) as (w' & Hrun' & Hs').
    + pose proof (appendItemTo_still_has e first first
                    (sheets w, length (calls w)) it Hfirst) as H.
      rewrite <- Hs in H. exact H.
    + exists w'. split; [exact Hrun'|].
      rewrite Hs', Hs. reflexivity.
Qed.

Lemma appendData_run (items : list item) (w : world) (s0 : sheet)
      (rest : list sheet) :
  sheets w = s0 :: rest ->
  exists w',
    appendData e items w = (Ok tt, w') /\
    sheets w' =
    fst (appendAll e (title s0) items (sheets w, S (length (calls w)))).
Proof.
  intro Hs.
  destruct (appendLoop_run (title s0) items
              {| sheets := sheets w;
                 calls := calls w ++ [SpreadsheetsGet];
                 console := (console w ++ [Info (lit "authenticated")])
                            ++ [Info (lit "master sheet found")] |})
    as (w' & Hrun & Hw').
  { cbn [sheets]. rewrite Hs. simpl. unfold hasTitle. simpl.
    rewrite eqs_refl. reflexivity. }
  exists w'. split.
  - unfold appendData. rewrite (getSheetsClient_ok e Hcred).
    rewrite bind_log. unfold catch, bind at 1, spreadsheets_get.
    rewrite (send_served e Hfault). cbn [fst snd sheets calls console].
    rewrite Hs at 1. cbn [map snd]. unfold bind at 1, ret at 1.
    cbv beta iota. rewrite bind_log.
    match goal with |- context [forEach items ?f ?wx] =>
      replace (forEach items f wx) with (@Ok error unit tt, w')
        by (symmetry; exact Hrun) end.
    reflexivity.
  - cbn [sheets calls] in Hw'. rewrite length_app in Hw'. simpl in Hw'.
    replace (length (calls w) + 1)%nat with (S (length (calls w))) in Hw'
      by lia.
    rewrite <- Hw'. reflexivity.
Qed.

End Writing.

Lemma appendAll_accounting (e : env) (first : jsstring) (items : list item) :
  forall ss n,
    existsb (hasTitle first) ss = true ->
    (totalRows (fst (appendAll e first items (ss, n))) + length ss
     = totalRows ss + 2 * length items
       + length (fst (appendAll e first items (ss, n))))%nat /\
    (length ss <= length (fst (appendAll e first items (ss, n))))%nat.
Proof.
  induction items as [|it items IH]; intros ss n Hfirst.
  - simpl. lia.
  - unfold appendAll. simpl fold_left.
    set (acc := appendItemTo e first (ss, n) it).
    assert (Hacc : existsb (hasTitle first) (fst acc) = true)
      by (apply appendItemTo_still_has, Hfirst).
    destruct acc as [ss3 n3] eqn:Eacc. simpl in Hacc.
    destruct (IH ss3 n3 Hacc) as [IHr IHl].
    unfold appendAll in IHr, IHl.
    assert (Hstep : (totalRows ss3 + length ss
                     = totalRows ss + 2 + length ss3)%nat /\
                    (length ss <= length ss3)%nat).
    { unfold acc, appendItemTo in Eacc. cbn [fst snd] in Eacc.
      inversion Eacc as [[E1 E2]]. clear Eacc E2.
      set (cells := writtenCells e it n) in *.
      destruct (totalRows_appendRowTo first cells ss Hfirst) as [R1 L1].
      destruct (totalRows_ensuredStore e (company it)
                  (appendRowTo first cells ss)) as [R2 L2].
      destruct (totalRows_appendRowTo (company it) cells
                  (ensuredStore e (company it) (appendRowTo first cells ss))
                  (ensuredStore_has e _ _)) as [R3 L3].
      rewrite R3, L3. lia. }
    simpl length. lia.
Qed.

(** X19. On a back end that serves every request, [appendData] on a
    spreadsheet with at least one tab never fails, and what it leaves is
    obtained item by item, in order: the item's row is added at the end of
    the first tab, the tab named after the company is created with the
    header row if no tab has that title, and the same row is added at the
    end of that tab.  So the spreadsheet gains exactly two rows per item
    and one header row per tab created. *)
Theorem appendData_effect (e : env) (items : list item) (w : world)
        (s0 : sheet) (rest : list sheet) :
  credentials e = true -> faultFree e -> sheets w = s0 :: rest ->
  exists w',
    appendData e items w = (Ok tt, w') /\
    sheets w' =
      fst (appendAll e (title s0) items (sheets w, S (length (calls w)))) /\
    (totalRows (sheets w') + length (sheets w)
     = totalRows (sheets w) + 2 * length items + length (sheets w'))%nat.
Proof.
  intros Hc Hf Hs.
  destruct (appendData_run e Hc Hf items w s0 rest Hs) as (w' & Hrun & Hw').
  exists w'. split; [exact Hrun|]. split; [exact Hw'|].
  rewrite Hw'. apply appendAll_accounting.
  rewrite Hs. simpl. unfold hasTitle. simpl. rewrite eqs_refl. reflexivity.
Qed.

Lemma appendData_effect_witness :
  exists w',
    appendData envPlain [sampleItem; zenithItem] sampleWorld = (Ok tt, w') /\
    (totalRows (sheets w') + 2 = totalRows sampleStore + 4 + length (sheets w'))%nat.
Proof.
  destruct (appendData_effect envPlain [sampleItem; zenithItem] sampleWorld
              (hd {| sheetId := 0; title := []; rows := [] |} sampleStore)
              (tl sampleStore))
    as (w' & Hrun & _ & Hcount).
  - reflexivity.
  - exact faultFree_envPlain.
  - reflexivity.
  - exists w'. split; [exact Hrun | exact Hcount].
Defined.

(** ** Writing, then deleting *)

Lemma filter_all {A} (p : A -> bool) (l : list A) :
  forallb p l = true -> filter p l = l.
Proof.
  induction l as [|x l IH]; simpl; [reflexivity|].
  intro H. apply andb_true_iff in H. destruct H as [Hx Hl].
  rewrite Hx, (IH Hl). reflexivity.
Qed.

(** The row written for a message is one that [deleteData] removes for
    that message. *)
Lemma writtenCells_deletable (e : env) (it : item) (n : nat) :
  keepsQuotedText e -> noApostrophe (ts it) = true ->
  deletable e (ts it) (writtenCells e it n) = true.
Proof.
  intros Hq Hn. unfold deletable, rowMatches, isProtected, writtenCells,
    rowValues.
  cbn [map existsb nth_error]. rewrite Hq.
  assert (Hm : cellMatches e (trim (ts it)) (CStr (ts it)) = true).
  { unfold cellMatches. cbn [cellString]. unfold noApostrophe in Hn.
    rewrite (filter_all _ _ Hn). apply eqs_refl. }
  rewrite Hm. rewrite !orb_true_r. reflexivity.
Qed.

Lemma afterDelete_app (e : env) (ts : jsstring) (a b : list sheet) :
  afterDelete e ts (a ++ b) = afterDelete e ts a ++ afterDelete e ts b.
Proof. unfold afterDelete. apply map_app. Qed.

Lemma afterDelete_appendRowTo (e : env) (ts name : jsstring)
      (cells : list cell) (ss : list sheet) :
  deletable e ts cells = true ->
  afterDelete e ts (appendRowTo name cells ss) = afterDelete e ts ss.
Proof.
  intro Hd. unfold appendRowTo.
  destruct (updateFirst _ _ ss) as [ss'|] eqn:E; [|reflexivity].
  revert ss' E. induction ss as [|s ss IH]; intros ss' E; simpl in E.
  - discriminate.
  - destruct (hasTitle name s).
    + inversion E; subst. simpl. f_equal. unfold withRows. simpl.
      rewrite filter_app. simpl. rewrite Hd. simpl. rewrite app_nil_r.
      reflexivity.
    + destruct (updateFirst _ _ ss) as [r|]; [|discriminate].
      inversion E; subst. simpl. rewrite (IH r eq_refl). reflexivity.
Qed.

Lemma afterDelete_ensuredStore (e : env) (ts name : jsstring)
      (ss : list sheet) :
  exists new,
    afterDelete e ts (ensuredStore e name ss) = afterDelete e ts ss ++ new /\
    Forall (headerOnly e ts) new.
Proof.
  unfold ensuredStore. destruct (existsb (hasTitle name) ss).
  - exists []. rewrite app_nil_r. split; [reflexivity | constructor].
  - rewrite afterDelete_app. eexists. split; [reflexivity|].
    constructor; [reflexivity | constructor].
Qed.

Lemma appendAll_then_delete (e : env) (t first : jsstring)
      (items : list item) :
  keepsQuotedText e -> noApostrophe t = true ->
  Forall (fun it => ts it = t) items ->
  forall ss n,
    exists new,
      afterDelete e t (fst (appendAll e first items (ss, n)))
      = afterDelete e t ss ++ new /\
      Forall (headerOnly e t) new.
Proof.
  intros Hq Hn H. induction H as [|it items Hit _ IH]; intros ss n.
  - exists []. simpl. rewrite app_nil_r. split; [reflexivity | constructor].
  - unfold appendAll. simpl fold_left.
    destruct (appendItemTo e first (ss, n) it) as [ss3 n3] eqn:E.
    destruct (IH ss3 n3) as (new' & Hnew' & HF').
    unfold appendAll in Hnew'. rewrite Hnew'.
    unfold appendItemTo in E. cbn [fst snd] in E. inversion E as [[E1 E2]].
    assert (Hd : deletable e t (writtenCells e it n) = true).
    { rewrite <- Hit. apply writtenCells_deletable; [exact Hq|].
      rewrite Hit. exact Hn. }
    rewrite (afterDelete_appendRowTo e t _ _ _ Hd).
    destruct (afterDelete_ensuredStore e t (company it)
                (appendRowTo first (writtenCells e it n) ss))
      as (x & Hx & HFx).
    rewrite Hx, (afterDelete_appendRowTo e t _ _ _ Hd).
    exists (x ++ new'). rewrite app_assoc. split; [reflexivity|].
    apply Forall_app. split; assumption.
Qed.

Lemma NoDup_snoc {A} (l : list A) (x : A) :
  NoDup l -> ~ In x l -> NoDup (l ++ [x]).
Proof.
  intros Hl Hx. induction Hl as [|y l Hy Hl IH]; simpl.
  - constructor; [intros [] | constructor].
  - constructor.
    + intro Hin. apply in_app_or in Hin. destruct Hin as [Hin | [Hin | []]].
      * exact (Hy Hin).
      * apply Hx. left. symmetry. exact Hin.
    + apply IH. intro Hin. apply Hx. right. exact Hin.
Qed.

Lemma wfStore_appendItemTo (e : env) (first : jsstring)
      (acc : list sheet * nat) (it : item) :
  freshIds e -> wfStore (fst acc) ->
  wfStore (fst (appendItemTo e first acc it)).
Proof.
  intros Hfresh [Hid Ht]. unfold appendItemTo, wfStore. cbn [fst].
  set (cells := writtenCells e it (snd acc)).
  destruct (appendRowTo_keeps (company it) cells
              (ensuredStore e (company it) (appendRowTo first cells (fst acc))))
    as [-> ->].
  destruct (appendRowTo_keeps first cells (fst acc)) as [Ki Kt].
  unfold ensuredStore.
  destruct (existsb (hasTitle (company it)) (appendRowTo first cells (fst acc)))
    eqn:Ex.
  - rewrite Ki, Kt. split; assumption.
  - rewrite !map_app. simpl. split.
    + apply NoDup_snoc; [rewrite Ki; exact Hid | apply Hfresh].
    + apply NoDup_snoc; [rewrite Kt; exact Ht|].
      intro Hin. apply in_map_iff in Hin. destruct Hin as (s & Es & Hs).
      pose proof (existsb_false_all _ _ Ex s Hs) as Hf.
      unfold hasTitle in Hf. rewrite Es, eqs_refl in Hf. discriminate Hf.
Qed.

Lemma wfStore_appendAll (e : env) (first : jsstring) (items : list item) :
  freshIds e ->
  forall acc, wfStore (fst acc) -> wfStore (fst (appendAll e first items acc)).
Proof.
  intro Hfresh. induction items as [|it items IH]; intros acc H; [exact H|].
  unfold appendAll. simpl fold_left. apply IH.
  apply wfStore_appendItemTo; assumption.
Qed.

(** X20. Writing then deleting is a round trip: on a back end that serves
    every request, stores quoted text as text and gives new tabs unused
    identifiers, [appendData] of the items of one message followed by
    [deleteData] of that message's timestamp leaves every former tab as
    [deleteData] alone would have left it; the rows just written are gone
    from the master tab and from the company tabs, and a tab created on
    the way keeps at most its header row. *)
Theorem append_then_delete (e : env) (t : jsstring) (items : list item)
        (w : world) (s0 : sheet) (rest : list sheet) :
  credentials e = true -> faultFree e -> freshIds e -> keepsQuotedText e ->
  wfStore (sheets w) -> sheets w = s0 :: rest ->
  noApostrophe t = true -> Forall (fun it => ts it = t) items ->
  exists w1 w2 new,
    appendData e items w = (Ok tt, w1) /\
    deleteData e t w1 = (Ok tt, w2) /\
    sheets w2 = afterDelete e t (sheets w) ++ new /\
    Forall (headerOnly e t) new.
Proof.
  intros Hc Hf Hfresh Hq Hwf Hs Hn Hits.
  destruct (appendData_run e Hc Hf items w s0 rest Hs) as (w1 & H1 & S1).
  assert (Hwf1 : wfStore (sheets w1)).
  { rewrite S1. apply wfStore_appendAll; assumption. }
  destruct (deleteData_run e Hc Hf t w1 Hwf1) as (w2 & H2 & S2).
  destruct (appendAll_then_delete e t (title s0) items Hq Hn Hits
              (sheets w) (S (length (calls w)))) as (new & Hnew & HF).
  exists w1, w2, new. split; [exact H1|]. split; [exact H2|].
  split; [|exact HF]. rewrite S2, S1. exact Hnew.
Qed.

Lemma freshIds_envFresh : freshIds envFresh.
Proof.
  assert (B : forall l x, In x l -> (x <= fold_right Z.max 0 l)%Z).
  { induction l as [|y l IH]; simpl; [tauto|].
    intros x [-> | Hx]; [lia|]. specialize (IH x Hx). lia. }
  intros ss Hin. unfold envFresh in Hin. cbn [freshSheetId] in Hin.
  apply B in Hin. lia.
Qed.

Lemma append_then_delete_witness :
  exists w1 w2 new,
    appendData envFresh [zenithItem] sampleWorld = (Ok tt, w1) /\
    deleteData envFresh TS2 w1 = (Ok tt, w2) /\
    sheets w2 = afterDelete envFresh TS2 sampleStore ++ new /\
    Forall (headerOnly envFresh TS2) new.
Proof.
  apply (append_then_delete envFresh TS2 [zenithItem] sampleWorld
           (hd {| sheetId := 0; title := []; rows := [] |} sampleStore)
           (tl sampleStore)).
  - reflexivity.
  - intros ss cs r. reflexivity.
  - exact freshIds_envFresh.
  - intro str. reflexivity.
  - exact wfStore_sampleStore.
  - reflexivity.
  - reflexivity.
  - repeat constructor.
Defined.

(** X21. An edit on a back end that serves every request: [updateData]
    succeeds, and the spreadsheet it leaves is the one [deleteData] leaves
    for the timestamp, with the new items then written as [appendData]
    writes them; with no new item, it is just the deletion. *)
Theorem updateData_effect (e : env) (ts : jsstring) (items : list item)
        (w : world) (s0 : sheet) (rest : list sheet) :
  credentials e = true -> faultFree e ->
  wfStore (sheets w) -> sheets w = s0 :: rest ->
  exists w' n,
    updateData e ts items w = (Ok tt, w') /\
    sheets w' =
      fst (appendAll e (title s0) items (afterDelete e ts (sheets w), n)) /\
    (items = [] -> sheets w' = afterDelete e ts (sheets w)).
Proof.
  intros Hc Hf Hwf Hs.
  destruct (deleteData_run e Hc Hf ts
              (logged (Info (lit "update request")) w) Hwf)
    as (w1 & H1 & S1).
  simpl in S1.
  assert (Hs1 : sheets w1
                = withRows s0 (filter (fun r => negb (deletable e ts r)) (rows s0))
                  :: afterDelete e ts rest).
  { rewrite S1, Hs. reflexivity. }
  destruct (appendData_run e Hc Hf items w1 _ _ Hs1) as (w' & H2 & S2).
  exists w', (S (length (calls w1))).
  assert (Hrun : updateData e ts items w = (Ok tt, w')).
  { unfold updateData. rewrite bind_log. unfold bind at 1.
    change (deleteData e ts _)
      with (deleteData e ts (logged (Info (lit "update request")) w)).
    rewrite H1. exact H2. }
  split; [exact Hrun|].
  assert (Hfinal : sheets w' =
            fst (appendAll e (title s0) items
                   (afterDelete e ts (sheets w), S (length (calls w1))))).
  { rewrite S2, S1. reflexivity. }
  split; [exact Hfinal|].
  intros ->. rewrite Hfinal. reflexivity.
Qed.

Lemma updateData_effect_witness :
  exists w',
    updateData envPlain TS1 [] sampleWorld = (Ok tt, w') /\
    sheets w' = afterDelete envPlain TS1 sampleStore.
Proof.
  destruct (updateData_effect envPlain TS1 [] sampleWorld
              (hd {| sheetId := 0; title := []; rows := [] |} sampleStore)
              (tl sampleStore))
    as (w' & n & Hrun & _ & Hempty).
  - reflexivity.
  - exact faultFree_envPlain.
  - exact wfStore_sampleStore.
  - reflexivity.
  - exists w'. split; [exact Hrun | apply Hempty; reflexivity].
Defined.

End SheetMore.

(* ================================================================== *)
(** * The settings file *)
(* ================================================================== *)

Module ConfigFacts.
Import JS ConfigManager ConfigTerms JSFacts.

Lemma lookup_app (k : jsstring) (a b : list (jsstring * jsval)) :
  lookup k (a ++ b)
  = match lookup k a with Some v => Some v | None => lookup k b end.
Proof.
  induction a as [|[k' v'] a IH]; simpl; [reflexivity|].
  destruct (eqs k k'); [reflexivity | exact IH].
Qed.

Lemma lookup_assigned (k k' : jsstring) (v : jsval)
      (ps : list (jsstring * jsval)) :
  lookup k (setProp k' v ps) = if eqs k k' then Some v else lookup k ps.
Proof.
  induction ps as [|[k0 v0] r IH]; simpl.
  - reflexivity.
  - destruct (eqs k' k0) eqn:E; simpl.
    + apply eqs_eq in E. subst k0. destruct (eqs k k'); reflexivity.
    + rewrite IH. destruct (eqs k k') eqn:E1; [|reflexivity].
      apply eqs_eq in E1. subst k'. rewrite E. reflexivity.
Qed.

Lemma lastValue_cons (k : jsstring) (kv : jsstring * jsval)
      (r : list (jsstring * jsval)) :
  lastValue k (kv :: r)
  = match lastValue k r with
    | Some v => Some v
    | None => if eqs k (fst kv) then Some (snd kv) else None
    end.
Proof.
  unfold lastValue. simpl rev. rewrite lookup_app. destruct kv as [k' v'].
  reflexivity.
Qed.

Lemma lastValue_app (k : jsstring) (a b : list (jsstring * jsval)) :
  lastValue k (a ++ b)
  = match lastValue k b with Some v => Some v | None => lastValue k a end.
Proof. unfold lastValue. rewrite rev_app_distr. apply lookup_app. Qed.

Lemma lookup_none (k : jsstring) (m : list (jsstring * jsval)) :
  ~ In k (keys m) -> lookup k m = None.
Proof.
  induction m as [|[k' v'] m IH]; intro H; [reflexivity|].
  simpl. destruct (eqs k k') eqn:E.
  - apply eqs_eq in E. subst k'. exfalso. apply H. left. reflexivity.
  - apply IH. intro Hin. apply H. right. exact Hin.
Qed.

Lemma keys_dec (k : jsstring) (l : list jsstring) : {In k l} + {~ In k l}.
Proof. apply in_dec. apply list_eq_dec. apply N.eq_dec. Qed.

Lemma lookup_some_key (k : jsstring) (v : jsval)
      (m : list (jsstring * jsval)) :
  lookup k m = Some v -> In k (keys m).
Proof.
  intro H. destruct (keys_dec k (keys m)) as [Hin | Hout]; [exact Hin|].
  rewrite (lookup_none k m Hout) in H. discriminate H.
Qed.

Lemma lookup_inserted (k k' : jsstring) (v : jsval)
      (ps : list (jsstring * jsval)) :
  lookup k' ps = None ->
  lookup k (insertKey k' v ps) = if eqs k k' then Some v else lookup k ps.
Proof.
  induction ps as [|[k0 v0] r IH]; intro H; simpl.
  - reflexivity.
  - simpl in H. destruct (eqs k' k0) eqn:E0; [discriminate H|].
    destruct (precedes k' k0); simpl.
    + reflexivity.
    + rewrite (IH H). destruct (eqs k k0) eqn:E; [|reflexivity].
      apply eqs_eq in E. subst k0.
      destruct (eqs k k') eqn:E1; [|reflexivity].
      apply eqs_eq in E1. subst k'. rewrite eqs_refl in E0. discriminate E0.
Qed.

Lemma lookup_defined (k k' : jsstring) (v : jsval)
      (ps : list (jsstring * jsval)) :
  lookup k (defineProp k' v ps) = if eqs k k' then Some v else lookup k ps.
Proof.
  unfold defineProp. destruct (lookup k' ps) eqn:L.
  - apply lookup_assigned.
  - apply lookup_inserted, L.
Qed.

Lemma lookup_fold_assign (k : jsstring) (l acc : list (jsstring * jsval)) :
  lookup k (fold_left assign l acc)
  = match lastValue k l with Some v => Some v | None => lookup k acc end.
Proof.
  revert acc. induction l as [|kv r IH]; intro acc; [reflexivity|].
  simpl fold_left. rewrite IH, lastValue_cons. unfold assign.
  rewrite lookup_defined. destruct (lastValue k r); [reflexivity|].
  destruct (eqs k (fst kv)); reflexivity.
Qed.

(** What [{ ...a, ...b }] holds for a key: the value in [b] if there is
    one, else the value in [a]. *)
Lemma lookup_merge (k : jsstring) (a b : jsval) :
  lookup k (merge a b)
  = match lastValue k (spread b) with
    | Some v => Some v
    | None => lastValue k (spread a)
    end.
Proof.
  unfold merge. rewrite lookup_fold_assign, lastValue_app. simpl.
  destruct (lastValue k (spread b)); [reflexivity|].
  destruct (lastValue k (spread a)); reflexivity.
Qed.

(** A successful save, and the read that follows it. *)
Lemma saveConfig_run (e : env) (newConfig : jsval) (w : world) :
  writable e = true -> readable e = true ->
  roundTrips e (merge (fst (getConfig e w)) newConfig) ->
  exists w1,
    saveConfig e newConfig w = (true, w1) /\
    file w1
    = Some (JSON_stringify e (merge (fst (getConfig e w)) newConfig)) /\
    getConfig e w1 = (VObj (merge (fst (getConfig e w)) newConfig), w1).
Proof.
  intros Hw Hr Hrt. unfold saveConfig.
  destruct (getConfig e w) as [cur w0]. cbn [fst] in Hrt. rewrite Hw.
  eexists. split; [reflexivity|]. split; [reflexivity|].
  unfold getConfig, say. cbn [file]. rewrite Hr, Hrt. reflexivity.
Qed.

(** X22. What is saved is what is read back: when the file can be read and
    written and the codec gives back the merged object, [saveConfig]
    returns [true], and the next [getConfig] returns an object in which
    every key of the new settings has its new value and every other key
    keeps the value it had in the file. *)
Theorem saved_settings_read_back (e : env) (newConfig : jsval) (w : world) :
  writable e = true -> readable e = true ->
  roundTrips e (merge (fst (getConfig e w)) newConfig) ->
  exists w1 props,
    saveConfig e newConfig w = (true, w1) /\
    getConfig e w1 = (VObj props, w1) /\
    forall k,
      lookup k props
      = match lastValue k (spread newConfig) with
        | Some v => Some v
        | None => lastValue k (spread (fst (getConfig e w)))
        end.
Proof.
  intros Hw Hr Hrt.
  destruct (saveConfig_run e newConfig w Hw Hr Hrt) as (w1 & Hs & _ & Hg).
  exists w1, (merge (fst (getConfig e w)) newConfig).
  split; [exact Hs|]. split; [exact Hg|].
  intro k. apply lookup_merge.
Qed.

Lemma saved_settings_read_back_witness :
  exists w1 props,
    saveConfig envLines fullSettings partialWorld = (true, w1) /\
    getConfig envLines w1 = (VObj props, w1) /\
    forall k,
      lookup k props
      = match lastValue k (spread fullSettings) with
        | Some v => Some v
        | None => lastValue k (spread (fst (getConfig envLines partialWorld)))
        end.
Proof.
  apply (saved_settings_read_back envLines fullSettings partialWorld);
    reflexivity.
Defined.

Lemma blank_trimStart (s : jsstring) : blank s = true -> trimStart s = [].
Proof.
  induction s as [|c s IH]; intro H; [reflexivity|].
  simpl in H. apply andb_true_iff in H. destruct H as [Hc Hs].
  simpl. rewrite Hc. apply IH, Hs.
Qed.

Lemma trimStart_blank (s : jsstring) :
  blank (trimStart s) = true -> blank s = true.
Proof.
  induction s as [|c s IH]; intro H; [reflexivity|].
  simpl in H. destruct (isWhiteSpace c) eqn:Hc.
  - simpl. rewrite Hc. apply IH, H.
  - simpl in H. rewrite Hc in H. discriminate H.
Qed.

Lemma trimEnd_nil_blank (s : jsstring) : trimEnd s = [] -> blank s = true.
Proof.
  induction s as [|c s IH]; intro H; [reflexivity|].
  simpl in H. destruct (trimEnd s) eqn:E; [|discriminate H].
  destruct (isWhiteSpace c) eqn:Hc; [|discriminate H].
  simpl. rewrite Hc. apply IH. reflexivity.
Qed.

(** [s.trim() === ''] says that [s] is white space only. *)
Lemma trim_nil_iff (s : jsstring) : trim s = [] <-> blank s = true.
Proof.
  unfold trim. split.
  - intro H. apply trimStart_blank, trimEnd_nil_blank, H.
  - intro H. rewrite (blank_trimStart s H). reflexivity.
Qed.

Lemma every_true_iff {A} (p : A -> outcome error bool) (l : list A) :
  every p l = Ok true <-> forall x, In x l -> p x = Ok true.
Proof.
  induction l as [|x l IH]; simpl.
  - split; [intros _ y [] | reflexivity].
  - destruct (p x) as [[|]|err] eqn:E.
    + rewrite IH. split.
      * intros H y [<- | Hy]; [exact E | apply H, Hy].
      * intros H y Hy. apply H. right. exact Hy.
    + split; [discriminate|]. intro H.
      rewrite <- E. symmetry. rewrite <- (H x (or_introl eq_refl)).
      reflexivity.
    + split; [discriminate|]. intro H.
      rewrite <- E. symmetry. rewrite <- (H x (or_introl eq_refl)).
      reflexivity.
Qed.

Lemma fieldSet_true_iff (e : env) (props : list (jsstring * jsval))
      (f : jsstring) :
  fieldSet e (VObj props) f = Ok true <->
  exists v s,
    lookup f props = Some v /\ truthy v = true /\
    toString (numberToString e) v = Some s /\ blank s = false.
Proof.
  unfold fieldSet, getField. split.
  - destruct (lookup f props) as [v|] eqn:L; [|simpl; discriminate].
    destruct (truthy v) eqn:T; [|discriminate].
    destruct (toString (numberToString e) v) as [s|] eqn:S; [|discriminate].
    intro H. exists v, s. repeat split; try assumption.
    destruct (blank s) eqn:B; [|reflexivity].
    apply trim_nil_iff in B. rewrite B in H. simpl in H. discriminate H.
  - intros (v & s & L & T & S & B). rewrite L, T, S.
    destruct (trim s) eqn:E; [|reflexivity].
    apply trim_nil_iff in E. congruence.
Qed.

(** X23. [isConfigured] on settings that are an object: it answers [true]
    exactly when each of the five required fields holds a truthy value
    whose text has a character that is not white space. *)
Theorem isConfigured_iff (e : env) (w : world)
        (props : list (jsstring * jsval)) :
  fst (getConfig e w) = VObj props ->
  (fst (isConfigured e w) = Ok true <->
   forall f, In f requiredFields ->
     exists v s,
       lookup f props = Some v /\ truthy v = true /\
       toString (numberToString e) v = Some s /\ blank s = false).
Proof.
  intro Hg. unfold isConfigured. destruct (getConfig e w) as [config w1].
  cbn [fst] in *. subst config. rewrite every_true_iff.
  split; intros H f Hf; apply fieldSet_true_iff, H, Hf.
Qed.

Lemma isConfigured_iff_witness :
  fst (isConfigured envLines fullWorld) = Ok true <->
  forall f, In f requiredFields ->
    exists v s,
      lookup f fullProps = Some v /\ truthy v = true /\
      toString (numberToString envLines) v = Some s /\ blank s = false.
Proof.
  apply (isConfigured_iff envLines fullWorld fullProps). reflexivity.
Defined.

(** X24. Saving the five required fields configures the bot: whatever the
    file held before, after [saveConfig] of settings that give each
    required field a text with a character that is not white space,
    [isConfigured] answers [true]. *)
Theorem saving_required_fields_configures (e : env) (newConfig : jsval)
        (w : world) :
  writable e = true -> readable e = true ->
  roundTrips e (merge (fst (getConfig e w)) newConfig) ->
  (forall f, In f requiredFields ->
     exists s, lastValue f (spread newConfig) = Some (VStr s) /\
               blank s = false) ->
  fst (saveConfig e newConfig w) = true /\
  fst (isConfigured e (snd (saveConfig e newConfig w))) = Ok true.
Proof.
  intros Hw Hr Hrt Hreq.
  destruct (saveConfig_run e newConfig w Hw Hr Hrt) as (w1 & Hs & _ & Hg).
  rewrite Hs. cbn [fst snd]. split; [reflexivity|].
  unfold isConfigured. rewrite Hg. cbn [fst].
  apply every_true_iff. intros f Hf. apply fieldSet_true_iff.
  destruct (Hreq f Hf) as (s & Hl & Hb).
  exists (VStr s), s. split.
  - rewrite lookup_merge, Hl. reflexivity.
  - split; [|split; [reflexivity | exact Hb]].
    destruct s; [discriminate Hb | reflexivity].
Qed.

Lemma saving_required_fields_configures_witness :
  fst (saveConfig envLines fullSettings partialWorld) = true /\
  fst (isConfigured envLines
         (snd (saveConfig envLines fullSettings partialWorld))) = Ok true.
Proof.
  apply (saving_required_fields_configures envLines fullSettings
           partialWorld); try reflexivity.
  intros f Hf. simpl in Hf.
  destruct Hf as [<- | [<- | [<- | [<- | [<- | []]]]]];
    eexists; split; reflexivity.
Defined.

(** X25. Settings that are JSON but not an object: when the file parses to
    [null], [isConfigured] throws a TypeError, which nothing in it catches;
    when it parses to a number, a text, a boolean or an array, it answers
    [false]. *)
Theorem isConfigured_non_object (e : env) (w : world) (data : jsstring)
        (v : jsval) :
  file w = Some data -> readable e = true ->
  JSON_parse e data = Some v -> isObject v = false ->
  fst (isConfigured e w)
  = match v with
    | VNull | VUndefined => Throw TypeError
    | _ => Ok false
    end.
Proof.
  intros Hf Hr Hp Ho. unfold isConfigured, getConfig.
  rewrite Hf, Hr, Hp. destruct v; try reflexivity. discriminate Ho.
Qed.

Lemma isConfigured_non_object_witness :
  fst (isConfigured envLines nullWorld) = Throw TypeError.
Proof.
  apply (isConfigured_non_object envLines nullWorld (lit "null") VNull);
    reflexivity.
Defined.

(** X26. A settings file that is absent, unreadable or not JSON counts as
    empty settings: [getConfig] returns the empty object, [isConfigured]
    answers [false], and a successful [saveConfig] writes the new settings
    alone, so that whatever the file held is gone. *)
Theorem unusable_file_is_empty_settings (e : env) (newConfig : jsval)
        (w : world) :
  unusable e w ->
  fst (getConfig e w) = VObj [] /\
  fst (isConfigured e w) = Ok false /\
  (writable e = true ->
   fst (saveConfig e newConfig w) = true /\
   file (snd (saveConfig e newConfig w))
   = Some (JSON_stringify e (merge (VObj []) newConfig))).
Proof.
  intro Hu. unfold unusable in Hu.
  assert (Hg : fst (getConfig e w) = VObj []).
  { unfold getConfig. destruct (file w) as [data|]; [|reflexivity].
    destruct Hu as [Hr | Hp].
    - rewrite Hr. reflexivity.
    - destruct (readable e); [rewrite Hp|]; reflexivity. }
  split; [exact Hg|]. split.
  - unfold isConfigured. destruct (getConfig e w) as [config w1].
    cbn [fst] in *. subst config. reflexivity.
  - intro Hw. unfold saveConfig. destruct (getConfig e w) as [config w1].
    cbn [fst] in Hg. subst config. rewrite Hw. split; reflexivity.
Qed.

Lemma unusable_file_is_empty_settings_witness :
  fst (getConfig envLines corruptWorld) = VObj [] /\
  fst (isConfigured envLines corruptWorld) = Ok false /\
  (writable envLines = true ->
   fst (saveConfig envLines fullSettings corruptWorld) = true /\
   file (snd (saveConfig envLines fullSettings corruptWorld))
   = Some (JSON_stringify envLines (merge (VObj []) fullSettings))).
Proof.
  apply (unusable_file_is_empty_settings envLines fullSettings corruptWorld).
  right. reflexivity.
Defined.

Lemma keys_setProp_old (k : jsstring) (v : jsval)
      (m : list (jsstring * jsval)) :
  In k (keys m) -> keys (setProp k v m) = keys m.
Proof.
  induction m as [|[k' v'] m IH]; intro H; [destruct H|].
  simpl. destruct (eqs k k') eqn:E.
  - apply eqs_eq in E. subst k'. reflexivity.
  - simpl. f_equal. apply IH. destruct H as [H | H]; [|exact H].
    simpl in H. subst k'. rewrite eqs_refl in E. discriminate E.
Qed.

Lemma keys_defined_old (k : jsstring) (v : jsval)
      (m : list (jsstring * jsval)) :
  In k (keys m) -> keys (defineProp k v m) = keys m.
Proof.
  intro H. unfold defineProp. destruct (lookup k m) eqn:L.
  - apply keys_setProp_old, H.
  - destruct (keys_dec k (keys m)) as [_|Hout]; [|contradiction].
    exfalso. clear -H L. induction m as [|[k' v'] m IH]; [destruct H|].
    simpl in L. destruct (eqs k k') eqn:E; [discriminate L|].
    destruct H as [H | H]; [|exact (IH H L)].
    simpl in H. subst k'. rewrite eqs_refl in E. discriminate E.
Qed.

Lemma in_keys_inserted (x k : jsstring) (v : jsval)
      (m : list (jsstring * jsval)) :
  In x (keys (insertKey k v m)) <-> x = k \/ In x (keys m).
Proof.
  induction m as [|[k' v'] m IH]; simpl.
  - intuition.
  - destruct (precedes k k'); simpl.
    + intuition.
    + rewrite IH. intuition.
Qed.

Lemma NoDup_keys_inserted (k : jsstring) (v : jsval)
      (m : list (jsstring * jsval)) :
  NoDup (keys m) -> ~ In k (keys m) -> NoDup (keys (insertKey k v m)).
Proof.
  induction m as [|[k' v'] m IH]; intros Hn Hk; simpl.
  - constructor; [intros [] | constructor].
  - destruct (precedes k k'); simpl.
    + constructor; assumption.
    + inversion Hn as [|? ? Hk' Hn']; subst. constructor.
      * intro Hin. apply in_keys_inserted in Hin.
        destruct Hin as [-> | Hin]; [apply Hk; left; reflexivity|].
        exact (Hk' Hin).
      * apply IH; [exact Hn'|]. intro Hin. apply Hk. right. exact Hin.
Qed.

Lemma NoDup_keys_defined (k : jsstring) (v : jsval)
      (m : list (jsstring * jsval)) :
  NoDup (keys m) -> NoDup (keys (defineProp k v m)).
Proof.
  intro H. destruct (keys_dec k (keys m)) as [Hin | Hout].
  - rewrite keys_defined_old; assumption.
  - unfold defineProp. rewrite (lookup_none k m Hout).
    apply NoDup_keys_inserted; assumption.
Qed.

Lemma NoDup_keys_fold (l acc : list (jsstring * jsval)) :
  NoDup (keys acc) -> NoDup (keys (fold_left assign l acc)).
Proof.
  revert acc. induction l as [|kv l IH]; intros acc H; [exact H|].
  simpl. apply IH. apply NoDup_keys_defined, H.
Qed.

(** [precedes] is a strict order. *)
Lemma precedes_asym (a b : jsstring) :
  precedes a b = true -> precedes b a = false.
Proof.
  unfold precedes.
  destruct (arrayIndex a) as [i|], (arrayIndex b) as [j|];
    try discriminate; try reflexivity.
  intro H. apply N.ltb_lt in H. apply N.ltb_ge. lia.
Qed.

Lemma precedes_trans (a b c : jsstring) :
  precedes a b = true -> precedes b c = true -> precedes a c = true.
Proof.
  unfold precedes.
  destruct (arrayIndex a) as [i|], (arrayIndex b) as [j|],
    (arrayIndex c) as [l|]; try discriminate; try reflexivity.
  intros H1 H2. apply N.ltb_lt in H1, H2. apply N.ltb_lt. lia.
Qed.

Lemma ordered_inserted (k : jsstring) (v : jsval)
      (m : list (jsstring * jsval)) :
  ordered (keys m) -> ordered (keys (insertKey k v m)).
Proof.
  induction m as [|[k' v'] m IH]; intro H; simpl.
  - split; [intros k0 [] | exact I].
  - destruct H as [Hhd Htl]. destruct (precedes k k') eqn:P; simpl.
    + split; [|split; assumption].
      intros y [<- | Hy]; [apply precedes_asym, P|].
      destruct (precedes y k) eqn:Q; [|reflexivity].
      rewrite <- (Hhd y Hy). symmetry. exact (precedes_trans y k k' Q P).
    + split; [|apply IH, Htl].
      intros y Hy. apply in_keys_inserted in Hy.
      destruct Hy as [-> | Hy]; [exact P | apply Hhd, Hy].
Qed.

Lemma ordered_defined (k : jsstring) (v : jsval)
      (m : list (jsstring * jsval)) :
  ordered (keys m) -> ordered (keys (defineProp k v m)).
Proof.
  intro H. destruct (keys_dec k (keys m)) as [Hin | Hout].
  - rewrite keys_defined_old; assumption.
  - unfold defineProp. rewrite (lookup_none k m Hout).
    apply ordered_inserted, H.
Qed.

Lemma ordered_fold (l acc : list (jsstring * jsval)) :
  ordered (keys acc) -> ordered (keys (fold_left assign l acc)).
Proof.
  revert acc. induction l as [|kv l IH]; intros acc H; [exact H|].
  simpl. apply IH. apply ordered_defined, H.
Qed.

Lemma ordered_app (a b : list jsstring) :
  ordered (a ++ b) ->
  forall x y, In x a -> In y b -> precedes y x = false.
Proof.
  induction a as [|k a IH]; intros H x y Hx Hy; [destruct Hx|].
  destruct H as [Hhd Htl]. destruct Hx as [<- | Hx].
  - apply Hhd. apply in_or_app. right. exact Hy.
  - exact (IH Htl x y Hx Hy).
Qed.

Lemma insertKey_last (k : jsstring) (v : jsval)
      (m : list (jsstring * jsval)) :
  (forall k', In k' (keys m) -> precedes k k' = false) ->
  insertKey k v m = m ++ [(k, v)].
Proof.
  induction m as [|[k' v'] m IH]; intro H; [reflexivity|].
  simpl. rewrite (H k' (or_introl eq_refl)). f_equal.
  apply IH. intros y Hy. apply H. right. exact Hy.
Qed.

(** Building an object from its own properties, taken in order, gives
    the object back. *)
Lemma fold_assign_fresh (m acc : list (jsstring * jsval)) :
  NoDup (keys (acc ++ m)) -> ordered (keys (acc ++ m)) ->
  fold_left assign m acc = acc ++ m.
Proof.
  revert acc. induction m as [|[k v] m IH]; intros acc Hn Ho.
  - rewrite app_nil_r. reflexivity.
  - simpl fold_left. unfold assign at 2. cbn [fst snd].
    assert (Hk : ~ In k (keys acc)).
    { unfold keys in Hn. rewrite map_app in Hn. simpl in Hn.
      apply NoDup_remove_2 in Hn. intro Hin. apply Hn.
      apply in_or_app. left. exact Hin. }
    assert (Hl : insertKey k v acc = acc ++ [(k, v)]).
    { apply insertKey_last. intros k' Hk'.
      unfold keys in Ho. rewrite map_app in Ho.
      apply (ordered_app _ _ Ho k' k Hk'). left. reflexivity. }
    unfold defineProp. rewrite (lookup_none k acc Hk), Hl, IH.
    + rewrite <- app_assoc. reflexivity.
    + rewrite <- app_assoc. exact Hn.
    + rewrite <- app_assoc. exact Ho.
Qed.

Lemma keys_fold_old (l m : list (jsstring * jsval)) :
  (forall kv, In kv l -> In (fst kv) (keys m)) ->
  keys (fold_left assign l m) = keys m.
Proof.
  revert m. induction l as [|kv l IH]; intros m H; [reflexivity|].
  simpl fold_left. rewrite IH.
  - apply keys_defined_old. apply H. left. reflexivity.
  - intros kv' Hin. unfold assign. rewrite keys_defined_old.
    + apply H. right. exact Hin.
    + apply H. left. reflexivity.
Qed.

Lemma in_lookup (kv : jsstring * jsval) (m : list (jsstring * jsval)) :
  In kv m -> exists v, lookup (fst kv) m = Some v.
Proof.
  induction m as [|[k' v'] m IH]; intro H; [destruct H|].
  simpl. destruct (eqs (fst kv) k') eqn:E; [eexists; reflexivity|].
  destruct H as [H | H]; [|apply IH, H].
  subst kv. simpl in E. rewrite eqs_refl in E. discriminate E.
Qed.

(** Two objects with the same keys in the same order and the same value
    for every key are the same object. *)
Lemma props_ext (a b : list (jsstring * jsval)) :
  keys a = keys b -> NoDup (keys a) ->
  (forall k, lookup k a = lookup k b) -> a = b.
Proof.
  revert b. induction a as [|[k v] a IH]; intros [|[k' v'] b] Hk Hn Hl;
    try discriminate Hk; [reflexivity|].
  simpl in Hk. inversion Hk as [[Hk1 Hk2]]. subst k'.
  pose proof (Hl k) as Hv. simpl in Hv. rewrite eqs_refl in Hv.
  inversion Hv. subst v'. f_equal.
  inversion Hn as [|? ? Hnot Hn']. subst.
  apply IH; [exact Hk2 | exact Hn' |].
  intro k0. destruct (eqs k0 k) eqn:E.
  - apply eqs_eq in E. subst k0.
    rewrite (lookup_none k a Hnot). symmetry. apply lookup_none.
    unfold keys in *. rewrite <- Hk2. exact Hnot.
  - specialize (Hl k0). simpl in Hl. rewrite E in Hl. exact Hl.
Qed.

(** Merging the same settings into the result of a merge changes
    nothing. *)
Lemma merge_again (a b : jsval) :
  merge (VObj (merge a b)) b = merge a b.
Proof.
  set (m := merge a b).
  assert (Hn : NoDup (keys m)).
  { apply NoDup_keys_fold. constructor. }
  assert (Ho : ordered (keys m)).
  { apply ordered_fold. exact I. }
  unfold merge at 1. cbn [spread]. rewrite fold_left_app.
  rewrite (fold_assign_fresh m []) by assumption. cbn [app].
  assert (Hin : forall kv, In kv (spread b) -> In (fst kv) (keys m)).
  { intros kv Hkv. apply in_rev in Hkv.
    destruct (in_lookup kv _ Hkv) as [v Hv].
    destruct (lookup (fst kv) m) as [v'|] eqn:L.
    - apply (lookup_some_key _ v'). exact L.
    - unfold m in L. rewrite lookup_merge in L. unfold lastValue in L.
      rewrite Hv in L. discriminate L. }
  apply props_ext.
  - apply keys_fold_old, Hin.
  - rewrite (keys_fold_old _ _ Hin). exact Hn.
  - intro k. rewrite lookup_fold_assign. unfold m. rewrite lookup_merge.
    destruct (lastValue k (spread b)); reflexivity.
Qed.

(** X27. Saving the same settings twice is saving them once: after a
    successful [saveConfig], a second [saveConfig] of the same settings
    returns [true] and leaves the file as the first one wrote it. *)
Theorem saveConfig_twice (e : env) (newConfig : jsval) (w : world) :
  writable e = true -> readable e = true ->
  roundTrips e (merge (fst (getConfig e w)) newConfig) ->
  fst (saveConfig e newConfig (snd (saveConfig e newConfig w))) = true /\
  file (snd (saveConfig e newConfig (snd (saveConfig e newConfig w))))
  = file (snd (saveConfig e newConfig w)).
Proof.
  intros Hw Hr Hrt.
  destruct (saveConfig_run e newConfig w Hw Hr Hrt) as (w1 & Hs & Hf & Hg).
  rewrite Hs. cbn [snd]. unfold saveConfig. rewrite Hg, Hw. cbn [fst snd].
  split; [reflexivity|]. unfold say. cbn [file].
  rewrite merge_again. symmetry. exact Hf.
Qed.

Lemma saveConfig_twice_witness :
  fst (saveConfig envLines fullSettings
         (snd (saveConfig envLines fullSettings partialWorld))) = true /\
  file (snd (saveConfig envLines fullSettings
               (snd (saveConfig envLines fullSettings partialWorld))))
  = file (snd (saveConfig envLines fullSettings partialWorld)).
Proof.
  apply (saveConfig_twice envLines fullSettings partialWorld); reflexivity.
Defined.

End ConfigFacts.
